(** * Session tree of the video-learning front end

    A shallow embedding of the TypeScript sources
    - [frontend/src/services/cachedSessionService.ts]
    - [frontend/src/services/searchService.ts]
    - [frontend/src/components/NodeCarousel.tsx]
    - [HomePage.tsx] (session loading and topic submission; the component
      is kept in the file [frontend/src/pages/GraphPage.tsx])
    - [components/LandingPage.tsx] (what it submits)
    - [frontend/src/components/SearchBar.tsx] and
      [frontend/src/components/TreeExplorer.tsx] (their searches, and the
      layout of the tree explorer)
    together with the navigation helpers of [types/TreeState.ts] and the
    generation-job protocol, and the properties the specification states
    about them. *)

From Stdlib Require Import ZArith QArith Qabs Lia Lqa Ascii String List Bool Sorting.Sorted Floats.
From stdpp Require Import base option gmap sets list strings.

Local Open Scope Z_scope.
Local Open Scope nat_scope.

(* ===================================================================== *)
(** * JavaScript strings and objects *)
(* ===================================================================== *)

(** Strings are [string]: sequences of 8-bit code units, read as the
    Latin-1 range U+0000..U+00FF of JavaScript's code units. *)
Module JS.

Definition code (c : ascii) : nat := nat_of_ascii c.

Definition between (lo hi : nat) (c : ascii) : bool :=
  (lo <=? code c) && (code c <=? hi).

(** The character classes of the regular expressions in [normalizeText]:
    [a-z], [0-9] and [\s]. Below U+0100, [\s] is TAB, LF, VT, FF, CR,
    SPACE and NO-BREAK SPACE. *)
Definition is_lower_az (c : ascii) : bool := between 97 122 c.
Definition is_digit (c : ascii) : bool := between 48 57 c.
Definition is_whitespace (c : ascii) : bool :=
  between 9 13 c || (code c =? 32) || (code c =? 160).

Definition space : ascii := " "%char.

(** [String.prototype.toLowerCase] on one code unit: A-Z and the Latin-1
    capitals U+00C0..U+00DE (but not the multiplication sign U+00D7) move
    up by 32; everything else is unchanged. *)
Definition char_toLowerCase (c : ascii) : ascii :=
  if between 65 90 c || (between 192 222 c && negb (code c =? 215))
  then ascii_of_nat (code c + 32)
  else c.

Fixpoint string_map (f : ascii -> ascii) (s : string) : string :=
  match s with
  | EmptyString => EmptyString
  | String c s' => String (f c) (string_map f s')
  end.

Definition toLowerCase (s : string) : string := string_map char_toLowerCase s.

(** [s.replace(/[^a-z0-9\s]/g, ' ')] *)
Definition replace_non_alnum (s : string) : string :=
  string_map
    (fun c => if is_lower_az c || is_digit c || is_whitespace c then c else space)
    s.

(** [s.replace(/\s+/g, ' ')]: every maximal run of whitespace becomes one
    space. [in_run] tells that the previous character was whitespace, so
    the current run has already produced its space. *)
Fixpoint collapse_from (in_run : bool) (s : string) : string :=
  match s with
  | EmptyString => EmptyString
  | String c s' =>
      if is_whitespace c
      then (if in_run then collapse_from true s'
            else String space (collapse_from true s'))
      else String c (collapse_from false s')
  end.

Definition collapse_whitespace (s : string) : string := collapse_from false s.

(** [s.trim()] *)
Fixpoint trimStart (s : string) : string :=
  match s with
  | EmptyString => EmptyString
  | String c s' => if is_whitespace c then trimStart s' else s
  end.

Definition is_empty (s : string) : bool :=
  match s with EmptyString => true | _ => false end.

Fixpoint trimEnd (s : string) : string :=
  match s with
  | EmptyString => EmptyString
  | String c s' =>
      let r := trimEnd s' in
      if is_whitespace c && is_empty r then EmptyString else String c r
  end.

Definition trim (s : string) : string := trimEnd (trimStart s).

(** [s.startsWith(p)] and [s.includes(sub)] *)
Fixpoint startsWith (s p : string) : bool :=
  match p, s with
  | EmptyString, _ => true
  | String _ _, EmptyString => false
  | String a p', String b s' => if ascii_dec a b then startsWith s' p' else false
  end.

Fixpoint includes (s sub : string) : bool :=
  startsWith s sub ||
  match s with
  | EmptyString => false
  | String _ s' => includes s' sub
  end.

(** Truthiness of a string: only the empty string is falsy. *)
Definition truthy (s : string) : bool := negb (is_empty s).

(** Truthiness of a possibly undefined string. *)
Definition truthy_opt (s : option string) : bool :=
  match s with
  | None => false
  | Some s => truthy s
  end.

(** Property names every object literal inherits from [Object.prototype].
    The [in] operator and a property read [obj[key]] see them besides the
    object's own properties. *)
Definition Object_prototype_names : list string :=
  [ "constructor"; "hasOwnProperty"; "isPrototypeOf"; "propertyIsEnumerable";
    "toLocaleString"; "toString"; "valueOf"; "__proto__";
    "__defineGetter__"; "__defineSetter__";
    "__lookupGetter__"; "__lookupSetter__" ].

(** The value of a property read on an object literal whose own
    properties hold strings. *)
Inductive PropValue :=
| OwnValue (v : string)
| InheritedValue (name : string).

Fixpoint own_lookup (key : string) (obj : list (string * string)) : option string :=
  match obj with
  | [] => None
  | (k, v) :: rest => if String.eqb k key then Some v else own_lookup key rest
  end.

Definition inherited (key : string) : bool :=
  existsb (String.eqb key) Object_prototype_names.

(** Truthiness of a property value: inherited members are functions or
    objects, which are truthy. *)
Definition truthy_value (v : PropValue) : bool :=
  match v with
  | OwnValue s => truthy s
  | InheritedValue _ => true
  end.

(** [obj[key]]; [None] is [undefined]. *)
Definition get (obj : list (string * string)) (key : string) : option PropValue :=
  match own_lookup key obj with
  | Some v => Some (OwnValue v)
  | None => if inherited key then Some (InheritedValue key) else None
  end.

(** [key in obj] *)
Definition has_property (key : string) (obj : list (string * string)) : bool :=
  match own_lookup key obj with
  | Some _ => true
  | None => inherited key
  end.

(** [Object.keys(obj)]: the own property names, in insertion order. *)
Definition keys (obj : list (string * string)) : list string := map fst obj.

End JS.

(* ===================================================================== *)
(** * Data model ([types/VideoConfig.ts]) *)
(* ===================================================================== *)

(** JavaScript numbers are IEEE 754 doubles: [float], with its rounding
    arithmetic, its two infinities and its NaN. The components of an
    embedding reach the program as JSON text (a response of the back end,
    a cached session, [localStorage]) and are only ever copied: they are
    finite doubles, each kept as the rational it is equal to. *)
Abbreviation number := Q.

(** The double of a component, with which the program computes: the
    rational itself when it is a double, and otherwise the double
    nearest to it (ties to even), as [JSON.parse] reads a literal. The
    sign of a zero is not kept; the sums of [cosineSimilarity], which
    start from +0, do not depend on it. *)
Definition double_of (q : number) : float :=
  match Qnum q with
  | Z0 => 0%float
  | Zpos n =>
      SF2Prim (SFdiv prec emax (S754_finite false n 0) (S754_finite false (Qden q) 0))
  | Zneg n =>
      SF2Prim (SFdiv prec emax (S754_finite true n 0) (S754_finite false (Qden q) 0))
  end.

(** A video segment: the payload of a node. Optional properties are
    [option]s, [None] standing for [undefined]. *)
Module VideoSegment.
Record t := mk {
  id : string;
  topic : string;
  title : option string;
  voiceoverScript : option string;
  videoUrl : option string;
  thumbnailUrl : option string;
  renderingStatus : option string;
  isQuestionNode : option bool;
  hasQuestion : option bool;
  questionText : option string;
  userAnswer : option string;
  description : option string;
  embedding : option (list number)
}.
End VideoSegment.

Module TreeNode.
Record t := mk {
  id : string;
  segment : VideoSegment.t;
  parentId : option string;
  childIds : list string;
  branchIndex : Z;
  branchLabel : option string
}.
End TreeNode.

Module LearningTree.
Record t := mk {
  nodes : gmap string TreeNode.t;
  rootIds : list string;
  currentNodeId : string
}.

(** [tree.currentNodeId = nodeId] *)
Definition with_currentNodeId (tree : t) (nodeId : string) : t :=
  {| nodes := nodes tree; rootIds := rootIds tree; currentNodeId := nodeId |}.
End LearningTree.

Module LearningContext.
Record t := mk {
  initialTopic : option string;
  historyTopics : list string;
  depth : Z;
  correctnessPattern : list bool;
  preferredStyle : option string;
  voiceId : option string
}.
End LearningContext.

Module VideoSession.
Record t := mk {
  tree : LearningTree.t;
  context : LearningContext.t;
  sessionId : string;
  startedAt : string;
  lastUpdatedAt : string
}.
End VideoSession.

(** The persisted form of a session: the node map is stored as an array
    of [[id, node]] pairs. *)
Module Serialized.
Record tree_t := mk_tree {
  nodes : list (string * TreeNode.t);
  rootIds : list string;
  currentNodeId : string
}.
Record t := mk {
  tree : tree_t;
  context : LearningContext.t;
  sessionId : string;
  startedAt : string;
  lastUpdatedAt : string
}.
End Serialized.

(* ===================================================================== *)
(** * The remote store and promises *)
(* ===================================================================== *)

(** What the modelled code can raise. *)
Inductive Exn :=
  NetworkError | SyntaxError | TypeError | DimensionError | NotFound | CommitFailed.

(** A computation inside a [try] block. *)
Definition Try (A : Type) : Type := Exn + A.

Definition ret {A} (a : A) : Try A := inr a.
Definition throw {A} (e : Exn) : Try A := inl e.
Definition bind {A B} (m : Try A) (k : A -> Try B) : Try B :=
  match m with
  | inl e => inl e
  | inr a => k a
  end.

Infix ">>=" := bind (at level 50, left associativity).

(** The settled state of the promise an [async] function returns. *)
Inductive Completion (A : Type) :=
| Fulfilled (a : A)
| Rejected (e : Exn).
Arguments Fulfilled {A} a.
Arguments Rejected {A} e.

(** [try { body } catch (error) { handler }] *)
Definition try_catch {A} (body : Try A) (handler : Exn -> Completion A) : Completion A :=
  match body with
  | inr a => Fulfilled a
  | inl e => handler e
  end.

(** The body of an HTTP response, as [response.json()] sees it: not JSON
    at all, JSON of another shape (reading [data.tree.nodes], an entry of
    it, [nodeData.segment.embedding] or [rootIds[0]] raises a [TypeError]),
    or a serialized session. *)
Inductive JsonBody :=
| BodyNotJson
| BodyOtherJson
| BodySession (data : Serialized.t).

Inductive FetchOutcome :=
| FetchFailed
| Response (ok : bool) (status : nat) (body : JsonBody).

(** The remote store: what [fetch] answers for each request. *)
Definition Remote := JS.PropValue -> FetchOutcome.

(* ===================================================================== *)
(** * [services/cachedSessionService.ts] *)
(* ===================================================================== *)

Module CachedSession.

Definition CACHED_SESSIONS : list (string * string) :=
  [ ("Binary Search Trees",
     "https://storage.googleapis.com/vid-gen-static/cached/binary-search-trees.json");
    ("Photosynthesis",
     "https://storage.googleapis.com/vid-gen-static/cached/photosynthesis.json");
    ("Pythagoras Theorem",
     "https://storage.googleapis.com/vid-gen-static/cached/pythagoras-theorem.json") ].

(** [topic in CACHED_SESSIONS] *)
Definition hasCachedSession (topic : string) : bool :=
  JS.has_property topic CACHED_SESSIONS.

(** The segment literal [{...nodeData.segment, embedding: ..., description: ...}]. *)
Definition rebuild_segment (seg : VideoSegment.t) : VideoSegment.t :=
  {| VideoSegment.id := VideoSegment.id seg;
     VideoSegment.topic := VideoSegment.topic seg;
     VideoSegment.title := VideoSegment.title seg;
     VideoSegment.voiceoverScript := VideoSegment.voiceoverScript seg;
     VideoSegment.videoUrl := VideoSegment.videoUrl seg;
     VideoSegment.thumbnailUrl := VideoSegment.thumbnailUrl seg;
     VideoSegment.renderingStatus := VideoSegment.renderingStatus seg;
     VideoSegment.isQuestionNode := VideoSegment.isQuestionNode seg;
     VideoSegment.hasQuestion := VideoSegment.hasQuestion seg;
     VideoSegment.questionText := VideoSegment.questionText seg;
     VideoSegment.userAnswer := VideoSegment.userAnswer seg;
     VideoSegment.embedding := VideoSegment.embedding seg;
     VideoSegment.description := VideoSegment.description seg |}.

(** The node literal passed to [nodes.set]. *)
Definition rebuild_node (nodeData : TreeNode.t) : TreeNode.t :=
  {| TreeNode.id := TreeNode.id nodeData;
     TreeNode.segment := rebuild_segment (TreeNode.segment nodeData);
     TreeNode.parentId := TreeNode.parentId nodeData;
     TreeNode.childIds := TreeNode.childIds nodeData;
     TreeNode.branchIndex := TreeNode.branchIndex nodeData;
     TreeNode.branchLabel := TreeNode.branchLabel nodeData |}.

(** The loop [for (const [nodeId, nodeData] of data.tree.nodes) nodes.set(...)],
    run on the map built so far: a later pair replaces an earlier one
    with the same id. *)
Fixpoint set_all (nodes : gmap string TreeNode.t)
    (entries : list (string * TreeNode.t)) : gmap string TreeNode.t :=
  match entries with
  | [] => nodes
  | (nodeId, nodeData) :: rest =>
      set_all (<[nodeId := rebuild_node nodeData]> nodes) rest
  end.

Definition deserialize_tree (t : Serialized.tree_t) : LearningTree.t :=
  {| LearningTree.nodes := set_all ∅ (Serialized.nodes t);
     LearningTree.rootIds := Serialized.rootIds t;
     LearningTree.currentNodeId := Serialized.currentNodeId t |}.

(** [{...data, tree}] *)
Definition deserialize (data : Serialized.t) : VideoSession.t :=
  {| VideoSession.tree := deserialize_tree (Serialized.tree data);
     VideoSession.context := Serialized.context data;
     VideoSession.sessionId := Serialized.sessionId data;
     VideoSession.startedAt := Serialized.startedAt data;
     VideoSession.lastUpdatedAt := Serialized.lastUpdatedAt data |}.

(** [await fetch(sessionPath)] *)
Definition await_fetch (remote : Remote) (sessionPath : JS.PropValue)
  : Try (bool * JsonBody) :=
  match remote sessionPath with
  | FetchFailed => throw NetworkError
  | Response ok _ body => ret (ok, body)
  end.

(** [await response.json()], followed by the reads the reconstruction
    makes on the parsed value. *)
Definition await_json (body : JsonBody) : Try Serialized.t :=
  match body with
  | BodyNotJson => throw SyntaxError
  | BodyOtherJson => throw TypeError
  | BodySession data => ret data
  end.

(** The [try] block of [loadCachedSession]. *)
Definition load_body (remote : Remote) (sessionPath : JS.PropValue)
  : Try (option VideoSession.t) :=
  await_fetch remote sessionPath >>= fun response =>
  if negb (fst response) then ret None
  else
    await_json (snd response) >>= fun data =>
    ret (Some (deserialize data)).

Definition loadCachedSession (remote : Remote) (topic : string)
  : Completion (option VideoSession.t) :=
  match JS.get CACHED_SESSIONS topic with
  | None => Fulfilled None
  | Some sessionPath =>
      if negb (JS.truthy_value sessionPath) then Fulfilled None
      else try_catch (load_body remote sessionPath) (fun _ => Fulfilled None)
  end.

Definition getCachedTopics : list string := JS.keys CACHED_SESSIONS.

Definition normalizeText (text : string) : string :=
  JS.trim (JS.collapse_whitespace (JS.replace_non_alnum (JS.toLowerCase text))).

(** The loop of [matchQuestionToCachedTopic] over the remaining topics. *)
Fixpoint match_topics (normalizedQuestion : string) (topics : list string)
  : option string :=
  match topics with
  | [] => None
  | topic :: rest =>
      let normalizedTopic := normalizeText topic in
      if JS.includes normalizedQuestion normalizedTopic
         || JS.includes normalizedTopic normalizedQuestion
      then Some topic
      else match_topics normalizedQuestion rest
  end.

Definition matchQuestionToCachedTopic (question : string) : option string :=
  let normalizedQuestion := normalizeText question in
  if negb (JS.truthy normalizedQuestion) then None
  else match_topics normalizedQuestion getCachedTopics.

End CachedSession.

(* ===================================================================== *)
(** * [Array.prototype.sort] and [Array.prototype.slice] *)
(* ===================================================================== *)

Module JSArray.

Section Sort.
Context {A : Type}.
(** [before x y] holds when the comparator does not ask for [x] to be
    moved behind [y], that is when [compare(x, y) <= 0]. *)
Variable before : A -> A -> bool.

Fixpoint insert (x : A) (l : list A) : list A :=
  match l with
  | [] => [x]
  | y :: l' => if before x y then x :: y :: l' else y :: insert x l'
  end.

(** [x] may stay in front of [y]. *)
Definition precedes (x y : A) : Prop := before x y = true.

(** The sort is stable: equal elements keep their order. *)
Fixpoint sort (l : list A) : list A :=
  match l with
  | [] => []
  | x :: l' => insert x (sort l')
  end.
End Sort.

(** [l.slice(0, n)] for an integer [n]: a negative [n] counts from the
    end of the array. *)
Definition slice0 {A} (l : list A) (n : Z) : list A :=
  if (n <? 0)%Z
  then take (Z.to_nat (Z.max (Z.of_nat (length l) + n) 0)) l
  else take (Z.to_nat n) l.

End JSArray.

(* ===================================================================== *)
(** * [types/TreeState.ts]: navigation *)
(* ===================================================================== *)

Module TreeState.

(** Modelled from the spec: [types/TreeState.ts] is not among the
    sources. Section 3 of the specification makes [currentNodeId] the key
    of the node being viewed; [getCurrentNode] reads it in the node map. *)
Definition getCurrentNode (tree : LearningTree.t) : option TreeNode.t :=
  LearningTree.nodes tree !! LearningTree.currentNodeId tree.

(** Modelled from the spec: [getAllNodes] of [types/TreeState.ts] is not
    among the sources. It lists the nodes of the tree's [nodes] mapping;
    here each node comes with the key it is stored under, since callers
    update the listed node objects in place. *)
Definition getAllNodes (tree : LearningTree.t) : list (string * TreeNode.t) :=
  map_to_list (LearningTree.nodes tree).

(** The child nodes of [nodeId] in [childIds] order; ids with no node are
    skipped. *)
Definition child_nodes (tree : LearningTree.t) (nodeId : string) : list TreeNode.t :=
  match LearningTree.nodes tree !! nodeId with
  | None => []
  | Some node => omap (fun c => LearningTree.nodes tree !! c) (TreeNode.childIds node)
  end.

Definition branch_before (a b : TreeNode.t) : bool :=
  (TreeNode.branchIndex a <=? TreeNode.branchIndex b)%Z.

(** Modelled from the spec: [getChildren] of [types/TreeState.ts] is not
    among the sources. Section 4.2: "returns child nodes ordered by
    [branchIndex]". *)
Definition getChildren (tree : LearningTree.t) (nodeId : string) : list TreeNode.t :=
  JSArray.sort branch_before (child_nodes tree nodeId).

(** Modelled from the spec: [getNextNode] of [types/TreeState.ts] is not
    among the sources. Section 4.2: "returns the first child (lowest
    [branchIndex]) if any exist, else none". *)
Definition getNextNode (tree : LearningTree.t) (nodeId : string) : option TreeNode.t :=
  head (getChildren tree nodeId).

(** Modelled from the spec: [getPreviousNode] of [types/TreeState.ts] is
    not among the sources. Section 4.2: "returns the parent, or none if
    [nodeId] is a root". *)
Definition getPreviousNode (tree : LearningTree.t) (nodeId : string) : option TreeNode.t :=
  match LearningTree.nodes tree !! nodeId with
  | None => None
  | Some node =>
      match TreeNode.parentId node with
      | None => None
      | Some p => LearningTree.nodes tree !! p
      end
  end.

(** The walk along [parentId] links, collecting the nodes met; [fuel]
    bounds the number of links followed. *)
Fixpoint walk_up (fuel : nat) (tree : LearningTree.t) (nodeId : string)
    (acc : list TreeNode.t) : list TreeNode.t :=
  match fuel with
  | O => acc
  | S fuel' =>
      match LearningTree.nodes tree !! nodeId with
      | None => acc
      | Some node =>
          match TreeNode.parentId node with
          | None => node :: acc
          | Some p => walk_up fuel' tree p (node :: acc)
          end
      end
  end.

(** Modelled from the spec: [getPathFromRoot] of [types/TreeState.ts] is
    not among the sources. Section 4.2: "walks [parentId] links from
    [nodeId] to a root, then reverses -- produces the ordered sequence
    from root to node. Fails with [NotFound] if [nodeId] absent". A path
    in a tree of [n] nodes follows fewer than [n] links. *)
Definition getPathFromRoot (tree : LearningTree.t) (nodeId : string)
  : Try (list TreeNode.t) :=
  match LearningTree.nodes tree !! nodeId with
  | None => throw NotFound
  | Some _ => ret (walk_up (size (LearningTree.nodes tree)) tree nodeId [])
  end.

(** Modelled from the spec: [saveVideoSession] of [types/TreeState.ts] is
    not among the sources. Section 4.5: "serializes the tree's node
    mapping as an ordered sequence of [[id, node]] pairs ... plus
    [rootIds] and [currentNodeId]". *)
Definition serialize_tree (tree : LearningTree.t) : Serialized.tree_t :=
  {| Serialized.nodes := map_to_list (LearningTree.nodes tree);
     Serialized.rootIds := LearningTree.rootIds tree;
     Serialized.currentNodeId := LearningTree.currentNodeId tree |}.

End TreeState.

(* ===================================================================== *)
(** * [HomePage.tsx] (in [pages/GraphPage.tsx]) *)
(* ===================================================================== *)

Module HomePage.

Definition with_tree (session : VideoSession.t) (tree : LearningTree.t) : VideoSession.t :=
  {| VideoSession.tree := tree;
     VideoSession.context := VideoSession.context session;
     VideoSession.sessionId := VideoSession.sessionId session;
     VideoSession.startedAt := VideoSession.startedAt session;
     VideoSession.lastUpdatedAt := VideoSession.lastUpdatedAt session |}.

(** [nodes.has(key)] *)
Definition has (nodes : gmap string TreeNode.t) (key : string) : bool :=
  bool_decide (is_Some (nodes !! key)).

(** [cached.tree.currentNodeId && cached.tree.nodes.has(cached.tree.currentNodeId)] *)
Definition isValidNode (tree : LearningTree.t) : bool :=
  JS.truthy (LearningTree.currentNodeId tree)
  && has (LearningTree.nodes tree) (LearningTree.currentNodeId tree).

(** The effect that loads the stored session on mount. [stored] is what
    [loadVideoSession()] returns; the result is the session handed to
    [setCachedSession], or [None] when the effect leaves the state at
    [null]. The tree's [rootIds] is an array, so [rootIds || []] is
    [rootIds] itself. *)
Definition load_session_effect (stored : option VideoSession.t) : option VideoSession.t :=
  match stored with
  | None => None
  | Some cached =>
      let tree := VideoSession.tree cached in
      if 0 <? size (LearningTree.nodes tree) then
        if negb (isValidNode tree) then
          match LearningTree.rootIds tree with
          | root0 :: _ => Some (with_tree cached (LearningTree.with_currentNodeId tree root0))
          | [] => None
          end
        else Some cached
      else None
  end.

Definition with_voiceId (session : VideoSession.t) (voiceId : string) : VideoSession.t :=
  let c := VideoSession.context session in
  {| VideoSession.tree := VideoSession.tree session;
     VideoSession.context :=
       {| LearningContext.initialTopic := LearningContext.initialTopic c;
          LearningContext.historyTopics := LearningContext.historyTopics c;
          LearningContext.depth := LearningContext.depth c;
          LearningContext.correctnessPattern := LearningContext.correctnessPattern c;
          LearningContext.preferredStyle := LearningContext.preferredStyle c;
          LearningContext.voiceId := Some voiceId |};
     VideoSession.sessionId := VideoSession.sessionId session;
     VideoSession.startedAt := VideoSession.startedAt session;
     VideoSession.lastUpdatedAt := VideoSession.lastUpdatedAt session |}.

(** [voiceId && context.voiceId !== voiceId ? {...session, context: {...context, voiceId}} : session] *)
Definition apply_voice (session : VideoSession.t) (voiceId : option string) : VideoSession.t :=
  match voiceId with
  | Some v =>
      if JS.truthy v
         && negb (bool_decide (LearningContext.voiceId (VideoSession.context session) = Some v))
      then with_voiceId session v
      else session
  | None => session
  end.

(** Where [handleTopicSubmit] ends: with the session already in memory,
    with a session loaded from the cache, or on the generation path with
    a fresh session for [finalTopic]. *)
Inductive Submitted :=
| ResumeExisting (session : VideoSession.t) (finalTopic : string)
| LoadedFromCache (session : VideoSession.t)
| GenerateFresh (finalTopic : string).

Definition cache_key (topic : string) (imageData imageFileName : option string) : string :=
  let hasText := 0 <? String.length (JS.trim topic) in
  let hasImage := JS.truthy_opt imageData in
  let isImageOnly := hasImage && negb hasText in
  match imageFileName with
  | Some name =>
      if isImageOnly && JS.truthy name then name
      else if hasText && hasImage && JS.truthy name then topic +:+ "__" +:+ name
      else topic
  | None => topic
  end.

Definition final_topic (topic : string) (imageData : option string) : string :=
  let hasText := 0 <? String.length (JS.trim topic) in
  let isImageOnly := JS.truthy_opt imageData && negb hasText in
  if hasText then topic else if isImageOnly then "Explain this image" else topic.

(** [existingSession && existingSession.tree.nodes.size > 0] *)
Definition has_nodes (existingSession : option VideoSession.t) : bool :=
  match existingSession with
  | Some existing => 0 <? size (LearningTree.nodes (VideoSession.tree existing))
  | None => false
  end.

(** [handleTopicSubmit]; [existingSession] is [cachedSession ?? loadVideoSession()].
    The model tells where a submission ends: the updates of the React
    state, [saveVideoSession] and [navigate] are left out, and with them
    whatever they may raise; a session has its [context], as
    [VideoSession.t] requires. *)
Definition handleTopicSubmit (remote : Remote) (existingSession : option VideoSession.t)
    (topic : string) (voiceId imageData imageFileName : option string)
  : Completion Submitted :=
  let cacheKey := cache_key topic imageData imageFileName in
  let finalTopic := final_topic topic imageData in
  let generate := Fulfilled (GenerateFresh finalTopic) in
  let from_cache :=
    if CachedSession.hasCachedSession cacheKey then
      match CachedSession.loadCachedSession remote cacheKey with
      | Rejected e => Rejected e
      | Fulfilled (Some cached) => Fulfilled (LoadedFromCache (apply_voice cached voiceId))
      | Fulfilled None => generate
      end
    else generate in
  if has_nodes existingSession then
    match existingSession with
    | Some existing => Fulfilled (ResumeExisting (apply_voice existing voiceId) finalTopic)
    | None => from_cache
    end
  else from_cache.

End HomePage.

(* ===================================================================== *)
(** * [services/searchService.ts] *)
(* ===================================================================== *)

Module Search.

Record SearchResult := mkResult {
  nodeId : string;
  segment : VideoSegment.t;
  similarity : float;
  description : string
}.

(** Replies of the embedding back end, as the three request helpers
    return them: each helper turns a failed request into a reply with
    [success = false], and returns the parsed body of a response as it
    is. A body that is an object reads as a reply; any other body but
    [null] has no properties and reads as a reply with neither
    [success] nor data. *)
Record DescriptionReply := { d_success : bool; d_description : option string }.
Record BatchReply := { b_success : bool; b_embeddings : option (list (list number)) }.
Record TextReply := { t_success : bool; t_embedding : option (list number) }.

(** The back end: the reply to the description request made at loop
    index [i] for a segment, to a batch of texts, and to one text.
    The body may be the JSON value [null], on which the read of
    [success] raises a [TypeError]. For a description reply this is
    [None]: the exception ends the loop of [embedAllNodes] half way.
    For the batch and the text reply the exception is raised inside the
    [try] block that also holds the test of [success], and the [catch]
    gives the failure a reply with [success = false] gives: a [null]
    body is represented by such a reply. *)
Record Backend := {
  generateNodeDescription : nat -> VideoSegment.t -> option DescriptionReply;
  embedBatch : list string -> BatchReply;
  embedText : string -> TextReply
}.

Definition with_segment (node : TreeNode.t) (seg : VideoSegment.t) : TreeNode.t :=
  {| TreeNode.id := TreeNode.id node;
     TreeNode.segment := seg;
     TreeNode.parentId := TreeNode.parentId node;
     TreeNode.childIds := TreeNode.childIds node;
     TreeNode.branchIndex := TreeNode.branchIndex node;
     TreeNode.branchLabel := TreeNode.branchLabel node |}.

(** [node.segment.description = d] *)
Definition set_description (node : TreeNode.t) (d : string) : TreeNode.t :=
  let seg := TreeNode.segment node in
  with_segment node
    {| VideoSegment.id := VideoSegment.id seg;
       VideoSegment.topic := VideoSegment.topic seg;
       VideoSegment.title := VideoSegment.title seg;
       VideoSegment.voiceoverScript := VideoSegment.voiceoverScript seg;
       VideoSegment.videoUrl := VideoSegment.videoUrl seg;
       VideoSegment.thumbnailUrl := VideoSegment.thumbnailUrl seg;
       VideoSegment.renderingStatus := VideoSegment.renderingStatus seg;
       VideoSegment.isQuestionNode := VideoSegment.isQuestionNode seg;
       VideoSegment.hasQuestion := VideoSegment.hasQuestion seg;
       VideoSegment.questionText := VideoSegment.questionText seg;
       VideoSegment.userAnswer := VideoSegment.userAnswer seg;
       VideoSegment.description := Some d;
       VideoSegment.embedding := VideoSegment.embedding seg |}.

(** [node.segment.embedding = e], where [e] may be [undefined] *)
Definition set_embedding (node : TreeNode.t) (e : option (list number)) : TreeNode.t :=
  let seg := TreeNode.segment node in
  with_segment node
    {| VideoSegment.id := VideoSegment.id seg;
       VideoSegment.topic := VideoSegment.topic seg;
       VideoSegment.title := VideoSegment.title seg;
       VideoSegment.voiceoverScript := VideoSegment.voiceoverScript seg;
       VideoSegment.videoUrl := VideoSegment.videoUrl seg;
       VideoSegment.thumbnailUrl := VideoSegment.thumbnailUrl seg;
       VideoSegment.renderingStatus := VideoSegment.renderingStatus seg;
       VideoSegment.isQuestionNode := VideoSegment.isQuestionNode seg;
       VideoSegment.hasQuestion := VideoSegment.hasQuestion seg;
       VideoSegment.questionText := VideoSegment.questionText seg;
       VideoSegment.userAnswer := VideoSegment.userAnswer seg;
       VideoSegment.description := VideoSegment.description seg;
       VideoSegment.embedding := e |}.

(** [a || b] on a possibly undefined string and a string *)
Definition or_else (a : option string) (b : string) : string :=
  match a with
  | Some s => if JS.truthy s then s else b
  | None => b
  end.

(** [!node.segment.embedding]: an array, even an empty one, is truthy. *)
Definition lacks_embedding (node : TreeNode.t) : bool :=
  match VideoSegment.embedding (TreeNode.segment node) with
  | Some _ => false
  | None => true
  end.

(** [!node.segment.description] *)
Definition lacks_description (node : TreeNode.t) : bool :=
  negb (JS.truthy_opt (VideoSegment.description (TreeNode.segment node))).

(** The nodes of the tree are objects shared between the tree and the
    arrays [getAllNodes] returns. An array of nodes is modelled with the
    key of each node, so that an update of a node in the array is an
    update of the tree. The third component marks the members of
    [nodesToEmbed]. *)
Definition Marked : Type := string * TreeNode.t * bool.

Definition mark (allNodes : list (string * TreeNode.t)) : list Marked :=
  map (fun kn => (kn, lacks_embedding (snd kn) || lacks_description (snd kn))) allNodes.

Definition unmark (marked : list Marked) : list (string * TreeNode.t) := map fst marked.

Definition nodesToEmbed (marked : list Marked) : list TreeNode.t :=
  map (fun m => snd (fst m)) (filter (fun m => snd m = true) marked).

(** Step 1 of [embedAllNodes] on the node at loop index [i]. *)
Definition describe (backend : Backend) (i : nat) (node : TreeNode.t) : Try TreeNode.t :=
  if lacks_description node then
    match generateNodeDescription backend i (TreeNode.segment node) with
    | Some result =>
        ret (if d_success result && JS.truthy_opt (d_description result)
             then set_description node (default ""%string (d_description result))
             else set_description node
                    (or_else (VideoSegment.title (TreeNode.segment node))
                             (VideoSegment.topic (TreeNode.segment node))))
    | None => throw TypeError
    end
  else ret node.

(** The loop of step 1 from index [i]: the nodes as the loop leaves
    them, and the exception that ended it, if any. The nodes from the
    one whose reply raised are as they were. *)
Fixpoint describe_all (backend : Backend) (i : nat) (marked : list Marked)
  : list Marked * option Exn :=
  match marked with
  | [] => ([], None)
  | (k, node, true) :: rest =>
      match describe backend i node with
      | inr node' =>
          let r := describe_all backend (S i) rest in
          ((k, node', true) :: fst r, snd r)
      | inl e => (marked, Some e)
      end
  | (k, node, false) :: rest =>
      let r := describe_all backend i rest in
      ((k, node, false) :: fst r, snd r)
  end.

(** Step 3: [nodesToEmbed[i].segment.embedding = embedResult.embeddings[i]] *)
Fixpoint attach_all (embeddings : list (list number)) (i : nat) (marked : list Marked) : list Marked :=
  match marked with
  | [] => []
  | (k, node, true) :: rest =>
      (k, set_embedding node (embeddings !! i), true) :: attach_all embeddings (S i) rest
  | (k, node, false) :: rest => (k, node, false) :: attach_all embeddings i rest
  end.

(** [embedAllNodes]: whether it succeeded, and the nodes as it leaves
    them. An exception of step 1 is caught at the end of the function:
    no batch request is made. *)
Definition embedAllNodes (backend : Backend) (allNodes : list (string * TreeNode.t))
  : bool * list (string * TreeNode.t) :=
  let marked := mark allNodes in
  if length (nodesToEmbed marked) =? 0 then (true, allNodes)
  else
    let described := describe_all backend 0 marked in
    match snd described with
    | Some _ => (false, unmark (fst described))
    | None =>
        let descriptions :=
          map (fun node => or_else (VideoSegment.description (TreeNode.segment node))
                                   (VideoSegment.topic (TreeNode.segment node)))
              (nodesToEmbed (fst described)) in
        let embedResult := embedBatch backend descriptions in
        match b_embeddings embedResult with
        | Some embeddings =>
            if b_success embedResult
            then (true, unmark (attach_all embeddings 0 (fst described)))
            else (false, unmark (fst described))
        | None => (false, unmark (fst described))
        end
    end.

(** The loop of [cosineSimilarity]: [dotProduct += a[i] * b[i]] in the
    arithmetic of doubles. *)
Fixpoint dot_from (dotProduct : float) (a b : list number) : float :=
  match a, b with
  | x :: a', y :: b' => dot_from (dotProduct + double_of x * double_of y)%float a' b'
  | _, _ => dotProduct
  end.

Definition cosineSimilarity (a b : list number) : Try float :=
  if negb (length a =? length b) then throw DimensionError
  else ret (dot_from 0%float a b).

(** The loop of [searchNodes] that fills [results]. *)
Fixpoint collect (queryEmbedding : list number) (allNodes : list (string * TreeNode.t))
    (results : list SearchResult) : Try (list SearchResult) :=
  match allNodes with
  | [] => ret results
  | (_, node) :: rest =>
      match VideoSegment.embedding (TreeNode.segment node) with
      | None => collect queryEmbedding rest results
      | Some e =>
          cosineSimilarity queryEmbedding e >>= fun sim =>
          let seg := TreeNode.segment node in
          collect queryEmbedding rest
            (results ++
             [ {| nodeId := TreeNode.id node;
                  segment := seg;
                  similarity := sim;
                  description :=
                    or_else (VideoSegment.description seg)
                      (or_else (VideoSegment.title seg) (VideoSegment.topic seg)) |} ])
      end
  end.

(** The comparator [(a, b) => b.similarity - a.similarity] asks to move
    [a] behind [b] when its value is greater than 0; [sort] reads a
    value of NaN as 0. When the comparator is not consistent on the
    array (as it can be when a similarity is NaN), the order [sort]
    produces is left to the engine; the model then gives the order of
    the stable insertion sort [JSArray.sort]. *)
Definition by_similarity (a b : SearchResult) : bool :=
  negb (0 <? similarity b - similarity a)%float.

Record SearchReply := { success : bool; results : option (list SearchResult) }.

Definition failure : SearchReply := {| success := false; results := None |}.

Definition with_nodes (tree : LearningTree.t) (nodes : gmap string TreeNode.t) : LearningTree.t :=
  {| LearningTree.nodes := nodes;
     LearningTree.rootIds := LearningTree.rootIds tree;
     LearningTree.currentNodeId := LearningTree.currentNodeId tree |}.

(** [searchNodes]: the reply, and the tree with the descriptions and
    embeddings attached on the way. [topK] is an integer, as at every
    call. *)
Definition searchNodes (backend : Backend) (query : string) (tree : LearningTree.t)
    (topK : Z) : SearchReply * LearningTree.t :=
  let allNodes := TreeState.getAllNodes tree in
  let nodesWithoutEmbeddings := filter (fun kn => lacks_embedding (snd kn) = true) allNodes in
  let embedded :=
    if 0 <? length nodesWithoutEmbeddings
    then embedAllNodes backend allNodes
    else (true, allNodes) in
  let allNodes := snd embedded in
  let tree := with_nodes tree (list_to_map allNodes) in
  if negb (fst embedded) then (failure, tree)
  else
    let queryEmbedResult := embedText backend query in
    match t_embedding queryEmbedResult with
    | Some queryEmbedding =>
        if t_success queryEmbedResult then
          match collect queryEmbedding allNodes [] with
          | inr results =>
              let topResults := JSArray.slice0 (JSArray.sort by_similarity results) topK in
              ({| success := true; results := Some topResults |}, tree)
          | inl _ => (failure, tree)
          end
        else (failure, tree)
    | None => (failure, tree)
    end.

End Search.

(* ===================================================================== *)
(** * [components/NodeCarousel.tsx] *)
(* ===================================================================== *)

Module NodeCarousel.

(** The callback of [carouselNodes.filter], with the set [seen] it
    updates. *)
Fixpoint filter_unseen (seen : gset string) (carouselNodes : list TreeNode.t)
  : list TreeNode.t :=
  match carouselNodes with
  | [] => []
  | node :: rest =>
      if bool_decide (TreeNode.id node ∈ seen) then filter_unseen seen rest
      else node :: filter_unseen ({[TreeNode.id node]} ∪ seen) rest
  end.

Section Carousel.
(** The helpers imported from [types/TreeState.ts]. *)
Variable getCurrentNode : LearningTree.t -> option TreeNode.t.
Variable getPathFromRoot : LearningTree.t -> string -> Try (list TreeNode.t).
Variable getChildren : LearningTree.t -> string -> list TreeNode.t.

Definition getCarouselNodes (tree : LearningTree.t) : Try (list TreeNode.t) :=
  match getCurrentNode tree with
  | None => ret []
  | Some currentNode =>
      getPathFromRoot tree (TreeNode.id currentNode) >>= fun pathNodes =>
      let children := getChildren tree (TreeNode.id currentNode) in
      let carouselNodes := pathNodes ++ children in
      ret (filter_unseen ∅ carouselNodes)
  end.
End Carousel.

(** The first occurrence of each id, in order. *)
Fixpoint first_occurrences (l : list TreeNode.t) : list TreeNode.t :=
  match l with
  | [] => []
  | node :: rest =>
      node :: filter (fun n => TreeNode.id n ≠ TreeNode.id node) (first_occurrences rest)
  end.

End NodeCarousel.

(* ===================================================================== *)
(** * Generation jobs *)
(* ===================================================================== *)

Module Orchestrator.

(** Modelled from the spec: the orchestrator ([controllers/VideoController.tsx])
    is not among the sources. Section 3, Generation Job: its [kind], the
    [targetParentId] where results attach, the [prompt], the [status]
    ([pending -> generating -> completed | failed]), [createdAt] and the
    [resultNodeIds] populated on success. *)
Inductive JobKind :=
  InitialTopic | NewTopic | QuestionBranch | QuizRemediation | ClosingReflection.

Inductive JobStatus := Pending | Generating | Completed | Failed.

Record Job := mkJob {
  kind : JobKind;
  targetParentId : option string;
  prompt : string;
  status : JobStatus;
  createdAt : Z;
  resultNodeIds : list string
}.

(** The Tree Store, the jobs by id, and the active-jobs list. *)
Record State := mkState {
  tree : LearningTree.t;
  jobs : gmap string Job;
  active : list string
}.

(** What happens to the orchestrator, each event naming its job. *)
Inductive Event :=
| Submit (job : string) (k : JobKind) (target : option string) (text : string) (now : Z)
| Dispatch (job : string)
| Progress (job : string) (stage : string) (percent : Z)
| Finished (job : string) (segments : list VideoSegment.t)
| ServiceError (job : string) (reason : string)
| TimedOut (job : string)
| Cancel (job : string)
| Dismiss (job : string).

Definition job_of (e : Event) : string :=
  match e with
  | Submit j _ _ _ _ | Dispatch j | Progress j _ _ | Finished j _
  | ServiceError j _ | TimedOut j | Cancel j | Dismiss j => j
  end.

(** The event that brings the result of a job, the only one on which
    nodes are committed. *)
Definition delivers (e : Event) : bool :=
  match e with
  | Finished _ _ => true
  | _ => false
  end.

Definition with_status (j : Job) (st : JobStatus) (ids : list string) : Job :=
  {| kind := kind j; targetParentId := targetParentId j; prompt := prompt j;
     status := st; createdAt := createdAt j; resultNodeIds := ids |}.

Definition is_terminal (st : JobStatus) : bool :=
  match st with
  | Completed | Failed => true
  | Pending | Generating => false
  end.

(** Job [j] has completed. *)
Definition completed (j : string) (s : State) : Prop :=
  exists job, jobs s !! j = Some job /\ status job = Completed.

(** Two states agree off [j] when they have the same tree and the same
    jobs other than [j]. *)
Definition agree_off (j : string) (s1 s2 : State) : Prop :=
  tree s1 = tree s2 /\ forall j', j' <> j -> jobs s1 !! j' = jobs s2 !! j'.

(** A job that is not completed has no result nodes. *)
Definition clean (j : string) (s : State) : Prop :=
  forall job, jobs s !! j = Some job -> status job <> Completed -> resultNodeIds job = [].

Section Store.
(** The allocation of node ids and the validation of a job's result are
    not fixed by the specification; the model takes both as given. *)
Variable fresh_id : gmap string TreeNode.t -> string.
Variable acceptable : list VideoSegment.t -> bool.

Definition new_node (nodeId : string) (seg : VideoSegment.t)
    (parent : option string) (index : Z) : TreeNode.t :=
  {| TreeNode.id := nodeId; TreeNode.segment := seg; TreeNode.parentId := parent;
     TreeNode.childIds := []; TreeNode.branchIndex := index;
     TreeNode.branchLabel := None |}.

(** Modelled from the spec: the Tree Store is not among the sources.
    Section 4.1, [createRoot]: "inserts a node with no parent, appends to
    [rootIds]". *)
Definition createRoot (t : LearningTree.t) (seg : VideoSegment.t)
  : LearningTree.t * string :=
  let nodeId := fresh_id (LearningTree.nodes t) in
  ({| LearningTree.nodes := <[nodeId := new_node nodeId seg None 0]> (LearningTree.nodes t);
      LearningTree.rootIds := LearningTree.rootIds t ++ [nodeId];
      LearningTree.currentNodeId := LearningTree.currentNodeId t |}, nodeId).

(** Modelled from the spec: the Tree Store is not among the sources.
    Section 4.1, [appendChild]: "fails with [NotFound] if [parentId] is
    absent; assigns [branchIndex = len(parent.childIds)]; appends
    atomically". *)
Definition appendChild (t : LearningTree.t) (parentId : string) (seg : VideoSegment.t)
  : Try (LearningTree.t * string) :=
  match LearningTree.nodes t !! parentId with
  | None => throw NotFound
  | Some parent =>
      let nodeId := fresh_id (LearningTree.nodes t) in
      let index := Z.of_nat (length (TreeNode.childIds parent)) in
      let parent' :=
        {| TreeNode.id := TreeNode.id parent; TreeNode.segment := TreeNode.segment parent;
           TreeNode.parentId := TreeNode.parentId parent;
           TreeNode.childIds := TreeNode.childIds parent ++ [nodeId];
           TreeNode.branchIndex := TreeNode.branchIndex parent;
           TreeNode.branchLabel := TreeNode.branchLabel parent |} in
      ret ({| LearningTree.nodes :=
                <[nodeId := new_node nodeId seg (Some parentId) index]>
                  (<[parentId := parent']> (LearningTree.nodes t));
              LearningTree.rootIds := LearningTree.rootIds t;
              LearningTree.currentNodeId := LearningTree.currentNodeId t |}, nodeId)
  end.

(** The linear chain of a job's segments: the first attaches to the
    target (or becomes a root), each next one to the one before it. *)
Fixpoint insert_chain (t : LearningTree.t) (parent : option string)
    (segments : list VideoSegment.t) : Try (LearningTree.t * list string) :=
  match segments with
  | [] => ret (t, [])
  | seg :: rest =>
      (match parent with
       | None => ret (createRoot t seg)
       | Some p => appendChild t p seg
       end) >>= fun first =>
      insert_chain (fst first) (Some (snd first)) rest >>= fun others =>
      ret (fst others, snd first :: snd others)
  end.

(** Modelled from the spec: the commit step is not among the sources.
    Section 4.1: "either all N nodes and their links become visible
    together, or -- on failure partway -- none do"; section 7,
    [CommitFailed]: the job's result would violate an invariant. The
    result is the whole new tree or an exception, never a partial tree. *)
Definition commit (t : LearningTree.t) (target : option string)
    (segments : list VideoSegment.t) : Try (LearningTree.t * list string) :=
  if acceptable segments then insert_chain t target segments
  else throw CommitFailed.

Definition set_job (s : State) (j : string) (job : Job) : State :=
  {| tree := tree s; jobs := <[j := job]> (jobs s); active := active s |}.

Definition retire (s : State) (j : string) : State :=
  {| tree := tree s; jobs := jobs s;
     active := filter (fun a => a ≠ j) (active s) |}.

(** A job that is not yet terminal becomes [failed]; the tree is not
    touched. *)
Definition fail (s : State) (j : string) : State :=
  match jobs s !! j with
  | Some job =>
      if is_terminal (status job) then s
      else retire (set_job s j (with_status job Failed [])) j
  | None => s
  end.

(** On the first chain of a session the current node becomes the first
    new node. *)
Definition focus (k : JobKind) (t : LearningTree.t) (ids : list string) : LearningTree.t :=
  match k, ids with
  | InitialTopic, first :: _ => LearningTree.with_currentNodeId t first
  | _, _ => t
  end.

(** Modelled from the spec: the orchestrator ([VideoController.tsx]) is
    not among the sources. Section 4.4: a job goes
    [pending -> generating -> {completed, failed}]; progress events do
    not mutate the Tree Store; [completed] occurs only after a successful
    atomic commit; [failed] occurs on any error from the external
    service, on a commit failure, or on an explicit cancellation.
    Section 5: dismissing a job only removes it from the active list. *)
Definition step (s : State) (e : Event) : State :=
  match e with
  | Submit j k target text now =>
      match jobs s !! j with
      | Some _ => s
      | None =>
          {| tree := tree s;
             jobs := <[j := mkJob k target text Pending now []]> (jobs s);
             active := active s ++ [j] |}
      end
  | Dispatch j =>
      match jobs s !! j with
      | Some job =>
          match status job with
          | Pending => set_job s j (with_status job Generating [])
          | _ => s
          end
      | None => s
      end
  | Progress _ _ _ => s
  | Finished j segments =>
      match jobs s !! j with
      | Some job =>
          match status job with
          | Generating =>
              match commit (tree s) (targetParentId job) segments with
              | inr (t', ids) =>
                  {| tree := focus (kind job) t' ids;
                     jobs := <[j := with_status job Completed ids]> (jobs s);
                     active := filter (fun a => a ≠ j) (active s) |}
              | inl _ => fail s j
              end
          | _ => s
          end
      | None => s
      end
  | ServiceError j _ | TimedOut j | Cancel j => fail s j
  | Dismiss j => retire s j
  end.

Definition run (s : State) (events : list Event) : State := fold_left step events s.

(** The history without the events of job [j]. *)
Definition without (j : string) (events : list Event) : list Event :=
  filter (fun e => job_of e ≠ j) events.

End Store.

End Orchestrator.

(* ===================================================================== *)
(** * [components/LandingPage.tsx] *)
(* ===================================================================== *)

Module LandingPage.

(** The arguments [onSubmit] is called with. *)
Record Submission := {
  topic : string;
  voiceId : option string;
  imageData : option string;
  imageFileName : option string
}.


(** [x || undefined] on a string or [null] *)
Definition or_undefined (x : option string) : option string :=
  match x with
  | Some s => if JS.truthy s then Some s else None
  | None => None
  end.

(** [handleSubmit], for the text [topic] of the input, the voice
    selected and the image of the upload hook: the call of [onSubmit] it
    makes, if any. *)
Definition handleSubmit (topic selectedVoice : string) (imageData fileName : option string)
  : option Submission :=
  if negb (JS.truthy (JS.trim topic)) && negb (JS.truthy_opt imageData) then None
  else Some {| topic := JS.trim topic;
               voiceId := Some selectedVoice;
               imageData := or_undefined imageData;
               imageFileName := or_undefined fileName |}.




End LandingPage.

(* ===================================================================== *)
(** * [services/searchService.ts]: embeddings in [localStorage] *)
(* ===================================================================== *)

Module EmbeddingStorage.
Import Search.

(** An entry [{description, embedding}] of the stored record; a field
    that is [undefined] is left out of the JSON text. *)
Record Entry := { e_description : option string; e_embedding : option (list number) }.

(** What [localStorage] holds under a key, as far as
    [loadEmbeddingsFromStorage] can tell: a text that [JSON.parse]
    rejects, or the JSON text of a record of entries with its own
    properties, as [saveEmbeddingsToStorage] writes it. Other JSON
    values are outside this model. *)
Inductive Item :=
| NotJson
| Stored (embeddings : gmap string Entry).

Abbreviation Storage := (gmap string Item).

(** [`node_embeddings_${sessionId}`] *)
Definition storage_key (sessionId : string) : string := "node_embeddings_" +:+ sessionId.







(** The body of the loop of [loadEmbeddingsFromStorage]. A name that is
    not an own property of the record reads as [undefined], or as a
    member of [Object.prototype], which has neither a [description] nor
    an [embedding]. *)
Definition restore (embeddings : gmap string Entry) (node : TreeNode.t) : TreeNode.t :=
  match embeddings !! TreeNode.id node with
  | Some nodeData =>
      let described :=
        match e_description nodeData with
        | Some d => if JS.truthy d then set_description node d else node
        | None => node
        end in
      match e_embedding nodeData with
      | Some e => set_embedding described (Some e)
      | None => described
      end
  | None => node
  end.

(** [loadEmbeddingsFromStorage]: the tree with the stored descriptions
    and embeddings written to its nodes. *)
Definition loadEmbeddingsFromStorage (storage : Storage) (sessionId : string)
    (tree : LearningTree.t) : LearningTree.t :=
  match storage !! storage_key sessionId with
  | None => tree
  | Some NotJson => tree
  | Some (Stored embeddings) =>
      with_nodes tree (restore embeddings <$> LearningTree.nodes tree)
  end.

End EmbeddingStorage.

(* ===================================================================== *)
(** * [services/searchService.ts]: the requests *)
(* ===================================================================== *)

Module Requests.
Import Search.

(** What a request comes to: [fetch] rejects, the response is not ok,
    the body is not JSON, or the body parses to [data]. *)
Inductive Outcome (A : Type) :=
| Unreachable
| HttpError (status : nat)
| Malformed
| Parsed (data : A).
Arguments Unreachable {A}.
Arguments HttpError {A} status.
Arguments Malformed {A}.
Arguments Parsed {A} data.

(** The body shared by [generateNodeDescription], [embedText] and
    [embedBatch]: the parsed body is returned as it is, and every
    exception ends in the reply [{success: false, error}]. *)
Definition request {A} (failed : A) (outcome : Outcome A) : A :=
  match outcome with
  | Parsed data => data
  | Unreachable | HttpError _ | Malformed => failed
  end.

(** The three endpoints. The parsed body of a description response may
    be [null]; for the other two a [null] body is represented as in
    [Backend]. *)
Record Service := {
  description_endpoint : nat -> VideoSegment.t -> Outcome (option DescriptionReply);
  batch_endpoint : list string -> Outcome BatchReply;
  text_endpoint : string -> Outcome TextReply
}.

Definition backend_of (service : Service) : Backend :=
  {| generateNodeDescription := fun i seg =>
       request (Some {| d_success := false; d_description := None |})
               (description_endpoint service i seg);
     embedBatch := fun texts =>
       request {| b_success := false; b_embeddings := None |} (batch_endpoint service texts);
     embedText := fun text =>
       request {| t_success := false; t_embedding := None |} (text_endpoint service text) |}.

End Requests.

(* ===================================================================== *)
(** * [components/SearchBar.tsx] and [components/TreeExplorer.tsx]: the searches *)
(* ===================================================================== *)

Module SearchViews.
Import Search.




End SearchViews.

(* ===================================================================== *)
(** * [components/TreeExplorer.tsx]: the layout *)
(* ===================================================================== *)

Module TreeExplorer.

(** A number of the layout: an exact rational, an infinity or NaN. *)
Inductive Number :=
| Fin (q : Q)
| PosInf
| NegInf
| NaN.

(** [a + b] *)
Definition add (a b : Number) : Number :=
  match a, b with
  | NaN, _ | _, NaN => NaN
  | Fin p, Fin q => Fin (p + q)
  | PosInf, NegInf | NegInf, PosInf => NaN
  | PosInf, _ | _, PosInf => PosInf
  | NegInf, _ | _, NegInf => NegInf
  end.

(** [Math.abs(a)] *)
Definition abs (a : Number) : Number :=
  match a with
  | Fin q => Fin (Qabs q)
  | PosInf | NegInf => PosInf
  | NaN => NaN
  end.

(** [Math.min(a, b)] *)
Definition min (a b : Number) : Number :=
  match a, b with
  | NaN, _ | _, NaN => NaN
  | NegInf, _ | _, NegInf => NegInf
  | PosInf, c | c, PosInf => c
  | Fin p, Fin q => Fin (if Qle_bool p q then p else q)
  end.

(** [Math.max(a, b)] *)
Definition max (a b : Number) : Number :=
  match a, b with
  | NaN, _ | _, NaN => NaN
  | PosInf, _ | _, PosInf => PosInf
  | NegInf, c | c, NegInf => c
  | Fin p, Fin q => Fin (if Qle_bool p q then q else p)
  end.

Record Position := { x : Number; y : Number }.

Record Bounds := { minX : Number; maxX : Number; minY : Number; maxY : Number }.

(** The body of the loop of [calculateTreeBounds]. *)
Definition extend (positions : gmap string Position) (bounds : Bounds) (nodeId : string)
  : Bounds :=
  match positions !! nodeId with
  | Some pos =>
      {| minX := min (minX bounds) (x pos); maxX := max (maxX bounds) (x pos);
         minY := min (minY bounds) (y pos); maxY := max (maxY bounds) (y pos) |}
  | None => bounds
  end.

Definition calculateTreeBounds (positions : gmap string Position) (nodeIds : list string)
  : Bounds :=
  if length nodeIds =? 0
  then {| minX := Fin 0; maxX := Fin 0; minY := Fin 0; maxY := Fin 0 |}
  else fold_left (extend positions) nodeIds
         {| minX := PosInf; maxX := NegInf; minY := PosInf; maxY := NegInf |}.

(** [array.forEach((item, index) => ...)] for a callback that updates a
    state [A] and may throw. *)
Section ForEach.
Context {A B : Type}.
Variable callback : nat -> B -> A -> option A.

Fixpoint forEach_from (index : nat) (items : list B) (state : A) : option A :=
  match items with
  | [] => Some state
  | item :: rest =>
      match callback index item state with
      | Some state' => forEach_from (S index) rest state'
      | None => None
      end
  end.

Definition forEach (items : list B) (state : A) : option A := forEach_from 0 items state.
End ForEach.

(** The recursive [traverse] of [getNodesInTree], with the array
    [nodeIds] it pushes to. [stack] is the number of nested calls the
    engine's stack has room for; [None] is the [RangeError] of a stack
    that overflows, as it does on a cycle of [childIds]. *)
Fixpoint traverse_ids (stack : nat) (tree : LearningTree.t) (nodeId : string)
    (nodeIds : list string) : option (list string) :=
  match stack with
  | O => None
  | S stack' =>
      let nodeIds := nodeIds ++ [nodeId] in
      match LearningTree.nodes tree !! nodeId with
      | Some node =>
          forEach (fun _ childId => traverse_ids stack' tree childId)
                  (TreeNode.childIds node) nodeIds
      | None => Some nodeIds
      end
  end.

Definition getNodesInTree (stack : nat) (tree : LearningTree.t) (rootId : string)
  : option (list string) :=
  traverse_ids stack tree rootId [].

Definition verticalSpacing : Q := 200 # 1.
Definition horizontalSpacing : Q := 280 # 1.
Definition treeClearance : Q := 400 # 1.

(** [(childIndex - (totalSiblings - 1) / 2) * verticalSpacing + parentY] *)
Definition localOffset (childIndex totalSiblings : nat) (parentY : Q) : Q :=
  (inject_Z (Z.of_nat childIndex) - (inject_Z (Z.of_nat totalSiblings) - 1) / (2 # 1))
  * verticalSpacing + parentY.

(** The position [traverse] gives a node. *)
Definition position_at (offsetX offsetY : Number) (level : nat) (localOffsetY : Q) : Position :=
  {| x := add (Fin (inject_Z (Z.of_nat level) * horizontalSpacing)) offsetX;
     y := add (Fin localOffsetY) offsetY |}.

(** The recursive [traverse] of [traverseTree]. (The map [levelWidth] is
    written and never read.) *)
Fixpoint traverse (stack : nat) (tree : LearningTree.t) (offsetX offsetY : Number)
    (nodeId : string) (level : nat) (parentY : Q) (childIndex totalSiblings : nat)
    (targetMap : gmap string Position) : option (gmap string Position) :=
  match stack with
  | O => None
  | S stack' =>
      let localOffsetY := localOffset childIndex totalSiblings parentY in
      let targetMap :=
        <[nodeId := position_at offsetX offsetY level localOffsetY]> targetMap in
      match LearningTree.nodes tree !! nodeId with
      | Some node =>
          forEach (fun index childId =>
                     traverse stack' tree offsetX offsetY childId (S level) localOffsetY
                              index (length (TreeNode.childIds node)))
                  (TreeNode.childIds node) targetMap
      | None => Some targetMap
      end
  end.

Definition traverseTree (stack : nat) (tree : LearningTree.t) (rootId : string)
    (offsetX offsetY : Number) (targetMap : gmap string Position)
  : option (gmap string Position) :=
  traverse stack tree offsetX offsetY rootId 0 0 0 1 targetMap.

(** [Array.from(positions.keys())] *)
Definition keys (positions : gmap string Position) : list string :=
  (map_to_list positions).*1.

(** The body of the loop of [calculateTreeLayout] over the roots after
    the first. *)
Definition place_root (stack : nat) (tree : LearningTree.t)
    (positions : gmap string Position) (rootId : string) : option (gmap string Position) :=
  match traverseTree stack tree rootId (Fin 0) (Fin 0) ∅ with
  | None => None
  | Some tempPositions =>
      match getNodesInTree stack tree rootId with
      | None => None
      | Some treeNodes =>
          let treeBounds := calculateTreeBounds tempPositions treeNodes in
          let existingNodeIds := keys positions in
          let safeY :=
            if 0 <? length existingNodeIds
            then
              let existingBounds := calculateTreeBounds positions existingNodeIds in
              add (add (maxY existingBounds) (Fin treeClearance)) (abs (minY treeBounds))
            else Fin 0 in
          traverseTree stack tree rootId (Fin 0) safeY positions
      end
  end.

Fixpoint place_roots (stack : nat) (tree : LearningTree.t) (rootIds : list string)
    (positions : gmap string Position) : option (gmap string Position) :=
  match rootIds with
  | [] => Some positions
  | rootId :: rest =>
      match place_root stack tree positions rootId with
      | Some positions' => place_roots stack tree rest positions'
      | None => None
      end
  end.

Definition calculateTreeLayout (stack : nat) (tree : LearningTree.t)
  : option (gmap string Position) :=
  match LearningTree.rootIds tree with
  | [] => Some ∅
  | root0 :: rest =>
      match traverseTree stack tree root0 (Fin 0) (Fin 0) ∅ with
      | Some positions => place_roots stack tree rest positions
      | None => None
      end
  end.

End TreeExplorer.

(* ===================================================================== *)
(** * Vocabulary of the properties *)
(* ===================================================================== *)

Module JSSpec.
Import JS.

(** [s] contains [sub] as a substring. *)
Definition contains (s sub : string) : Prop :=
  exists pre post, s = pre +:+ sub +:+ post.

(** The shape of a normalized text: only [a-z], [0-9] and single spaces,
    none of them leading or trailing. *)
Definition is_space (c : ascii) : bool := Ascii.eqb c space.

Definition plain (c : ascii) : bool := is_lower_az c || is_digit c || is_space c.

Fixpoint all_chars (p : ascii -> bool) (s : string) : bool :=
  match s with
  | EmptyString => true
  | String c s' => p c && all_chars p s'
  end.

Definition starts_with_space (s : string) : bool :=
  match s with
  | String c _ => is_space c
  | EmptyString => false
  end.

Fixpoint ends_with_space (s : string) : bool :=
  match s with
  | EmptyString => false
  | String c EmptyString => is_space c
  | String _ s' => ends_with_space s'
  end.

Fixpoint no_double_space (s : string) : bool :=
  match s with
  | EmptyString => true
  | String c s' => negb (is_space c && starts_with_space s') && no_double_space s'
  end.

Definition normalized (s : string) : bool :=
  all_chars plain s && no_double_space s
  && negb (starts_with_space s) && negb (ends_with_space s).

Definition kept (c : ascii) : bool := is_lower_az c || is_digit c || is_whitespace c.

(** Normalization as the specification words it (lowercase, strip
    non-alphanumerics, collapse whitespace): the words of the text, that
    is its maximal runs of the letters [A-Z], [a-z] and of digits, each
    letter in lower case, with one space between two words. *)
Definition in_range (first last : ascii) (c : ascii) : bool :=
  (nat_of_ascii first <=? nat_of_ascii c) && (nat_of_ascii c <=? nat_of_ascii last).

Definition alphanumeric (c : ascii) : bool :=
  in_range "A" "Z" c || in_range "a" "z" c || in_range "0" "9" c.

(** The letters [A-Z] are 32 code points below [a-z]. *)
Definition lower_case (c : ascii) : ascii :=
  if in_range "A" "Z" c then ascii_of_nat (nat_of_ascii c + 32) else c.

(** The words of [s], the first of them continuing [word]. *)
Fixpoint words_from (word : string) (s : string) : list string :=
  match s with
  | EmptyString =>
      match word with
      | EmptyString => []
      | _ => [word]
      end
  | String c s' =>
      if alphanumeric c then words_from (word +:+ String (lower_case c) EmptyString) s'
      else match word with
           | EmptyString => words_from EmptyString s'
           | _ => word :: words_from EmptyString s'
           end
  end.

Definition words (s : string) : list string := words_from EmptyString s.

Definition normal_form (s : string) : string := String.concat " " (words s).

(** [question] and [topic] are related when one normalized text contains
    the other. *)
Definition related (normalizedQuestion normalizedTopic : string) : Prop :=
  contains normalizedQuestion normalizedTopic
  \/ contains normalizedTopic normalizedQuestion.

End JSSpec.

Module TreeSpec.

(** The structural invariants of a tree (section 3 of the
    specification), nodes being named by their key in the node map. *)
Definition children_exist (t : LearningTree.t) : Prop :=
  forall k node c,
    LearningTree.nodes t !! k = Some node -> c ∈ TreeNode.childIds node ->
    is_Some (LearningTree.nodes t !! c).

Definition once_in_parent (t : LearningTree.t) : Prop :=
  forall k node p,
    LearningTree.nodes t !! k = Some node -> TreeNode.parentId node = Some p ->
    exists parent, LearningTree.nodes t !! p = Some parent
      /\ count_occ string_dec (TreeNode.childIds parent) k = 1.

Definition roots_exact (t : LearningTree.t) : Prop :=
  forall k, k ∈ LearningTree.rootIds t <->
    exists node, LearningTree.nodes t !! k = Some node /\ TreeNode.parentId node = None.

Definition current_exists (t : LearningTree.t) : Prop :=
  is_Some (LearningTree.nodes t !! LearningTree.currentNodeId t).

Definition tree_invariants (t : LearningTree.t) : Prop :=
  children_exist t /\ once_in_parent t /\ roots_exact t /\ current_exists t.

(** The same invariants read on the serialized form, whose ids are the
    first components of the [nodes] array. *)
Definition serialized_invariants (t : Serialized.tree_t) : Prop :=
  let entries := Serialized.nodes t in
  NoDup entries.*1
  /\ (forall k node c, (k, node) ∈ entries -> c ∈ TreeNode.childIds node -> c ∈ entries.*1)
  /\ (forall k node p, (k, node) ∈ entries -> TreeNode.parentId node = Some p ->
        exists parent, (p, parent) ∈ entries
          /\ count_occ string_dec (TreeNode.childIds parent) k = 1)
  /\ (forall k, k ∈ Serialized.rootIds t <->
        exists node, (k, node) ∈ entries /\ TreeNode.parentId node = None)
  /\ Serialized.currentNodeId t ∈ entries.*1.

(** The links of a tree (section 3 of the specification): a node is
    stored under its own id, every entry of [childIds] is a node owned by
    this parent, and a [parentId] refers to a node. *)
Definition well_formed (tree : LearningTree.t) : Prop :=
  let nodes := LearningTree.nodes tree in
  (forall k node, nodes !! k = Some node -> TreeNode.id node = k)
  /\ (forall k node c, nodes !! k = Some node -> c ∈ TreeNode.childIds node ->
        exists child, nodes !! c = Some child /\ TreeNode.parentId child = Some k)
  /\ (forall k node p, nodes !! k = Some node -> TreeNode.parentId node = Some p ->
        is_Some (nodes !! p)).

End TreeSpec.

Module CacheKeySpec.

(** [key] is some non-empty text, two underscores and some non-empty
    text. *)
Fixpoint splittable (key : string) : bool :=
  match key with
  | EmptyString => false
  | String _ rest =>
      (JS.startsWith rest "__" && (2 <? String.length rest)) || splittable rest
  end.

End CacheKeySpec.

Module RequestSpec.
Import Search Requests.

(** No request of the service gets a parsed body back. *)
Definition offline (service : Service) : Prop :=
  (forall i seg data, description_endpoint service i seg <> Parsed data)
  /\ (forall texts data, batch_endpoint service texts <> Parsed data)
  /\ (forall text data, text_endpoint service text <> Parsed data).

(** The description [embedAllNodes] falls back on. *)
Definition fallback (node : TreeNode.t) : TreeNode.t :=
  set_description node
    (or_else (VideoSegment.title (TreeNode.segment node))
             (VideoSegment.topic (TreeNode.segment node))).

(** A node as [embedAllNodes] leaves it without the service. *)
Definition left_offline (node : TreeNode.t) : TreeNode.t :=
  if lacks_description node then fallback node else node.

(** Some node of the tree has no embedding. *)
Definition needs_embedding (tree : LearningTree.t) : Prop :=
  exists k node, LearningTree.nodes tree !! k = Some node /\ lacks_embedding node = true.

End RequestSpec.

Module LayoutSpec.
Import TreeExplorer.

Definition finite (n : Number) : Prop := exists q, n = Fin q.

Definition finite_position (pos : Position) : Prop := finite (x pos) /\ finite (y pos).

Definition finite_bounds (bounds : Bounds) : Prop :=
  finite (minX bounds) /\ finite (maxX bounds)
  /\ finite (minY bounds) /\ finite (maxY bounds).

(** The bounds [calculateTreeBounds] starts from. *)
Definition no_bounds : Bounds :=
  {| minX := PosInf; maxX := NegInf; minY := PosInf; maxY := NegInf |}.

(** A position with finite coordinates inside finite bounds. *)
Definition within (bounds : Bounds) (pos : Position) : Prop :=
  exists x0 x1 y0 y1 px py,
    bounds = {| minX := Fin x0; maxX := Fin x1; minY := Fin y0; maxY := Fin y1 |}
    /\ pos = {| x := Fin px; y := Fin py |}
    /\ (x0 <= px)%Q /\ (px <= x1)%Q /\ (y0 <= py)%Q /\ (py <= y1)%Q.

(** The part of the tree under [nodeId] is at most [stack] levels deep:
    a traversal from [nodeId] nests at most [stack] calls. *)
Fixpoint descends (stack : nat) (tree : LearningTree.t) (nodeId : string) : Prop :=
  match stack with
  | O => False
  | S stack' =>
      match LearningTree.nodes tree !! nodeId with
      | Some node => Forall (descends stack' tree) (TreeNode.childIds node)
      | None => True
      end
  end.

(** The level and the local vertical offset that the traversal of
    [traverseTree] computes for each node it visits, whatever the
    offsets of the tree. *)
Fixpoint local_layout (stack : nat) (tree : LearningTree.t) (nodeId : string)
    (level : nat) (parentY : Q) (childIndex totalSiblings : nat)
    (acc : gmap string (nat * Q)) : option (gmap string (nat * Q)) :=
  match stack with
  | O => None
  | S stack' =>
      let localOffsetY := localOffset childIndex totalSiblings parentY in
      let acc := <[nodeId := (level, localOffsetY)]> acc in
      match LearningTree.nodes tree !! nodeId with
      | Some node =>
          forEach (fun index childId =>
                     local_layout stack' tree childId (S level) localOffsetY
                                  index (length (TreeNode.childIds node)))
                  (TreeNode.childIds node) acc
      | None => Some acc
      end
  end.

Definition place (offsetX offsetY : Number) (l : nat * Q) : Position :=
  position_at offsetX offsetY (fst l) (snd l).

(** A position in a column of the layout, with a finite height. *)
Definition on_grid (pos : Position) : Prop :=
  exists (level : nat) (px py : Q),
    pos = {| x := Fin px; y := Fin py |}
    /\ (px == inject_Z (Z.of_nat level) * horizontalSpacing)%Q.

(** In the local layout [L], every child of a node of [ids] is one level
    further than the node, at the offset of its index from the node. *)
Definition arranged (tree : LearningTree.t) (L : gmap string (nat * Q))
    (ids : list string) : Prop :=
  forall p node lp yp,
    p ∈ ids -> LearningTree.nodes tree !! p = Some node -> L !! p = Some (lp, yp) ->
    forall i c, TreeNode.childIds node !! i = Some c ->
      L !! c = Some (S lp, localOffset i (length (TreeNode.childIds node)) yp).

(** The children of the nodes of [ids] are in [ids]. *)
Definition closed (tree : LearningTree.t) (ids : list string) : Prop :=
  forall p node c,
    p ∈ ids -> LearningTree.nodes tree !! p = Some node -> c ∈ TreeNode.childIds node ->
    c ∈ ids.

(** The same on positions: a child is one column to the right of its
    parent, and the [i]-th of [n] children is [(i - (n - 1) / 2)] times
    the vertical spacing below the parent. *)
Definition arranged_positions (tree : LearningTree.t) (positions : gmap string Position)
    (ids : list string) : Prop :=
  forall p node px py,
    p ∈ ids -> LearningTree.nodes tree !! p = Some node ->
    positions !! p = Some {| x := Fin px; y := Fin py |} ->
    forall i c, TreeNode.childIds node !! i = Some c ->
      exists cx cy,
        positions !! c = Some {| x := Fin cx; y := Fin cy |}
        /\ (cx == px + horizontalSpacing)%Q
        /\ (cy == py + (inject_Z (Z.of_nat i)
                        - (inject_Z (Z.of_nat (length (TreeNode.childIds node))) - 1) / (2 # 1))
                       * verticalSpacing)%Q.

(** The ids that [getNodesInTree] lists for the roots, one root after
    the other. *)
Fixpoint all_ids (stack : nat) (tree : LearningTree.t) (rootIds : list string) : list string :=
  match rootIds with
  | [] => []
  | rootId :: rest => default [] (getNodesInTree stack tree rootId) ++ all_ids stack tree rest
  end.

End LayoutSpec.

Module StorageSpec.


End StorageSpec.

Module SearchSpec.
Import Search.

Definition marked_keys (marked : list Marked) : list string :=
  (fun m => fst (fst m)) <$> marked.

(** What a result of the collecting loop refers to. *)
Definition refers_to (allNodes : list (string * TreeNode.t)) (r : SearchResult) : Prop :=
  exists k node e,
    (k, node) ∈ allNodes
    /\ TreeNode.id node = nodeId r
    /\ TreeNode.segment node = segment r
    /\ VideoSegment.embedding (TreeNode.segment node) = Some e.

(** [node] without the two fields the search service writes. *)
Definition without_search_fields (node : TreeNode.t) : TreeNode.t :=
  let seg := TreeNode.segment node in
  with_segment node
    {| VideoSegment.id := VideoSegment.id seg;
       VideoSegment.topic := VideoSegment.topic seg;
       VideoSegment.title := VideoSegment.title seg;
       VideoSegment.voiceoverScript := VideoSegment.voiceoverScript seg;
       VideoSegment.videoUrl := VideoSegment.videoUrl seg;
       VideoSegment.thumbnailUrl := VideoSegment.thumbnailUrl seg;
       VideoSegment.renderingStatus := VideoSegment.renderingStatus seg;
       VideoSegment.isQuestionNode := VideoSegment.isQuestionNode seg;
       VideoSegment.hasQuestion := VideoSegment.hasQuestion seg;
       VideoSegment.questionText := VideoSegment.questionText seg;
       VideoSegment.userAnswer := VideoSegment.userAnswer seg;
       VideoSegment.description := None;
       VideoSegment.embedding := None |}.

(** Two nodes that differ at most in the description and the embedding
    of their segments. *)
Definition same_but_search_fields (node node' : TreeNode.t) : Prop :=
  without_search_fields node' = without_search_fields node.

(** A node that [embedAllNodes] has nothing to do for. *)
Definition complete (node : TreeNode.t) : Prop :=
  lacks_embedding node = false /\ lacks_description node = false.

(** [r] is the search result of the node [kn] for the query embedding [q]. *)
Definition result_of (q : list number) (kn : string * TreeNode.t) (r : SearchResult) : Prop :=
  exists e,
    VideoSegment.embedding (TreeNode.segment (snd kn)) = Some e
    /\ cosineSimilarity q e = ret (similarity r)
    /\ nodeId r = TreeNode.id (snd kn)
    /\ segment r = TreeNode.segment (snd kn).

(** A node that [embedAllNodes] has work to do for. *)
Definition incomplete (kn : string * TreeNode.t) : Prop :=
  lacks_embedding (snd kn) || lacks_description (snd kn) = true.

(** How [embedAllNodes] leaves one node: a complete node as it was; any
    other node, when [ok], described and with some entry [e] of the
    batch reply (or [undefined]) as its embedding, and otherwise
    described or, when the loop ended before it, as it was. *)
Definition embedded_as (backend : Backend) (ok : bool) (kn kn' : string * TreeNode.t) : Prop :=
  fst kn' = fst kn
  /\ if lacks_embedding (snd kn) || lacks_description (snd kn)
     then if ok
          then exists i node e,
                 describe backend i (snd kn) = ret node /\ snd kn' = set_embedding node e
          else snd kn' = snd kn \/ exists i, describe backend i (snd kn) = ret (snd kn')
     else snd kn' = snd kn.

(** A node has a description, possibly an empty one. *)
Definition described (node : TreeNode.t) : Prop :=
  is_Some (VideoSegment.description (TreeNode.segment node)).

(** A description request that the loop of [embedAllNodes] makes for a
    node of [allNodes] gets the body [null]. *)
Definition null_reply (backend : Backend) (allNodes : list (string * TreeNode.t)) : Prop :=
  exists i k node,
    (k, node) ∈ allNodes
    /\ lacks_description node = true
    /\ generateNodeDescription backend i (TreeNode.segment node) = None.

(** The similarities to the query embedding [q] of the nodes of [tree]
    that have an embedding of the dimension of [q]. *)
Definition similarities (q : list number) (tree : LearningTree.t) : list float :=
  omap (fun kn : string * TreeNode.t =>
          match VideoSegment.embedding (TreeNode.segment (snd kn)) with
          | Some e =>
              match cosineSimilarity q e with
              | inr sim => Some sim
              | inl _ => None
              end
          | None => None
          end)
       (TreeState.getAllNodes tree).

(** The comparator of [searchNodes] on two similarities: it does not
    ask to move [a] behind [b]. *)
Definition stays_before (a b : float) : bool := negb (0 <? b - a)%float.

(** None of the similarities [l] is NaN. *)
Definition no_nan (l : list float) : bool := forallb (fun a => negb (is_nan a)) l.

(** Results in non-increasing order of similarity. *)
Definition non_increasing (rs : list SearchResult) : Prop :=
  StronglySorted (fun a b => (similarity b <=? similarity a)%float = true) rs.

(** An unmarked node has an embedding. *)
Definition unflagged_embedded (m : Marked) : Prop :=
  snd m = false -> lacks_embedding (snd (fst m)) = false.

(** What the search service may do to a node: write its description
    and its embedding, neither of them when the node is complete, and
    not the description when there is a non-empty one. *)
Definition search_frame (node node' : TreeNode.t) : Prop :=
  same_but_search_fields node node'
  /\ (complete node -> node' = node)
  /\ (lacks_description node = false ->
        VideoSegment.description (TreeNode.segment node')
        = VideoSegment.description (TreeNode.segment node)).

End SearchSpec.

(* ===================================================================== *)
(** * Sample data *)
(* ===================================================================== *)

Module Samples.
Import Search Orchestrator.

Definition sample_segment (name : string) : VideoSegment.t :=
  {| VideoSegment.id := name; VideoSegment.topic := "Photosynthesis";
     VideoSegment.title := Some name; VideoSegment.voiceoverScript := None;
     VideoSegment.videoUrl := None; VideoSegment.thumbnailUrl := None;
     VideoSegment.renderingStatus := None; VideoSegment.isQuestionNode := None;
     VideoSegment.hasQuestion := None; VideoSegment.questionText := None;
     VideoSegment.userAnswer := None;
     VideoSegment.description := Some "light into sugar"%string;
     VideoSegment.embedding := Some [1#2; 1#3] |}.

Definition sample_node (name : string) (parent : option string)
    (children : list string) (index : Z) : TreeNode.t :=
  {| TreeNode.id := name; TreeNode.segment := sample_segment name;
     TreeNode.parentId := parent; TreeNode.childIds := children;
     TreeNode.branchIndex := index; TreeNode.branchLabel := None |}.

Definition sample_context : LearningContext.t :=
  {| LearningContext.initialTopic := Some "Photosynthesis"%string;
     LearningContext.historyTopics := ["Photosynthesis"%string];
     LearningContext.depth := 2; LearningContext.correctnessPattern := [];
     LearningContext.preferredStyle := Some "mixed"%string;
     LearningContext.voiceId := None |}.

Definition sample_serialized (t : Serialized.tree_t) : Serialized.t :=
  {| Serialized.tree := t; Serialized.context := sample_context;
     Serialized.sessionId := "cached_1"; Serialized.startedAt := "2024-11-09";
     Serialized.lastUpdatedAt := "2024-11-09" |}.

Definition good_tree : Serialized.tree_t :=
  {| Serialized.nodes :=
       [ ("n1"%string, sample_node "n1" None ["n2"%string] 0);
         ("n2"%string, sample_node "n2" (Some "n1"%string) [] 0) ];
     Serialized.rootIds := ["n1"%string];
     Serialized.currentNodeId := "n1" |}.

(** A serialized tree that honours none of the invariants. *)
Definition broken_tree : Serialized.tree_t :=
  {| Serialized.nodes :=
       [ ("a"%string, sample_node "a" (Some "p"%string) ["ghost"%string] 0) ];
     Serialized.rootIds := ["zzz"%string];
     Serialized.currentNodeId := "nowhere" |}.

Definition serves (t : Serialized.tree_t) : Remote :=
  fun _ => Response true 200 (BodySession (sample_serialized t)).

Definition photosynthesis_url : JS.PropValue :=
  JS.OwnValue "https://storage.googleapis.com/vid-gen-static/cached/photosynthesis.json".

Definition stored_sample (current : string) : VideoSession.t :=
  {| VideoSession.tree :=
       {| LearningTree.nodes :=
            <["n1"%string := sample_node "n1" None [] 0]> ∅;
          LearningTree.rootIds := ["n1"%string];
          LearningTree.currentNodeId := current |};
     VideoSession.context := sample_context;
     VideoSession.sessionId := "s1"; VideoSession.startedAt := "t0";
     VideoSession.lastUpdatedAt := "t1" |}.

(** A root with two children, the second of which has the lower
    [branchIndex]. *)
Definition family : LearningTree.t :=
  {| LearningTree.nodes :=
       <["r"%string := sample_node "r" None ["a"%string; "b"%string] 0]>
       (<["a"%string := sample_node "a" (Some "r"%string) [] 1]>
       (<["b"%string := sample_node "b" (Some "r"%string) [] 0]> ∅));
     LearningTree.rootIds := ["r"%string];
     LearningTree.currentNodeId := "r" |}.

Definition plain_segment (name : string) (d : option string) (e : option (list number))
  : VideoSegment.t :=
  {| VideoSegment.id := name; VideoSegment.topic := "Trees";
     VideoSegment.title := Some name; VideoSegment.voiceoverScript := None;
     VideoSegment.videoUrl := None; VideoSegment.thumbnailUrl := None;
     VideoSegment.renderingStatus := None; VideoSegment.isQuestionNode := None;
     VideoSegment.hasQuestion := None; VideoSegment.questionText := None;
     VideoSegment.userAnswer := None;
     VideoSegment.description := d; VideoSegment.embedding := e |}.

Definition plain_node (name : string) (parent : option string) (children : list string)
    (d : option string) (e : option (list number)) : TreeNode.t :=
  {| TreeNode.id := name; TreeNode.segment := plain_segment name d e;
     TreeNode.parentId := parent; TreeNode.childIds := children;
     TreeNode.branchIndex := 0; TreeNode.branchLabel := None |}.

(** Three nodes; the last has neither description nor embedding yet. *)
Definition search_tree : LearningTree.t :=
  {| LearningTree.nodes :=
       <["r"%string := plain_node "r" None ["a"%string; "b"%string]
                         (Some "roots"%string) (Some [1#2; 0#1])]>
       (<["a"%string := plain_node "a" (Some "r"%string) []
                         (Some "leaves"%string) (Some [1#1; 1#4])]>
       (<["b"%string := plain_node "b" (Some "r"%string) [] None None]> ∅));
     LearningTree.rootIds := ["r"%string];
     LearningTree.currentNodeId := "r" |}.

Definition sample_backend : Backend :=
  {| generateNodeDescription := fun _ _ =>
       Some {| d_success := true; d_description := Some "bark"%string |};
     embedBatch := fun texts =>
       {| b_success := true; b_embeddings := Some (map (fun _ => [0#1; 1#1]) texts) |};
     embedText := fun _ => {| t_success := true; t_embedding := Some [1#1; 1#1] |} |}.

Definition sample_results : list SearchResult :=
  Eval vm_compute in
    default [] (results (fst (searchNodes sample_backend "bark" search_tree 2))).

Definition sample_tree_after : LearningTree.t :=
  snd (searchNodes sample_backend "bark" search_tree 2).


Definition idle : State :=
  {| tree := family; jobs := ∅; active := [] |}.

Definition failing_history : list Event :=
  [ Submit "job1" QuestionBranch (Some "a"%string) "why is the sky blue" 0;
    Dispatch "job1";
    Progress "job1" "planning" 10;
    Progress "job1" "rendering" 40;
    ServiceError "job1" "service unavailable" ].

Definition failed_job : Job :=
  mkJob QuestionBranch (Some "a"%string) "why is the sky blue" Failed 0 [].

(** While "job1" is generating, "job2" is submitted, finishes and
    commits one node under "b"; then "job1" fails. *)
Definition interleaved_history : list Event :=
  [ Submit "job1" QuestionBranch (Some "a"%string) "why is the sky blue" 0;
    Dispatch "job1";
    Submit "job2" QuestionBranch (Some "b"%string) "why is grass green" 1;
    Dispatch "job2";
    Finished "job2" [sample_segment "green"];
    ServiceError "job1" "service unavailable" ].

(** A serialized tree in which the id "a" occurs twice. *)
Definition repeated_tree : Serialized.tree_t :=
  {| Serialized.nodes :=
       [ ("a"%string, sample_node "a" None [] 0);
         ("b"%string, sample_node "b" None [] 1);
         ("a"%string, sample_node "a" None ["b"%string] 2) ];
     Serialized.rootIds := ["a"%string; "b"%string];
     Serialized.currentNodeId := "a" |}.

(** A back end whose batch request fails. *)
Definition failing_backend : Backend :=
  {| generateNodeDescription := fun _ _ =>
       Some {| d_success := false; d_description := None |};
     embedBatch := fun _ => {| b_success := false; b_embeddings := None |};
     embedText := fun _ => {| t_success := true; t_embedding := Some [1#1; 1#1] |} |}.

(** [search_tree] with every node described and embedded. *)
Definition embedded_tree : LearningTree.t :=
  {| LearningTree.nodes :=
       <["r"%string := plain_node "r" None ["a"%string; "b"%string]
                         (Some "roots"%string) (Some [1#2; 0#1])]>
       (<["a"%string := plain_node "a" (Some "r"%string) []
                         (Some "leaves"%string) (Some [1#1; 1#4])]>
       (<["b"%string := plain_node "b" (Some "r"%string) []
                         (Some "bark"%string) (Some [0#1; 1#1])]> ∅));
     LearningTree.rootIds := ["r"%string];
     LearningTree.currentNodeId := "r" |}.

(** The nodes of [search_tree], the incomplete one first. *)
Definition search_nodes : list (string * TreeNode.t) :=
  [ ("b"%string, plain_node "b" (Some "r"%string) [] None None);
    ("r"%string, plain_node "r" None ["a"%string; "b"%string]
                   (Some "roots"%string) (Some [1#2; 0#1])) ].


(** A back end whose description replies are the body [null]. *)
Definition null_backend : Backend :=
  {| generateNodeDescription := fun _ _ => None;
     embedBatch := fun texts =>
       {| b_success := true; b_embeddings := Some (map (fun _ => [0#1; 1#1]) texts) |};
     embedText := fun _ => {| t_success := true; t_embedding := Some [1#1; 1#1] |} |}.

(** A component as large as 2^600, whose square is beyond the doubles. *)
Definition huge : number := Qmake (2 ^ 600) 1.

(** Three nodes with embeddings, one of them with components as large
    as [huge], and a back end that embeds every query as [[huge, huge]]. *)
Definition overflow_tree : LearningTree.t :=
  {| LearningTree.nodes :=
       <["a"%string := plain_node "a" None [] (Some "one"%string) (Some [huge; Qopp huge])]>
       (<["b"%string := plain_node "b" None [] (Some "two"%string) (Some [2#1; 0#1])]>
       (<["c"%string := plain_node "c" None [] (Some "three"%string) (Some [1#1; 0#1])]> ∅));
     LearningTree.rootIds := ["a"%string; "b"%string; "c"%string];
     LearningTree.currentNodeId := "a" |}.

Definition overflow_backend : Backend :=
  {| generateNodeDescription := fun _ _ => None;
     embedBatch := fun _ => {| b_success := false; b_embeddings := None |};
     embedText := fun _ => {| t_success := true; t_embedding := Some [huge; huge] |} |}.

Definition overflow_results : list SearchResult :=
  Eval vm_compute in
    default [] (results (fst (searchNodes overflow_backend "light" overflow_tree 5))).

(** A service none of whose endpoints can be reached. *)
Definition unreachable : Requests.Service :=
  {| Requests.description_endpoint := fun _ _ => Requests.Unreachable;
     Requests.batch_endpoint := fun _ => Requests.HttpError 503;
     Requests.text_endpoint := fun _ => Requests.Malformed |}.

(** A layout with the node "r" at the origin, and the layout after the
    leaf "a" of [family] is placed as a further root. *)
Definition start : gmap string TreeExplorer.Position :=
  {[ "r"%string := {| TreeExplorer.x := TreeExplorer.Fin 0;
                      TreeExplorer.y := TreeExplorer.Fin 0 |} ]}.

Definition placed : gmap string TreeExplorer.Position :=
  default ∅ (TreeExplorer.place_root 2 family start "a").

(** The layout of [family]. *)
Definition family_layout : gmap string TreeExplorer.Position :=
  default ∅ (TreeExplorer.calculateTreeLayout 3 family).

End Samples.

(* ===================================================================== *)
(** * Properties of the string operations *)
(* ===================================================================== *)

Module JSFacts.
Import JS JSSpec.

Lemma startsWith_spec (p s : string) :
  startsWith s p = true <-> exists post, s = p +:+ post.
Proof.
  revert s. induction p as [|a p IH]; intros s.
  - split; [intros _; exists s; reflexivity | now destruct s].
  - destruct s as [|b s]; simpl.
    + split; [discriminate | intros [post H]; discriminate].
    + destruct (ascii_dec a b) as [->|Hne].
      * rewrite IH. split; intros [post H]; exists post.
        -- now rewrite H.
        -- now inversion H.
      * split; [discriminate | intros [post H]; inversion H; congruence].
Qed.

Lemma includes_spec (s sub : string) : includes s sub = true <-> contains s sub.
Proof.
  unfold contains. induction s as [|c s IH].
  - change (includes "" sub) with (startsWith "" sub || false).
    rewrite orb_false_r, startsWith_spec. split.
    + intros [post H]. exists EmptyString, post. exact H.
    + intros (pre & post & H). destruct pre; [|discriminate].
      exists post. exact H.
  - change (includes (String c s) sub)
      with (startsWith (String c s) sub || includes s sub).
    rewrite orb_true_iff, startsWith_spec, IH. split.
    + intros [[post H]|(pre & post & H)].
      * exists EmptyString, post. exact H.
      * exists (String c pre), post. simpl. now rewrite H.
    + intros (pre & post & H). destruct pre as [|c' pre]; simpl in H.
      * left. exists post. exact H.
      * right. exists pre, post. now inversion H.
Qed.

Lemma is_space_whitespace c : is_space c = true -> is_whitespace c = true.
Proof. unfold is_space. intros H%Ascii.eqb_eq. now subst. Qed.

Lemma not_whitespace_not_space c : is_whitespace c = false -> is_space c = false.
Proof.
  intros H. destruct (is_space c) eqn:E; [|reflexivity].
  apply is_space_whitespace in E. congruence.
Qed.

Lemma kept_not_whitespace_plain c :
  kept c = true -> is_whitespace c = false -> plain c = true.
Proof. unfold kept, plain. intros H Hw. rewrite Hw, orb_false_r in H. now rewrite H. Qed.

Lemma replace_non_alnum_kept s : all_chars kept (replace_non_alnum s) = true.
Proof.
  unfold replace_non_alnum. induction s as [|c s IH]; simpl; [reflexivity|].
  rewrite IH, andb_true_r. fold (kept c). destruct (kept c) eqn:E; [exact E|reflexivity].
Qed.

Lemma collapse_from_shape (in_run : bool) (s : string) :
  all_chars kept s = true ->
  all_chars plain (collapse_from in_run s) = true
  /\ no_double_space (collapse_from in_run s) = true
  /\ (in_run = true -> starts_with_space (collapse_from in_run s) = false).
Proof.
  revert in_run. induction s as [|c s IH]; intros in_run Hk; simpl in *.
  - now destruct in_run.
  - apply andb_true_iff in Hk as [Hc Hs].
    destruct (is_whitespace c) eqn:Hw.
    + destruct (IH true Hs) as (Ha & Hd & Hst). specialize (Hst eq_refl).
      destruct in_run; [now auto|].
      simpl. rewrite Ha, Hd, Hst. now repeat split.
    + destruct (IH false Hs) as (Ha & Hd & _).
      simpl. rewrite Ha, Hd, (kept_not_whitespace_plain c Hc Hw).
      rewrite (not_whitespace_not_space c Hw). now repeat split.
Qed.

Lemma trimStart_shape (s : string) :
  all_chars plain s = true -> no_double_space s = true ->
  all_chars plain (trimStart s) = true
  /\ no_double_space (trimStart s) = true
  /\ starts_with_space (trimStart s) = false.
Proof.
  induction s as [|c s IH]; intros Ha Hd; simpl in *; [now auto|].
  apply andb_true_iff in Ha as [Hc Ha]. apply andb_true_iff in Hd as [Hcd Hd].
  destruct (is_whitespace c) eqn:Hw; [now apply IH|].
  simpl. rewrite Hc, Ha, Hcd, Hd. repeat split.
  now apply not_whitespace_not_space.
Qed.

Lemma trimEnd_starts (s : string) :
  starts_with_space (trimEnd s) = true -> starts_with_space s = true.
Proof.
  destruct s as [|c s]; simpl; [discriminate|].
  destruct (is_whitespace c && is_empty (trimEnd s)); [discriminate|now simpl].
Qed.

Lemma trimEnd_shape (s : string) :
  all_chars plain s = true -> no_double_space s = true ->
  all_chars plain (trimEnd s) = true
  /\ no_double_space (trimEnd s) = true
  /\ ends_with_space (trimEnd s) = false.
Proof.
  induction s as [|c s IH]; intros Ha Hd; simpl in *; [now auto|].
  apply andb_true_iff in Ha as [Hc Ha]. apply andb_true_iff in Hd as [Hcd Hd].
  destruct (IH Ha Hd) as (IHa & IHd & IHe).
  destruct (is_whitespace c && is_empty (trimEnd s)) eqn:E; [now auto|].
  simpl. rewrite Hc, IHa, IHd. repeat split.
  - rewrite andb_true_r. apply negb_true_iff. apply negb_true_iff in Hcd.
    apply andb_false_iff in Hcd as [Hcd|Hcd]; [now rewrite Hcd|].
    destruct (starts_with_space (trimEnd s)) eqn:Est; [|now rewrite andb_false_r].
    apply trimEnd_starts in Est. congruence.
  - destruct (trimEnd s) as [|d r] eqn:Er; [|exact IHe].
    simpl in E. rewrite andb_true_r in E. now apply not_whitespace_not_space.
Qed.

Lemma trim_shape (s : string) :
  all_chars plain s = true -> no_double_space s = true -> normalized (trim s) = true.
Proof.
  intros Ha Hd. unfold trim, normalized.
  destruct (trimStart_shape s Ha Hd) as (Ha1 & Hd1 & Hs1).
  destruct (trimEnd_shape _ Ha1 Hd1) as (Ha2 & Hd2 & He2).
  rewrite Ha2, Hd2, He2. simpl.
  destruct (starts_with_space (trimEnd (trimStart s))) eqn:E; [|reflexivity].
  apply trimEnd_starts in E. congruence.
Qed.

Lemma is_empty_true (s : string) : is_empty s = true <-> s = EmptyString.
Proof. destruct s; simpl; split; congruence. Qed.

Lemma truthy_true (s : string) : truthy s = true <-> s <> EmptyString.
Proof. destruct s; unfold truthy; simpl; split; intros; congruence. Qed.

Lemma own_lookup_None (key : string) (obj : list (string * string)) :
  own_lookup key obj = None <-> ~ In key (keys obj).
Proof.
  induction obj as [|[k v] obj IH]; simpl; [tauto|].
  destruct (String.eqb_spec k key) as [->|Hne].
  - split; [discriminate | intros H; exfalso; apply H; now left].
  - rewrite IH. unfold keys. tauto.
Qed.

Lemma inherited_true (key : string) :
  inherited key = true <-> In key Object_prototype_names.
Proof.
  unfold inherited. rewrite existsb_exists. split.
  - intros (x & Hin & Heq). apply String.eqb_eq in Heq. now subst.
  - intros Hin. exists key. split; [exact Hin | apply String.eqb_refl].
Qed.

Lemma has_property_spec (key : string) (obj : list (string * string)) :
  has_property key obj = true <-> In key (keys obj) \/ In key Object_prototype_names.
Proof.
  unfold has_property. destruct (own_lookup key obj) eqn:E.
  - split; [intros _; left | reflexivity].
    destruct (in_dec string_dec key (keys obj)) as [Hin|Hnin]; [exact Hin|].
    apply own_lookup_None in Hnin. congruence.
  - rewrite inherited_true. apply own_lookup_None in E. tauto.
Qed.


Lemma own_lookup_truthy (obj : list (string * string)) (key v : string) :
  Forall (fun kv => truthy (snd kv) = true) obj ->
  own_lookup key obj = Some v -> truthy v = true.
Proof.
  induction 1 as [|[k w] rest Hw _ IH]; simpl; [discriminate|].
  destruct (String.eqb k key); [|exact IH]. intros H. now inversion H; subst.
Qed.

Lemma get_truthy (obj : list (string * string)) (key : string) (p : PropValue) :
  Forall (fun kv => truthy (snd kv) = true) obj ->
  get obj key = Some p -> truthy_value p = true.
Proof.
  intros Hall. unfold get. destruct (own_lookup key obj) as [v|] eqn:E.
  - intros H. inversion H; subst. simpl. now apply (own_lookup_truthy obj key).
  - destruct (inherited key); [|discriminate]. intros H. now inversion H.
Qed.

Lemma get_has_property (obj : list (string * string)) (key : string) :
  has_property key obj = true <-> get obj key <> None.
Proof.
  unfold has_property, get. destruct (own_lookup key obj); [easy|].
  destruct (inherited key); easy.
Qed.

End JSFacts.

(* ===================================================================== *)
(** * Properties of the cached-session service *)
(* ===================================================================== *)

Module CachedSessionFacts.
Import CachedSession JSSpec.

Lemma normalizeText_normalized (text : string) :
  JSSpec.normalized (normalizeText text) = true.
Proof.
  unfold normalizeText, JS.collapse_whitespace.
  destruct (JSFacts.collapse_from_shape false _
              (JSFacts.replace_non_alnum_kept (JS.toLowerCase text))) as (Ha & Hd & _).
  now apply JSFacts.trim_shape.
Qed.

Lemma related_test (nq nt : string) :
  JS.includes nq nt || JS.includes nt nq = true <-> related nq nt.
Proof. unfold related. now rewrite orb_true_iff, !JSFacts.includes_spec. Qed.

(** The loop returns the first related topic. *)
Lemma match_topics_first (nq : string) (topics : list string) :
  match match_topics nq topics with
  | Some topic =>
      exists earlier later, topics = earlier ++ topic :: later
        /\ related nq (normalizeText topic)
        /\ forall t, In t earlier -> ~ related nq (normalizeText t)
  | None => forall t, In t topics -> ~ related nq (normalizeText t)
  end.
Proof.
  induction topics as [|topic rest IH]; simpl; [tauto|].
  destruct (JS.includes nq (normalizeText topic)
            || JS.includes (normalizeText topic) nq) eqn:E.
  - exists [], rest. apply related_test in E. simpl. tauto.
  - assert (Hn : ~ related nq (normalizeText topic)).
    { intros H%related_test. congruence. }
    destruct (match_topics nq rest) as [found|].
    + destruct IH as (earlier & later & -> & Hrel & Hfirst).
      exists (topic :: earlier), later. repeat split; [exact Hrel|].
      intros t [<-|Hin]; [exact Hn | now apply Hfirst].
    + intros t [<-|Hin]; [exact Hn | now apply IH].
Qed.

(** ** [normalizeText] computes the normal form *)

#[local] Abbreviation cleaned s := (JS.replace_non_alnum (JS.toLowerCase s)).
#[local] Abbreviation squeezed in_run s := (JS.trimEnd (JS.collapse_from in_run (cleaned s))).

(** What lowering and replacing make of one character: the lower-case
    form of a letter or digit, and white space of anything else. *)
Lemma cleaned_char (c : ascii) :
  let c' := JS.char_toLowerCase c in
  let r := if kept c' then c' else JS.space in
  (if alphanumeric c
   then Ascii.eqb r (lower_case c) && negb (JS.is_whitespace (lower_case c))
   else JS.is_whitespace r) = true.
Proof. destruct c as [[] [] [] [] [] [] [] []]; vm_compute; reflexivity. Qed.

Lemma cleaned_cons (c : ascii) (s : string) :
  cleaned (String c s)
  = String (if kept (JS.char_toLowerCase c) then JS.char_toLowerCase c else JS.space)
           (cleaned s).
Proof. reflexivity. Qed.

Lemma cleaned_alphanumeric (c : ascii) (s : string) :
  alphanumeric c = true ->
  cleaned (String c s) = String (lower_case c) (cleaned s)
  /\ JS.is_whitespace (lower_case c) = false.
Proof.
  intros Hc. pose proof (cleaned_char c) as H. simpl in H. rewrite Hc in H.
  apply andb_true_iff in H as [Heq Hw]. apply Ascii.eqb_eq in Heq.
  rewrite cleaned_cons, Heq. split; [reflexivity | now apply negb_true_iff].
Qed.

Lemma cleaned_separator (c : ascii) (s : string) :
  alphanumeric c = false ->
  exists r, cleaned (String c s) = String r (cleaned s) /\ JS.is_whitespace r = true.
Proof.
  intros Hc. pose proof (cleaned_char c) as H. simpl in H. rewrite Hc in H.
  eexists. split; [apply cleaned_cons | exact H].
Qed.

Lemma squeezed_alphanumeric (in_run : bool) (c : ascii) (s : string) :
  alphanumeric c = true ->
  squeezed in_run (String c s) = String (lower_case c) (squeezed false s).
Proof.
  intros Hc. destruct (cleaned_alphanumeric c s Hc) as [-> Hw].
  cbn [JS.collapse_from]. rewrite Hw. cbn [JS.trimEnd]. now rewrite Hw.
Qed.

Lemma squeezed_separator (c : ascii) (s : string) :
  alphanumeric c = false ->
  squeezed true (String c s) = squeezed true s
  /\ squeezed false (String c s)
     = if JS.is_empty (squeezed true s) then EmptyString
       else String JS.space (squeezed true s).
Proof.
  intros Hc. destruct (cleaned_separator c s Hc) as (r & -> & Hw).
  cbn [JS.collapse_from]. rewrite Hw. split; [reflexivity|]. reflexivity.
Qed.

Lemma trimmed_squeezed (in_run : bool) (s : string) :
  JS.trimEnd (JS.trimStart (JS.collapse_from in_run (cleaned s))) = squeezed true s.
Proof.
  revert in_run. induction s as [|c s IH]; intros in_run; [reflexivity|].
  destruct (alphanumeric c) eqn:Hc.
  - rewrite (squeezed_alphanumeric true c s Hc).
    destruct (cleaned_alphanumeric c s Hc) as [-> Hw].
    cbn [JS.collapse_from]. rewrite Hw. cbn [JS.trimStart]. rewrite Hw.
    cbn [JS.trimEnd]. now rewrite Hw.
  - rewrite (proj1 (squeezed_separator c s Hc)).
    destruct (cleaned_separator c s Hc) as (r & -> & Hw).
    cbn [JS.collapse_from]. rewrite Hw. rewrite <- (IH true).
    now destruct in_run.
Qed.

Lemma append_empty (s : string) : s +:+ EmptyString = s.
Proof.
  induction s as [|c s IH]; [reflexivity|].
  change (String c (s +:+ EmptyString) = String c s). now rewrite IH.
Qed.

Lemma append_assoc (s1 s2 s3 : string) : (s1 +:+ s2) +:+ s3 = s1 +:+ (s2 +:+ s3).
Proof.
  induction s1 as [|c s1 IH]; [reflexivity|].
  change (String c ((s1 +:+ s2) +:+ s3) = String c (s1 +:+ (s2 +:+ s3))). now rewrite IH.
Qed.

Lemma append_not_empty (s : string) (c : ascii) : s +:+ String c EmptyString <> EmptyString.
Proof. now destruct s. Qed.

(** No word is empty. *)
Lemma words_from_not_empty (s word x : string) :
  In x (words_from word s) -> x <> EmptyString.
Proof.
  revert word. induction s as [|c s IH]; intros word; simpl.
  - destruct word; simpl; [tauto|]. intros [<-|[]]. discriminate.
  - destruct (alphanumeric c); [apply IH|].
    destruct word; simpl; [apply IH|]. intros [<-|H]; [discriminate | now apply (IH EmptyString)].
Qed.

Lemma words_from_squeezed (s : string) :
  (forall word, word <> EmptyString ->
     String.concat " " (words_from word s) = word +:+ squeezed false s)
  /\ String.concat " " (words_from EmptyString s) = squeezed true s.
Proof.
  induction s as [|c s [IHword IHnone]].
  - split; [|reflexivity]. intros word Hw. simpl.
    destruct word; [contradiction|]. simpl. now rewrite append_empty.
  - destruct (alphanumeric c) eqn:Hc.
    + rewrite !(squeezed_alphanumeric _ c s Hc). split.
      * intros word Hw. simpl. rewrite Hc.
        rewrite IHword by apply append_not_empty. now rewrite append_assoc.
      * simpl. rewrite Hc. now rewrite IHword by discriminate.
    + destruct (squeezed_separator c s Hc) as [-> ->]. split.
      * intros word Hw. simpl. rewrite Hc.
        destruct word as [|d word]; [contradiction|].
        rewrite <- IHnone.
        destruct (words_from EmptyString s) as [|x xs] eqn:Hws.
        -- simpl. now rewrite append_empty.
        -- assert (Hx : x <> EmptyString).
           { apply (words_from_not_empty s EmptyString). rewrite Hws. now left. }
           change (String.concat " " (String d word :: x :: xs))
             with (String d word +:+ " " +:+ String.concat " " (x :: xs)).
           assert (Hne : JS.is_empty (String.concat " " (x :: xs)) = false).
           { destruct x; [contradiction|]. now destruct xs. }
           now rewrite Hne.
      * simpl. rewrite Hc. exact IHnone.
Qed.

(** [normalizeText] lowers the letters, drops what is neither letter nor
    digit, and leaves one space between the words. *)
Lemma normalizeText_normal_form (text : string) : normalizeText text = normal_form text.
Proof.
  unfold normalizeText, JS.trim, JS.collapse_whitespace, normal_form, words.
  rewrite trimmed_squeezed. symmetry. apply words_from_squeezed.
Qed.

(** C4. [matchQuestionToCachedTopic] normalizes its input: the normalized
    text is the normal form of the input, its words of letters and
    digits in lower case with single spaces between them (only [a-z],
    [0-9] and single inner spaces). It returns a known topic exactly
    when the normalized input is not empty and the normal form of some
    known topic is related to it by substring containment, one way or
    the other; the topic returned is such a topic (the first of the
    table). It returns none exactly when the normalized input is empty
    or no known topic is related. *)
Theorem matchQuestionToCachedTopic_spec (question : string) :
  let nq := normal_form question in
  normalizeText question = nq
  /\ (forall topic, normalizeText topic = normal_form topic)
  /\ JSSpec.normalized nq = true
  /\ (forall topic, matchQuestionToCachedTopic question = Some topic ->
        nq <> EmptyString /\ In topic getCachedTopics
        /\ related nq (normal_form topic)
        /\ exists earlier later, getCachedTopics = earlier ++ topic :: later
             /\ forall t, In t earlier -> ~ related nq (normal_form t))
  /\ ((exists topic, matchQuestionToCachedTopic question = Some topic) <->
      nq <> EmptyString
      /\ exists t, In t getCachedTopics /\ related nq (normal_form t))
  /\ (matchQuestionToCachedTopic question = None <->
      nq = EmptyString
      \/ forall t, In t getCachedTopics -> ~ related nq (normal_form t)).
Proof.
  intros nq. unfold nq. rewrite <- normalizeText_normal_form. clear nq.
  set (nq := normalizeText question).
  split; [reflexivity|]. split; [exact normalizeText_normal_form|].
  split; [apply normalizeText_normalized|].
  assert (Hrel : forall t, related nq (normal_form t) <-> related nq (normalizeText t)).
  { intros t. now rewrite normalizeText_normal_form. }
  unfold matchQuestionToCachedTopic. fold nq.
  pose proof (match_topics_first nq getCachedTopics) as Hloop.
  destruct (JS.truthy nq) eqn:Ht; cbn [negb].
  - apply JSFacts.truthy_true in Ht.
    destruct (match_topics nq getCachedTopics) as [found|].
    + destruct Hloop as (earlier & later & Heq & Hfound & Hfirst).
      assert (Hin : In found getCachedTopics).
      { rewrite Heq. apply in_or_app. right. now left. }
      split; [|split].
      * intros topic Hsome. assert (topic = found) as -> by congruence.
        split; [exact Ht|]. split; [exact Hin|]. split; [now apply Hrel|].
        exists earlier, later. split; [exact Heq|].
        intros t Hearlier Hr. apply (Hfirst t Hearlier). now apply Hrel.
      * split; [intros _; split; [exact Ht | exists found; split; [exact Hin | now apply Hrel]]
               | intros _; now exists found].
      * split; [discriminate|]. intros [H|H]; [contradiction|].
        exfalso. apply (H found Hin). now apply Hrel.
    + split; [discriminate|]. split.
      * split; [intros [topic H]; discriminate|].
        intros (_ & t & Hin & Hr). exfalso. apply (Hloop t Hin). now apply Hrel.
      * split; [|reflexivity]. intros _. right. intros t Hin Hr.
        apply (Hloop t Hin). now apply Hrel.
  - assert (He : nq = EmptyString).
    { destruct nq; [reflexivity | discriminate]. }
    split; [discriminate|]. split.
    + split; [intros [topic H]; discriminate | intros [H _]; contradiction].
    + split; [intros _; now left | reflexivity].
Qed.

(** Upper case, punctuation and repeated spaces make no difference. *)
Lemma matchQuestionToCachedTopic_spec_witness :
  normalizeText "  What is PHOTO-synthesis,   really?" = "what is photo synthesis really"%string
  /\ normalizeText "Tell me about PHOTOSYNTHESIS!" = "tell me about photosynthesis"%string
  /\ matchQuestionToCachedTopic "Tell me about PHOTOSYNTHESIS!" = Some "Photosynthesis"%string.
Proof.
  destruct (matchQuestionToCachedTopic_spec "Tell me about PHOTOSYNTHESIS!")
    as (Hq & Hany & _).
  split; [rewrite Hany; reflexivity|]. split; [rewrite Hq; reflexivity | reflexivity].
Defined.

Example match_question_inside :
  matchQuestionToCachedTopic "What is photosynthesis, really?" = Some "Photosynthesis"%string.
Proof. reflexivity. Qed.

Example match_topic_contains_question :
  matchQuestionToCachedTopic "  Search " = Some "Binary Search Trees"%string.
Proof. reflexivity. Qed.

Example match_only_punctuation : matchQuestionToCachedTopic "?!" = None.
Proof. reflexivity. Qed.

Example match_unrelated : matchQuestionToCachedTopic "Ancient Rome" = None.
Proof. reflexivity. Qed.

(** [hasCachedSession] tests the key as it is spelled. *)
Lemma hasCachedSession_photosynthesis :
  hasCachedSession "Photosynthesis" = true
  /\ hasCachedSession "photosynthesis" = false
  /\ normalizeText "photosynthesis" = normalizeText "Photosynthesis".
Proof. now vm_compute. Qed.

(** C5, as stated, fails: a key whose normalized form equals that of a
    table key need not be found, and two keys that differ only in letter
    case give different results. *)
Lemma hasCachedSession_not_normalized :
  ~ (forall key topic, In topic getCachedTopics ->
       normalizeText key = normalizeText topic -> hasCachedSession key = true)
  /\ ~ (forall key key', normalizeText key = normalizeText key' ->
          hasCachedSession key = hasCachedSession key').
Proof.
  split; intros H.
  - specialize (H "photosynthesis"%string "Photosynthesis"%string).
    assert (hasCachedSession "photosynthesis" = true) as E.
    { apply H; [right; left; reflexivity | now vm_compute]. }
    now vm_compute in E.
  - specialize (H "photosynthesis"%string "Photosynthesis"%string).
    assert (hasCachedSession "photosynthesis" = hasCachedSession "Photosynthesis") as E.
    { apply H. now vm_compute. }
    now vm_compute in E.
Qed.

(** C5, amended. [hasCachedSession] is an exact lookup, sensitive to case
    and punctuation: it answers true exactly for a key that is, character
    for character, one of the keys of the fixed table (or one of the
    property names every object inherits, which the [in] operator finds
    too). *)
Theorem hasCachedSession_exact (key : string) :
  hasCachedSession key = true <->
  In key getCachedTopics \/ In key JS.Object_prototype_names.
Proof. unfold hasCachedSession, getCachedTopics. apply JSFacts.has_property_spec. Qed.

Lemma rebuild_segment_same (seg : VideoSegment.t) : rebuild_segment seg = seg.
Proof. now destruct seg. Qed.

Lemma rebuild_node_same (nodeData : TreeNode.t) : rebuild_node nodeData = nodeData.
Proof.
  destruct nodeData as [i seg p c b l]. unfold rebuild_node; simpl.
  now rewrite rebuild_segment_same.
Qed.

Section SetAll.
Implicit Types (nodes : gmap string TreeNode.t) (entries : list (string * TreeNode.t)).

Lemma set_all_lookup_Some nodes entries k node :
  set_all nodes entries !! k = Some node ->
  (k, node) ∈ entries \/ nodes !! k = Some node.
Proof.
  revert nodes. induction entries as [|[k0 nd0] rest IH]; intros nodes H; simpl in H.
  - now right.
  - apply IH in H as [H|H]; [left; now right|].
    rewrite rebuild_node_same in H. destruct (decide (k0 = k)) as [->|Hne].
    + rewrite lookup_insert_eq in H. injection H as ->. left. now left.
    + rewrite lookup_insert_ne in H by done. now right.
Qed.

Lemma set_all_lookup_other nodes entries k :
  k ∉ entries.*1 -> set_all nodes entries !! k = nodes !! k.
Proof.
  revert nodes. induction entries as [|[k0 nd0] rest IH]; intros nodes H; simpl in *.
  - reflexivity.
  - apply not_elem_of_cons in H as [Hne Hrest].
    rewrite IH by done. now rewrite lookup_insert_ne.
Qed.

Lemma set_all_is_Some nodes entries k :
  is_Some (set_all nodes entries !! k) <-> k ∈ entries.*1 \/ is_Some (nodes !! k).
Proof.
  revert nodes. induction entries as [|[k0 nd0] rest IH]; intros nodes; simpl.
  - rewrite elem_of_nil. tauto.
  - rewrite IH, elem_of_cons. destruct (decide (k0 = k)) as [->|Hne].
    + rewrite lookup_insert_eq. split; [intros _; now left; left|].
      intros _. right. eauto.
    + rewrite lookup_insert_ne by done. split; [tauto|].
      intros [[Heq|H]|H]; [congruence|tauto|tauto].
Qed.

Lemma set_all_lookup_distinct nodes entries k node :
  NoDup entries.*1 -> (k, node) ∈ entries -> set_all nodes entries !! k = Some node.
Proof.
  revert nodes. induction entries as [|[k0 nd0] rest IH]; intros nodes Hnd Hin; simpl in *.
  - now apply elem_of_nil in Hin.
  - apply NoDup_cons in Hnd as [Hfresh Hnd].
    apply elem_of_cons in Hin as [[= -> ->]|Hin].
    + rewrite set_all_lookup_other by done.
      now rewrite lookup_insert_eq, rebuild_node_same.
    + now apply IH.
Qed.

Lemma set_all_size nodes entries :
  NoDup entries.*1 -> (forall k, k ∈ entries.*1 -> nodes !! k = None) ->
  size (set_all nodes entries) = length entries + size nodes.
Proof.
  revert nodes. induction entries as [|[k0 nd0] rest IH]; intros nodes Hnd Hfresh; simpl in *.
  - reflexivity.
  - apply NoDup_cons in Hnd as [Hk0 Hnd]. rewrite IH.
    + rewrite map_size_insert_None; [lia|]. apply Hfresh. now left.
    + exact Hnd.
    + intros k Hk. rewrite lookup_insert_ne; [apply Hfresh; now right|].
      intros ->. contradiction.
Qed.

End SetAll.

Lemma set_all_dom (nodes : gmap string TreeNode.t) (entries : list (string * TreeNode.t)) :
  dom (set_all nodes entries) = list_to_set entries.*1 ∪ dom nodes.
Proof.
  revert nodes. induction entries as [|[k nd] rest IH]; intros nodes; simpl.
  - set_solver.
  - rewrite IH, dom_insert_L. set_solver.
Qed.

Lemma set_all_count (entries : list (string * TreeNode.t)) :
  size (set_all ∅ entries) = length (remove_dups entries.*1).
Proof.
  rewrite <- size_dom, set_all_dom, dom_empty_L, union_empty_r_L.
  rewrite <- (size_list_to_set (C := gset string) (remove_dups entries.*1))
    by apply NoDup_remove_dups.
  f_equal. apply set_eq. intros k.
  now rewrite !elem_of_list_to_set, elem_of_remove_dups.
Qed.

End CachedSessionFacts.

(* ===================================================================== *)
(** * Loading a cached session *)
(* ===================================================================== *)

Module LoadFacts.
Import CachedSession CachedSessionFacts TreeSpec Samples.

(** Every value of the table is truthy. *)
Lemma CACHED_SESSIONS_truthy (topic : string) (sessionPath : JS.PropValue) :
  JS.get CACHED_SESSIONS topic = Some sessionPath -> JS.truthy_value sessionPath = true.
Proof. apply JSFacts.get_truthy. now repeat constructor. Qed.

Lemma load_success remote topic sessionPath status data :
  JS.get CACHED_SESSIONS topic = Some sessionPath ->
  remote sessionPath = Response true status (BodySession data) ->
  loadCachedSession remote topic = Fulfilled (Some (deserialize data)).
Proof.
  intros Hget Hfetch. unfold loadCachedSession, load_body, await_fetch.
  now rewrite Hget, (CACHED_SESSIONS_truthy _ _ Hget), Hfetch.
Qed.

(** C3, as stated, fails when an id occurs more than once in the
    serialized [nodes] array: of the three pairs of [repeated_tree] two
    nodes are loaded, and the node of the first pair is not in the map. *)
Lemma loadCachedSession_not_one_per_pair :
  exists session,
    loadCachedSession (serves repeated_tree) "Photosynthesis" = Fulfilled (Some session)
    /\ length (Serialized.nodes repeated_tree) = 3
    /\ size (LearningTree.nodes (VideoSession.tree session)) = 2
    /\ ("a"%string, sample_node "a" None [] 0) ∈ Serialized.nodes repeated_tree
    /\ LearningTree.nodes (VideoSession.tree session) !! "a"%string
       <> Some (sample_node "a" None [] 0).
Proof.
  exists (deserialize (sample_serialized repeated_tree)).
  split; [reflexivity|]. split; [reflexivity|]. split; [vm_compute; reflexivity|].
  split; [now left|]. vm_compute. discriminate.
Qed.

(** C3, amended. When the fetch succeeds and the body parses to a
    serialized session, [loadCachedSession] returns a session whose node
    map has an entry for exactly the ids of the serialized [nodes] array,
    one per distinct id; every reconstructed node equals the serialized
    node of a pair of its id in every field ([id], [parentId],
    [childIds], [branchIndex], [branchLabel] and the whole segment,
    [embedding] and [description] included); when the ids of the array
    are pairwise distinct, as in the serialization of a node map, the
    map has one entry per pair and maps each id to its node; [rootIds],
    [currentNodeId] and the other session fields are the serialized
    ones. *)
Theorem loadCachedSession_reconstructs remote topic sessionPath status data :
  JS.get CACHED_SESSIONS topic = Some sessionPath ->
  remote sessionPath = Response true status (BodySession data) ->
  exists session,
    loadCachedSession remote topic = Fulfilled (Some session)
    /\ let nodes := LearningTree.nodes (VideoSession.tree session) in
       let entries := Serialized.nodes (Serialized.tree data) in
       (forall nodeData, rebuild_node nodeData = nodeData)
       /\ (forall k, is_Some (nodes !! k) <-> k ∈ entries.*1)
       /\ size nodes = length (remove_dups entries.*1)
       /\ (forall k node, nodes !! k = Some node -> (k, node) ∈ entries)
       /\ (NoDup entries.*1 ->
             size nodes = length entries
             /\ forall k nodeData, (k, nodeData) ∈ entries -> nodes !! k = Some nodeData)
       /\ LearningTree.rootIds (VideoSession.tree session)
            = Serialized.rootIds (Serialized.tree data)
       /\ LearningTree.currentNodeId (VideoSession.tree session)
            = Serialized.currentNodeId (Serialized.tree data)
       /\ VideoSession.context session = Serialized.context data
       /\ VideoSession.sessionId session = Serialized.sessionId data.
Proof.
  intros Hget Hfetch. exists (deserialize data).
  split; [now apply (load_success remote topic sessionPath status)|].
  simpl. split; [exact rebuild_node_same|]. split; [|split; [|split; [|split]]].
  - intros k. rewrite set_all_is_Some, lookup_empty.
    split; [intros [H|[x H]]; [exact H | discriminate] | now left].
  - apply set_all_count.
  - intros k node H. apply set_all_lookup_Some in H as [H|H]; [exact H|].
    now rewrite lookup_empty in H.
  - intros Hnd. split.
    + rewrite set_all_size; [now rewrite map_size_empty, Nat.add_0_r | exact Hnd |].
      intros k _. apply lookup_empty.
    + intros k nodeData Hin. now apply set_all_lookup_distinct.
  - repeat split.
Qed.

Lemma loadCachedSession_reconstructs_witness :
  JS.get CACHED_SESSIONS "Photosynthesis" = Some photosynthesis_url
  /\ serves good_tree photosynthesis_url
       = Response true 200 (BodySession (sample_serialized good_tree))
  /\ exists session,
       loadCachedSession (serves good_tree) "Photosynthesis" = Fulfilled (Some session)
       /\ size (LearningTree.nodes (VideoSession.tree session)) = 2
       /\ LearningTree.nodes (VideoSession.tree session) !! "n2"%string
            = Some (sample_node "n2" (Some "n1"%string) [] 0)
       /\ LearningTree.currentNodeId (VideoSession.tree session) = "n1"%string.
Proof.
  split; [reflexivity|]. split; [reflexivity|].
  destruct (loadCachedSession_reconstructs (serves good_tree) "Photosynthesis"
              photosynthesis_url 200 (sample_serialized good_tree) eq_refl eq_refl)
    as (session & Hload & _ & _ & _ & _ & Hdistinct & _ & Hcur & _).
  exists session. split; [exact Hload|].
  assert (Hnd : NoDup (Serialized.nodes (Serialized.tree (sample_serialized good_tree))).*1).
  { simpl. repeat constructor; set_solver. }
  destruct (Hdistinct Hnd) as [Hsize Hall].
  split; [exact Hsize|]. split; [|exact Hcur].
  apply Hall. simpl. set_solver.
Defined.

Lemma deserialize_lookup (t : Serialized.tree_t) k node :
  NoDup (Serialized.nodes t).*1 ->
  LearningTree.nodes (deserialize_tree t) !! k = Some node <-> (k, node) ∈ Serialized.nodes t.
Proof.
  intros Hnd. simpl. split.
  - intros H. apply set_all_lookup_Some in H as [H|H]; [exact H|].
    now rewrite lookup_empty in H.
  - now apply set_all_lookup_distinct.
Qed.

Lemma deserialize_keys (t : Serialized.tree_t) k :
  is_Some (LearningTree.nodes (deserialize_tree t) !! k) <-> k ∈ (Serialized.nodes t).*1.
Proof.
  simpl. rewrite set_all_is_Some, lookup_empty.
  split; [intros [H|[x H]]; [exact H | discriminate] | now left].
Qed.

(** Serializing a tree and deserializing it again gives the tree back;
    the ids of a serialized node map are pairwise distinct. *)
Lemma deserialize_serialize (tree : LearningTree.t) :
  NoDup (Serialized.nodes (TreeState.serialize_tree tree)).*1
  /\ deserialize_tree (TreeState.serialize_tree tree) = tree.
Proof.
  assert (Hnd : NoDup (Serialized.nodes (TreeState.serialize_tree tree)).*1)
    by apply NoDup_fst_map_to_list.
  split; [exact Hnd|]. destruct tree as [nodes roots current].
  unfold deserialize_tree. simpl. f_equal. apply map_eq. intros k.
  destruct (nodes !! k) as [node|] eqn:E.
  - apply set_all_lookup_distinct; [exact Hnd|]. now apply elem_of_map_to_list.
  - apply eq_None_not_Some. rewrite set_all_is_Some, lookup_empty.
    intros [Hin|[x Hx]]; [|discriminate].
    apply list_elem_of_fmap in Hin as ([k' node] & -> & Hin).
    apply elem_of_map_to_list in Hin. simpl in E. congruence.
Qed.

Lemma deserialize_invariants (t : Serialized.tree_t) :
  serialized_invariants t -> tree_invariants (deserialize_tree t).
Proof.
  intros (Hnd & Hch & Hpar & Hroot & Hcur). repeat split.
  - intros k node c Hk Hc. apply deserialize_keys.
    apply (deserialize_lookup t k node Hnd) in Hk. now apply (Hch k node c).
  - intros k node p Hk Hp. apply (deserialize_lookup t k node Hnd) in Hk.
    destruct (Hpar k node p Hk Hp) as (parent & Hin & Hcount).
    exists parent. split; [now apply deserialize_lookup | exact Hcount].
  - intros Hin. apply Hroot in Hin as (node & Hin & Hp).
    exists node. split; [now apply deserialize_lookup | exact Hp].
  - intros (node & Hk & Hp). apply Hroot. exists node.
    split; [now apply (deserialize_lookup t k node Hnd) | exact Hp].
  - now apply deserialize_keys.
Qed.

(** C7, as stated, fails: the remote store may hold any serialized tree,
    and the tree returned for [broken_tree] violates each of the four
    invariants. *)
Lemma loadCachedSession_no_validation :
  exists session,
    loadCachedSession (serves broken_tree) "Photosynthesis" = Fulfilled (Some session)
    /\ ~ children_exist (VideoSession.tree session)
    /\ ~ once_in_parent (VideoSession.tree session)
    /\ ~ roots_exact (VideoSession.tree session)
    /\ ~ current_exists (VideoSession.tree session).
Proof.
  exists (deserialize (sample_serialized broken_tree)).
  split; [reflexivity|].
  assert (Ha : LearningTree.nodes (deserialize_tree broken_tree) !! "a"%string
               = Some (sample_node "a" (Some "p"%string) ["ghost"%string] 0)).
  { apply deserialize_lookup; simpl; [repeat constructor; set_solver | set_solver]. }
  assert (Hkeys : forall k, k <> "a"%string ->
            LearningTree.nodes (deserialize_tree broken_tree) !! k = None).
  { intros k Hk. apply eq_None_not_Some. rewrite deserialize_keys. simpl. set_solver. }
  repeat split.
  - intros H. specialize (H _ _ "ghost"%string Ha). simpl in H.
    rewrite Hkeys in H by discriminate.
    destruct H as [x Hx]; [set_solver | discriminate].
  - intros H. destruct (H _ _ "p"%string Ha eq_refl) as (parent & Hp & _).
    rewrite Hkeys in Hp by discriminate. discriminate.
  - intros H. destruct (proj1 (H "zzz"%string)) as (node & Hn & _); [simpl; set_solver|].
    rewrite Hkeys in Hn by discriminate. discriminate.
  - intros [x Hx]. simpl in Hx. change (set_all ∅ (Serialized.nodes broken_tree))
      with (LearningTree.nodes (deserialize_tree broken_tree)) in Hx.
    rewrite Hkeys in Hx by discriminate. discriminate.
Qed.

(** C7, amended. [loadCachedSession] validates nothing; the tree it
    returns satisfies the structural invariants whenever the serialized
    tree it fetched does (distinct ids, every [childIds] entry an id of
    the array, every node with a [parentId] exactly once in that parent's
    [childIds], [rootIds] exactly the ids without [parentId],
    [currentNodeId] an id of the array). *)
Theorem loadCachedSession_keeps_invariants remote topic sessionPath status data :
  JS.get CACHED_SESSIONS topic = Some sessionPath ->
  remote sessionPath = Response true status (BodySession data) ->
  serialized_invariants (Serialized.tree data) ->
  exists session,
    loadCachedSession remote topic = Fulfilled (Some session)
    /\ tree_invariants (VideoSession.tree session).
Proof.
  intros Hget Hfetch Hinv. exists (deserialize data).
  split; [now apply (load_success remote topic sessionPath status)|].
  now apply deserialize_invariants.
Qed.

Lemma good_tree_invariants : serialized_invariants good_tree.
Proof.
  unfold serialized_invariants; simpl. split; [repeat constructor; set_solver|].
  split; [|split; [|split]].
  - intros k node c Hin Hc. set_unfold.
    destruct Hin as [[= -> ->]|[[= -> ->]|[]]]; simpl in Hc; set_solver.
  - intros k node p Hin Hp. set_unfold.
    destruct Hin as [[= -> ->]|[[= -> ->]|[]]]; simpl in Hp; [discriminate|].
    injection Hp as <-. exists (sample_node "n1" None ["n2"%string] 0).
    split; [now left | reflexivity].
  - intros k. split.
    + intros Hk. assert (k = "n1"%string) as -> by set_solver.
      exists (sample_node "n1" None ["n2"%string] 0). split; [set_solver | reflexivity].
    + intros (node & Hin & Hp). set_unfold.
      destruct Hin as [[= -> ->]|[[= -> ->]|[]]]; simpl in Hp; [now left | discriminate].
  - set_solver.
Defined.

Lemma loadCachedSession_keeps_invariants_witness :
  JS.get CACHED_SESSIONS "Photosynthesis" = Some photosynthesis_url
  /\ serves good_tree photosynthesis_url
       = Response true 200 (BodySession (sample_serialized good_tree))
  /\ serialized_invariants good_tree
  /\ exists session,
       loadCachedSession (serves good_tree) "Photosynthesis" = Fulfilled (Some session)
       /\ tree_invariants (VideoSession.tree session).
Proof.
  split; [reflexivity|]. split; [reflexivity|]. split; [exact good_tree_invariants|].
  exact (loadCachedSession_keeps_invariants (serves good_tree) "Photosynthesis"
           photosynthesis_url 200 (sample_serialized good_tree)
           eq_refl eq_refl good_tree_invariants).
Defined.


End LoadFacts.

(* ===================================================================== *)
(** * Loading the stored session *)
(* ===================================================================== *)

Module HomePageFacts.
Import HomePage Samples.

Lemma has_spec (nodes : gmap string TreeNode.t) (key : string) :
  has nodes key = true <-> is_Some (nodes !! key).
Proof. unfold has. apply bool_decide_eq_true. Qed.

Lemma isValidNode_spec (tree : LearningTree.t) :
  isValidNode tree = true <->
  LearningTree.currentNodeId tree <> EmptyString
  /\ is_Some (LearningTree.nodes tree !! LearningTree.currentNodeId tree).
Proof.
  unfold isValidNode. now rewrite andb_true_iff, JSFacts.truthy_true, has_spec.
Qed.

Lemma non_empty_size (nodes : gmap string TreeNode.t) :
  nodes <> ∅ -> (0 <? size nodes) = true.
Proof.
  intros H. apply Nat.ltb_lt. destruct (size nodes) eqn:E; [|lia].
  apply map_size_empty_iff in E. contradiction.
Qed.

(** A stored session whose tree is empty, or invalid without any root,
    is not loaded. *)
Lemma load_session_effect_rejects (cached : VideoSession.t) :
  let tree := VideoSession.tree cached in
  LearningTree.nodes tree = ∅
  \/ (isValidNode tree = false /\ LearningTree.rootIds tree = []) ->
  load_session_effect (Some cached) = None.
Proof.
  intros tree [H|[Hv Hr]]; unfold load_session_effect; fold tree.
  - now rewrite H, map_size_empty.
  - rewrite Hv, Hr. simpl. now destruct (0 <? size (LearningTree.nodes tree)).
Qed.

(** C2. On session load with a non-empty tree: when the stored
    [currentNodeId] is empty or is not a key of the node map and
    [rootIds] is not empty, the session is loaded with [currentNodeId]
    reset to [rootIds[0]] (and nothing else changed); when the stored
    [currentNodeId] is a (non-empty) key of the node map, the session is
    loaded unchanged. *)
Theorem load_session_effect_spec (cached : VideoSession.t) :
  let tree := VideoSession.tree cached in
  let current := LearningTree.currentNodeId tree in
  LearningTree.nodes tree <> ∅ ->
  (current = EmptyString \/ LearningTree.nodes tree !! current = None ->
   forall root0 rest, LearningTree.rootIds tree = root0 :: rest ->
     exists loaded,
       load_session_effect (Some cached) = Some loaded
       /\ LearningTree.currentNodeId (VideoSession.tree loaded) = root0
       /\ loaded = with_tree cached (LearningTree.with_currentNodeId tree root0))
  /\ (current <> EmptyString -> is_Some (LearningTree.nodes tree !! current) ->
      load_session_effect (Some cached) = Some cached).
Proof.
  intros tree current Hne. unfold load_session_effect. fold tree.
  rewrite (non_empty_size _ Hne). split.
  - intros Hbad root0 rest Hroots.
    assert (Hv : isValidNode tree = false).
    { apply not_true_is_false. rewrite isValidNode_spec. fold current.
      intros [H1 [x H2]]. destruct Hbad as [Hbad|Hbad]; congruence. }
    rewrite Hv, Hroots. simpl. eauto.
  - intros H1 H2.
    assert (Hv : isValidNode tree = true) by now apply isValidNode_spec.
    now rewrite Hv.
Qed.

Lemma load_session_effect_spec_witness :
  LearningTree.nodes (VideoSession.tree (stored_sample "gone")) <> ∅
  /\ load_session_effect (Some (stored_sample "gone")) = Some (stored_sample "n1")
  /\ load_session_effect (Some (stored_sample "n1")) = Some (stored_sample "n1").
Proof.
  assert (Hne : forall c, LearningTree.nodes (VideoSession.tree (stored_sample c)) <> ∅).
  { intros c. apply insert_non_empty. }
  split; [apply Hne|]. split.
  - destruct (load_session_effect_spec (stored_sample "gone") (Hne _)) as [Hreset _].
    destruct (Hreset (or_intror eq_refl) "n1"%string [] eq_refl) as (loaded & Hl & _ & ->).
    exact Hl.
  - destruct (load_session_effect_spec (stored_sample "n1") (Hne _)) as [_ Hkeep].
    apply Hkeep; [discriminate | now exists (sample_node "n1" None [] 0)].
Defined.

End HomePageFacts.

(* ===================================================================== *)
(** * Properties of sorting and slicing *)
(* ===================================================================== *)

Module JSArrayFacts.
Import JSArray.

Section Sort.
Context {A : Type}.
Variable before : A -> A -> bool.
Hypothesis before_total : forall x y, before x y = false -> before y x = true.
Hypothesis before_trans :
  forall x y z, before x y = true -> before y z = true -> before x z = true.

Lemma insert_perm (x : A) (l : list A) : insert before x l ≡ₚ x :: l.
Proof.
  induction l as [|y l IH]; simpl; [reflexivity|].
  destruct (before x y); [reflexivity|]. rewrite IH. apply Permutation_swap.
Qed.

Lemma sort_perm (l : list A) : sort before l ≡ₚ l.
Proof.
  induction l as [|x l IH]; simpl; [reflexivity|].
  rewrite insert_perm. now rewrite IH.
Qed.

Lemma insert_sorted (x : A) (l : list A) :
  StronglySorted (precedes before) l -> StronglySorted (precedes before) (insert before x l).
Proof.
  induction l as [|y l IH]; intros Hs; simpl.
  - repeat constructor.
  - apply StronglySorted_inv in Hs as [Hs Hall].
    destruct (before x y) eqn:E.
    + constructor; [now constructor|]. constructor; [exact E|].
      eapply Forall_impl; [exact Hall|]. intros z Hz. now apply (before_trans x y z).
    + constructor; [now apply IH|].
      rewrite insert_perm. constructor; [now apply before_total | exact Hall].
Qed.

Lemma sort_sorted (l : list A) : StronglySorted (precedes before) (sort before l).
Proof.
  induction l as [|x l IH]; simpl; [constructor | now apply insert_sorted].
Qed.

Lemma sort_head_least (l : list A) (x : A) :
  head (sort before l) = Some x ->
  forall y, y ∈ l -> y = x \/ precedes before x y.
Proof.
  intros Hh y Hy. rewrite <- sort_perm in Hy. pose proof (sort_sorted l) as Hs.
  destruct (sort before l) as [|z rest]; [discriminate|].
  injection Hh as ->. apply StronglySorted_inv in Hs as [_ Hall].
  apply elem_of_cons in Hy as [->|Hy]; [now left|right].
  rewrite Forall_forall in Hall. now apply Hall.
Qed.
End Sort.

(** The sort orders an array on whose elements the comparator is total
    and transitive, whatever it does elsewhere. *)
Section SortOn.
Context {A : Type}.
Variable before : A -> A -> bool.
Variable domain : list A.
Hypothesis before_total_on :
  forall x y, x ∈ domain -> y ∈ domain -> before x y = false -> before y x = true.
Hypothesis before_trans_on :
  forall x y z, x ∈ domain -> y ∈ domain -> z ∈ domain ->
    before x y = true -> before y z = true -> before x z = true.

Lemma insert_sorted_on (x : A) (l : list A) :
  x ∈ domain -> l ⊆ domain ->
  StronglySorted (precedes before) l -> StronglySorted (precedes before) (insert before x l).
Proof.
  intros Hx. induction l as [|y l IH]; intros Hl Hs; simpl.
  - repeat constructor.
  - assert (Hy : y ∈ domain) by (apply Hl; now left).
    assert (Hl' : l ⊆ domain) by (intros z Hz; apply Hl; now right).
    apply StronglySorted_inv in Hs as [Hs Hall].
    destruct (before x y) eqn:E.
    + constructor; [now constructor|]. constructor; [exact E|].
      rewrite Forall_forall in Hall. apply Forall_forall. intros z Hz.
      apply (before_trans_on x y z); auto. now apply Hall.
    + constructor; [now apply IH|].
      rewrite insert_perm. constructor; [now apply before_total_on | exact Hall].
Qed.

Lemma sort_sorted_on (l : list A) :
  l ⊆ domain -> StronglySorted (precedes before) (sort before l).
Proof.
  induction l as [|x l IH]; intros Hl; simpl; [constructor|].
  apply insert_sorted_on.
  - apply Hl. now left.
  - intros z Hz. rewrite sort_perm in Hz. apply Hl. now right.
  - apply IH. intros z Hz. apply Hl. now right.
Qed.
End SortOn.

Lemma StronglySorted_impl_elem {A} (R R' : A -> A -> Prop) (l : list A) :
  (forall x y, x ∈ l -> y ∈ l -> R x y -> R' x y) ->
  StronglySorted R l -> StronglySorted R' l.
Proof.
  intros Himpl Hs. induction Hs as [|x l Hs IH Hall]; constructor.
  - apply IH. intros a b Ha Hb. apply Himpl; now right.
  - rewrite Forall_forall in Hall. apply Forall_forall. intros y Hy.
    apply Himpl; [now left | now right | now apply Hall].
Qed.

Lemma take_strongly_sorted {A} (R : A -> A -> Prop) (n : nat) (l : list A) :
  StronglySorted R l -> StronglySorted R (take n l).
Proof.
  revert n. induction l as [|x l IH]; intros n Hs; destruct n; simpl;
    try constructor.
  - apply IH. now apply StronglySorted_inv in Hs.
  - apply StronglySorted_inv in Hs as [_ Hall].
    apply Forall_take. exact Hall.
Qed.

Lemma slice0_length {A} (l : list A) (n : Z) :
  (0 <= n)%Z -> (Z.of_nat (length (slice0 l n)) <= n)%Z.
Proof.
  intros Hn. unfold slice0. destruct (n <? 0)%Z eqn:E; [lia|].
  rewrite length_take. lia.
Qed.

(** A negative end counts from the end of the array. *)
Example slice0_negative : slice0 [1; 2; 3] (-1) = [1; 2].
Proof. reflexivity. Qed.

Lemma slice0_prefix {A} (l : list A) (n : Z) : exists k, slice0 l n = take k l.
Proof. unfold slice0. destruct (n <? 0)%Z; eauto. Qed.

End JSArrayFacts.

(* ===================================================================== *)
(** * Properties of the navigation *)
(* ===================================================================== *)

Module TreeStateFacts.
Import TreeState TreeSpec Samples.

Lemma branch_before_total x y : branch_before x y = false -> branch_before y x = true.
Proof. unfold branch_before. lia. Qed.

Lemma branch_before_trans x y z :
  branch_before x y = true -> branch_before y z = true -> branch_before x z = true.
Proof. unfold branch_before. lia. Qed.

Lemma child_nodes_elem (tree : LearningTree.t) (k : string) (node child : TreeNode.t) :
  LearningTree.nodes tree !! k = Some node ->
  child ∈ child_nodes tree k <->
  exists c, c ∈ TreeNode.childIds node /\ LearningTree.nodes tree !! c = Some child.
Proof. intros Hk. unfold child_nodes. rewrite Hk. apply list_elem_of_omap. Qed.

Lemma getChildren_elem (tree : LearningTree.t) (k : string) (child : TreeNode.t) :
  child ∈ getChildren tree k <-> child ∈ child_nodes tree k.
Proof. unfold getChildren. now rewrite JSArrayFacts.sort_perm. Qed.

Lemma getNextNode_None (tree : LearningTree.t) (k : string) :
  getNextNode tree k = None <-> child_nodes tree k = [].
Proof.
  unfold getNextNode, getChildren. split.
  - intros H. apply Permutation_nil_r.
    rewrite <- (JSArrayFacts.sort_perm branch_before (child_nodes tree k)).
    now destruct (JSArray.sort branch_before (child_nodes tree k)).
  - now intros ->.
Qed.

(** C6. In a well-formed tree, for a node [n] stored under [k]: when [n]
    has a child, [getNextNode] returns one of its children, of the lowest
    [branchIndex] among them, and [getPreviousNode] of that child is [n]
    again; when [n] has no child [getNextNode] returns none; and
    [getPreviousNode] returns none exactly when [n] has no parent. *)
Theorem next_then_previous (tree : LearningTree.t) (k : string) (n : TreeNode.t) :
  well_formed tree ->
  LearningTree.nodes tree !! k = Some n ->
  (TreeNode.childIds n <> [] ->
     exists next,
       getNextNode tree k = Some next
       /\ TreeNode.id next ∈ TreeNode.childIds n
       /\ LearningTree.nodes tree !! TreeNode.id next = Some next
       /\ (forall c child, c ∈ TreeNode.childIds n ->
             LearningTree.nodes tree !! c = Some child ->
             (TreeNode.branchIndex next <= TreeNode.branchIndex child)%Z)
       /\ getPreviousNode tree (TreeNode.id next) = Some n)
  /\ (TreeNode.childIds n = [] -> getNextNode tree k = None)
  /\ (getPreviousNode tree k = None <-> TreeNode.parentId n = None).
Proof.
  intros (Hid & Hchild & Hparent) Hk. split; [|split].
  - intros Hne. destruct (getNextNode tree k) as [next|] eqn:Hnext.
    + assert (Hin : next ∈ child_nodes tree k).
      { apply getChildren_elem. unfold getNextNode in Hnext.
        destruct (getChildren tree k); [discriminate|].
        injection Hnext as ->. now left. }
      apply (child_nodes_elem tree k n next Hk) in Hin as (c & Hc & Hlook).
      pose proof (Hid c next Hlook) as Hidc.
      destruct (Hchild k n c Hk Hc) as (child & Hlook' & Hpar).
      assert (child = next) as -> by congruence.
      exists next. rewrite Hidc. repeat split; try assumption.
      * intros c' child' Hc' Hlook''.
        assert (Hin' : child' ∈ child_nodes tree k).
        { apply (child_nodes_elem tree k n child' Hk). eauto. }
        destruct (JSArrayFacts.sort_head_least branch_before branch_before_total
                    branch_before_trans (child_nodes tree k) next Hnext child' Hin')
          as [->|Hle]; [lia|].
        unfold JSArray.precedes, branch_before in Hle. lia.
      * unfold getPreviousNode. now rewrite Hlook, Hpar.
    + exfalso. apply getNextNode_None in Hnext.
      destruct (TreeNode.childIds n) as [|c rest] eqn:E; [congruence|].
      destruct (Hchild k n c Hk) as (child & Hlook & _); [rewrite E; now left|].
      assert (Hin : child ∈ child_nodes tree k).
      { apply (child_nodes_elem tree k n child Hk). exists c. rewrite E. split; [now left|done]. }
      rewrite Hnext in Hin. now apply elem_of_nil in Hin.
  - intros Hnil. apply getNextNode_None. unfold child_nodes. now rewrite Hk, Hnil.
  - unfold getPreviousNode. rewrite Hk.
    destruct (TreeNode.parentId n) as [p|] eqn:Hp; [|tauto].
    destruct (Hparent k n p Hk Hp) as [parent Hlook]. rewrite Hlook. split; discriminate.
Qed.

Lemma family_lookup (k : string) (node : TreeNode.t) :
  LearningTree.nodes family !! k = Some node ->
  (k = "r"%string /\ node = sample_node "r" None ["a"%string; "b"%string] 0)
  \/ (k = "a"%string /\ node = sample_node "a" (Some "r"%string) [] 1)
  \/ (k = "b"%string /\ node = sample_node "b" (Some "r"%string) [] 0).
Proof.
  simpl. intros H.
  apply lookup_insert_Some in H as [[<- <-]|[_ H]]; [now left|].
  apply lookup_insert_Some in H as [[<- <-]|[_ H]]; [right; now left|].
  apply lookup_insert_Some in H as [[<- <-]|[_ H]]; [right; now right|].
  now rewrite lookup_empty in H.
Defined.

Lemma family_well_formed : well_formed family.
Proof.
  split; [|split].
  - intros k node H. apply family_lookup in H as [[-> ->]|[[-> ->]|[-> ->]]]; reflexivity.
  - intros k node c H Hc.
    apply family_lookup in H as [[-> ->]|[[-> ->]|[-> ->]]]; simpl in Hc.
    + apply elem_of_cons in Hc as [->|Hc].
      * exists (sample_node "a" (Some "r"%string) [] 1). now split.
      * apply list_elem_of_singleton in Hc as ->.
        exists (sample_node "b" (Some "r"%string) [] 0). now split.
    + now apply elem_of_nil in Hc.
    + now apply elem_of_nil in Hc.
  - intros k node p H Hp.
    apply family_lookup in H as [[-> ->]|[[-> ->]|[-> ->]]]; simpl in Hp;
      try discriminate; injection Hp as <-; eexists; reflexivity.
Defined.

Lemma next_then_previous_witness :
  well_formed family
  /\ LearningTree.nodes family !! "r"%string
       = Some (sample_node "r" None ["a"%string; "b"%string] 0)
  /\ getNextNode family "r" = Some (sample_node "b" (Some "r"%string) [] 0)
  /\ getPreviousNode family "b"
       = Some (sample_node "r" None ["a"%string; "b"%string] 0)
  /\ (getPreviousNode family "r" = None <-> @None string = None).
Proof.
  split; [exact family_well_formed|]. split; [reflexivity|].
  destruct (next_then_previous family "r"
              (sample_node "r" None ["a"%string; "b"%string] 0)
              family_well_formed eq_refl) as (_ & _ & Hprev).
  split; [reflexivity|]. split; [reflexivity|]. exact Hprev.
Defined.

End TreeStateFacts.

(* ===================================================================== *)
(** * Properties of the carousel *)
(* ===================================================================== *)

Module NodeCarouselFacts.
Import NodeCarousel Samples.

Lemma filter_unseen_spec (seen : gset string) (l : list TreeNode.t) :
  filter_unseen seen l
  = filter (fun n => TreeNode.id n ∉ seen) (first_occurrences l).
Proof.
  revert seen. induction l as [|node rest IH]; intros seen; simpl; [reflexivity|].
  case_bool_decide as Hseen.
  - rewrite filter_cons_False by (intros H; contradiction).
    rewrite list_filter_filter, IH. apply list_filter_iff.
    intros n. split; [|tauto]. intros Hn. split; [exact Hn|]. congruence.
  - rewrite filter_cons_True by exact Hseen. f_equal.
    rewrite list_filter_filter, IH. apply list_filter_iff.
    intros n. set_solver.
Qed.

Lemma filter_unseen_empty (l : list TreeNode.t) :
  filter_unseen ∅ l = first_occurrences l.
Proof.
  rewrite filter_unseen_spec. induction (first_occurrences l) as [|n rest IH]; [reflexivity|].
  rewrite filter_cons_True by apply not_elem_of_empty. now rewrite IH.
Qed.

Lemma first_occurrences_sublist (l : list TreeNode.t) : sublist (first_occurrences l) l.
Proof.
  induction l as [|node rest IH]; simpl; [constructor|].
  apply sublist_skip. etransitivity; [apply sublist_filter | exact IH].
Qed.

Lemma first_occurrences_ids (l : list TreeNode.t) (n : TreeNode.t) :
  n ∈ l -> TreeNode.id n ∈ TreeNode.id <$> first_occurrences l.
Proof.
  induction l as [|node rest IH]; intros Hn; [now apply elem_of_nil in Hn|].
  simpl. apply elem_of_cons in Hn as [->|Hn]; [now left|].
  destruct (decide (TreeNode.id n = TreeNode.id node)) as [->|Hne]; [now left|].
  right. apply IH in Hn. apply list_elem_of_fmap in Hn as (m & Hm & Hin).
  apply list_elem_of_fmap. exists m. split; [exact Hm|].
  apply list_elem_of_filter. split; [congruence | exact Hin].
Qed.

Lemma first_occurrences_NoDup (l : list TreeNode.t) :
  NoDup (TreeNode.id <$> first_occurrences l).
Proof.
  induction l as [|node rest IH]; simpl; [constructor|].
  apply NoDup_cons. split.
  - intros Hin. apply list_elem_of_fmap in Hin as (m & Hm & Hin).
    apply list_elem_of_filter in Hin as [Hne _]. congruence.
  - assert (Hs : sublist
      (TreeNode.id <$> filter (fun n => TreeNode.id n ≠ TreeNode.id node)
                         (first_occurrences rest))
      (TreeNode.id <$> first_occurrences rest))
      by apply fmap_sublist, sublist_filter.
    eapply sublist_NoDup; eassumption.
Qed.

(** C10. With no current node the carousel is empty. With a current
    node, the carousel is the path from the root to the current node
    followed by the current node's children, each id kept at its first
    occurrence only: no id occurs twice, the order of the sequence is
    preserved, and every node of the sequence is represented by its id.
    (If [getPathFromRoot] throws, so does [getCarouselNodes].) *)
Theorem getCarouselNodes_spec
    (getCurrentNode : LearningTree.t -> option TreeNode.t)
    (getPathFromRoot : LearningTree.t -> string -> Try (list TreeNode.t))
    (getChildren : LearningTree.t -> string -> list TreeNode.t)
    (tree : LearningTree.t) :
  let carousel := getCarouselNodes getCurrentNode getPathFromRoot getChildren tree in
  match getCurrentNode tree with
  | None => carousel = ret []
  | Some currentNode =>
      match getPathFromRoot tree (TreeNode.id currentNode) with
      | inl e => carousel = throw e
      | inr pathNodes =>
          let sequence := pathNodes ++ getChildren tree (TreeNode.id currentNode) in
          exists shown,
            carousel = ret shown
            /\ shown = first_occurrences sequence
            /\ NoDup (TreeNode.id <$> shown)
            /\ sublist shown sequence
            /\ forall n, n ∈ sequence -> TreeNode.id n ∈ TreeNode.id <$> shown
      end
  end.
Proof.
  intros carousel. unfold carousel, getCarouselNodes.
  destruct (getCurrentNode tree) as [currentNode|]; [|reflexivity].
  destruct (getPathFromRoot tree (TreeNode.id currentNode)) as [e|pathNodes]; simpl;
    [reflexivity|].
  eexists. split; [reflexivity|]. rewrite filter_unseen_empty.
  split; [reflexivity|]. split; [apply first_occurrences_NoDup|].
  split; [apply first_occurrences_sublist | apply first_occurrences_ids].
Qed.

(** The carousel of [family] when the current node is
    the child "a": the path r, a and no children. *)
Example carousel_of_family :
  getCarouselNodes TreeState.getCurrentNode TreeState.getPathFromRoot TreeState.getChildren
    (LearningTree.with_currentNodeId family "a")
  = ret [ sample_node "r" None ["a"%string; "b"%string] 0;
          sample_node "a" (Some "r"%string) [] 1 ].
Proof. now vm_compute. Qed.

End NodeCarouselFacts.

(* ===================================================================== *)
(** * Properties of the doubles *)
(* ===================================================================== *)

(** The order of the doubles and the sign of their differences, from the
    specification of the primitive floats ([FloatAxioms]). *)
Module DoubleFacts.

Ltac compare_cases :=
  change (PosDef.Pos.compare_cont Eq) with Pos.compare;
  repeat match goal with
         | |- context [(?a ?= ?b)%Z] => destruct (Z.compare_spec a b)
         | |- context [(?a ?= ?b)%positive] => destruct (Pos.compare_spec a b)
         end;
  simpl; intros; subst; try reflexivity; try discriminate; try lia.

Lemma SFleb_total (x y : spec_float) :
  SFleb x x = true -> SFleb y y = true -> SFleb x y = false -> SFleb y x = true.
Proof.
  unfold SFleb, SFcompare.
  destruct x as [sx|sx| |sx mx ex], y as [sy|sy| |sy my ey];
    try destruct sx; try destruct sy; compare_cases.
Qed.

Lemma SFleb_trans (x y z : spec_float) :
  SFleb x y = true -> SFleb y z = true -> SFleb x z = true.
Proof.
  unfold SFleb, SFcompare.
  destruct x as [sx|sx| |sx mx ex], y as [sy|sy| |sy my ey], z as [sz|sz| |sz mz ez];
    try destruct sx; try destruct sy; try destruct sz; compare_cases.
Qed.

(** Of two doubles that are not NaN one is at most the other. *)
Lemma leb_total (x y : float) :
  (x <=? x)%float = true -> (y <=? y)%float = true ->
  (x <=? y)%float = false -> (y <=? x)%float = true.
Proof. rewrite !leb_spec. apply SFleb_total. Qed.

Lemma leb_trans (x y z : float) :
  (x <=? y)%float = true -> (y <=? z)%float = true -> (x <=? z)%float = true.
Proof. rewrite !leb_spec. apply SFleb_trans. Qed.

Lemma double_mul_comm (x y : float) : (x * y = y * x)%float.
Proof.
  apply Prim2SF_inj. rewrite !mul_spec. unfold SF64mul, SFmul.
  destruct (Prim2SF x) as [sx|sx| |sx mx ex], (Prim2SF y) as [sy|sy| |sy my ey];
    try reflexivity; rewrite ?(xorb_comm sx sy); try reflexivity.
  now rewrite (Pos.mul_comm mx my), (Z.add_comm ex ey).
Qed.

(** [a - a] is 0 or NaN. *)
Lemma sub_diag_not_positive (a : float) : (0 <? a - a)%float = false.
Proof.
  rewrite ltb_spec, sub_spec. unfold SF64sub, SFsub.
  destruct (Prim2SF a) as [s|s| |s m e]; try (destruct s; reflexivity); try reflexivity.
  rewrite Z.sub_diag. reflexivity.
Qed.

(** ** The sign of a difference

    The difference of two doubles is rounded, but never to zero and
    never across it: its sign is that of the exact difference. *)

Local Open Scope Z_scope.

Lemma fexp_value (e : Z) : fexp prec emax e = Z.max (e - 53) (-1074).
Proof. reflexivity. Qed.

(** The number of binary digits of a mantissa. *)
Lemma digits2_pos_bounds (m : positive) :
  2 ^ (Z.pos (digits2_pos m) - 1) <= Z.pos m < 2 ^ Z.pos (digits2_pos m).
Proof.
  induction m as [m IH|m IH|]; cbn [digits2_pos].
  - rewrite Pos2Z.inj_succ, Z.pow_succ_r by lia.
    replace (Z.succ (Z.pos (digits2_pos m)) - 1) with (Z.succ (Z.pos (digits2_pos m) - 1)) by lia.
    rewrite Z.pow_succ_r by lia. lia.
  - rewrite Pos2Z.inj_succ, Z.pow_succ_r by lia.
    replace (Z.succ (Z.pos (digits2_pos m)) - 1) with (Z.succ (Z.pos (digits2_pos m) - 1)) by lia.
    rewrite Z.pow_succ_r by lia. lia.
  - simpl. lia.
Qed.

Lemma Zdigits2_shr_1 (mrs : shr_record) :
  0 <= shr_m mrs ->
  0 <= shr_m (shr_1 mrs)
  /\ Zdigits2 (shr_m (shr_1 mrs)) = Z.max (Zdigits2 (shr_m mrs) - 1) 0.
Proof.
  destruct mrs as [m r s]. simpl. intros Hm.
  destruct m as [|[p|p|]|p]; simpl; try lia.
Qed.

Lemma Zdigits2_iter_shr_1 (n : positive) (mrs : shr_record) :
  0 <= shr_m mrs ->
  0 <= shr_m (SpecFloat.iter_pos shr_1 n mrs)
  /\ Zdigits2 (shr_m (SpecFloat.iter_pos shr_1 n mrs)) = Z.max (Zdigits2 (shr_m mrs) - Z.pos n) 0.
Proof.
  revert mrs. induction n as [n IH|n IH|]; intros mrs Hm; cbn [SpecFloat.iter_pos].
  - destruct (Zdigits2_shr_1 mrs Hm) as [H0 E0].
    destruct (IH _ H0) as [H1 E1]. destruct (IH _ H1) as [H2 E2].
    split; [exact H2|]. rewrite E2, E1, E0. lia.
  - destruct (IH _ Hm) as [H1 E1]. destruct (IH _ H1) as [H2 E2].
    split; [exact H2|]. rewrite E2, E1. lia.
  - apply Zdigits2_shr_1. exact Hm.
Qed.

Lemma Zdigits2_positive (m : Z) : 0 <= m -> 0 < Zdigits2 m -> 0 < m.
Proof. destruct m; simpl; lia. Qed.

Lemma Zdigits2_of_positive (m : Z) : 0 < m -> 0 < Zdigits2 m.
Proof. destruct m; simpl; lia. Qed.

Lemma shr_record_of_loc_m (m : Z) (l : location) : shr_m (shr_record_of_loc m l) = m.
Proof. destruct l as [|[]]; reflexivity. Qed.

Lemma shr_fexp_positive (m e : Z) (l : location) :
  0 < m -> -1074 <= e ->
  0 < shr_m (fst (shr_fexp prec emax m e l)) /\ -1074 <= snd (shr_fexp prec emax m e l).
Proof.
  intros Hm He. unfold shr_fexp, shr. rewrite fexp_value.
  pose proof (Zdigits2_of_positive m Hm) as Hd.
  destruct (Z.max (Zdigits2 m + e - 53) (-1074) - e) as [|n|n] eqn:En; simpl;
    rewrite ?shr_record_of_loc_m; try (split; lia).
  destruct (Zdigits2_iter_shr_1 n (shr_record_of_loc m l)) as [H0 E].
  { rewrite shr_record_of_loc_m. lia. }
  rewrite shr_record_of_loc_m in E. split; [|lia].
  apply Zdigits2_positive; [exact H0|]. rewrite E. lia.
Qed.

Lemma round_nearest_even_positive (m : Z) (l : location) :
  0 < m -> 0 < round_nearest_even m l.
Proof. intros Hm. destruct l as [|[]]; simpl; try lia. destruct (Z.even m); lia. Qed.

(** Rounding keeps the sign and never gives NaN or zero. *)
Lemma binary_round_aux_sign (s : bool) (m e : Z) (l : location) :
  0 < m -> -1074 <= e ->
  (exists m' e', binary_round_aux prec emax s m e l = S754_finite s m' e')
  \/ binary_round_aux prec emax s m e l = S754_infinity s.
Proof.
  intros Hm He. unfold binary_round_aux.
  destruct (shr_fexp_positive m e l Hm He) as [H1 He1].
  destruct (shr_fexp prec emax m e l) as [mrs' e']. simpl in H1, He1.
  pose proof (round_nearest_even_positive _ (loc_of_shr_record mrs') H1) as H2.
  destruct (shr_fexp_positive _ e' loc_Exact H2 He1) as [H3 _].
  destruct (shr_fexp prec emax _ e' loc_Exact) as [mrs'' e'']. simpl in H3.
  destruct (shr_m mrs'') as [|p|p]; try lia.
  destruct (e'' <=? emax - prec); [left; eauto | now right].
Qed.

Lemma binary_round_sign (s : bool) (m : positive) (e : Z) :
  -1074 <= e ->
  (exists m' e', binary_round prec emax s m e = S754_finite s m' e')
  \/ binary_round prec emax s m e = S754_infinity s.
Proof.
  intros He. unfold binary_round, shl_align. rewrite fexp_value.
  destruct (Z.max (Z.pos (digits2_pos m) + e - 53) (-1074) - e) eqn:En;
    apply binary_round_aux_sign; lia.
Qed.

Lemma binary_normalize_positive (D e : Z) :
  -1074 <= e ->
  SFltb (S754_zero false) (binary_normalize prec emax D e false) = (0 <? D).
Proof.
  intros He. destruct D as [|m|m]; simpl.
  - reflexivity.
  - destruct (binary_round_sign false m e He) as [(m' & e' & ->)| ->]; reflexivity.
  - destruct (binary_round_sign true m e He) as [(m' & e' & ->)| ->]; reflexivity.
Qed.

Lemma bounded_canonical (m : positive) (e : Z) :
  bounded prec emax m e = true ->
  -1074 <= e /\ Z.pos (digits2_pos m) <= 53 /\ (e = -1074 \/ Z.pos (digits2_pos m) = 53).
Proof.
  unfold bounded, canonical_mantissa. rewrite fexp_value.
  intros H. apply andb_true_iff in H as [H _]. apply Z.eqb_eq in H. lia.
Qed.

Lemma shl_align_value (m : positive) (e ez : Z) :
  ez <= e -> Z.pos (fst (shl_align m e ez)) = Z.pos m * 2 ^ (e - ez).
Proof.
  intros Hle. unfold shl_align. destruct (ez - e) as [|d|d] eqn:E; try lia.
  - replace (e - ez) with 0 by lia. simpl. lia.
  - cbn [fst]. change (Pos.iter xO m d) with (shift_pos d m).
    rewrite shift_pos_correct, Z.pow_pos_fold. replace (e - ez) with (Z.pos d) by lia. lia.
Qed.

(** Of two canonical mantissas, the one with the greater exponent
    stands for the greater number. *)
Lemma greater_exponent (m1 m2 : positive) (e1 e2 : Z) :
  bounded prec emax m1 e1 = true -> bounded prec emax m2 e2 = true ->
  e1 < e2 -> Z.pos m1 < Z.pos m2 * 2 ^ (e2 - e1).
Proof.
  intros H1 H2 Hlt.
  apply bounded_canonical in H1 as (Hmin1 & Hd1 & _).
  apply bounded_canonical in H2 as (Hmin2 & Hd2 & He2).
  assert (Hfull : Z.pos (digits2_pos m2) = 53) by lia.
  pose proof (digits2_pos_bounds m1) as [_ Hup].
  pose proof (digits2_pos_bounds m2) as [Hlow _]. rewrite Hfull in Hlow.
  assert (H53 : 2 ^ Z.pos (digits2_pos m1) <= 2 ^ 53) by (apply Z.pow_le_mono_r; lia).
  assert (Hk : 2 ^ 1 <= 2 ^ (e2 - e1)) by (apply Z.pow_le_mono_r; lia).
  change (2 ^ 53) with 9007199254740992 in H53.
  change (2 ^ (53 - 1)) with 4503599627370496 in Hlow.
  change (2 ^ 1) with 2 in Hk. nia.
Qed.

Lemma SFsub_sign (x y : spec_float) :
  SpecFloat.valid_binary prec emax x = true -> SpecFloat.valid_binary prec emax y = true ->
  x <> S754_nan -> y <> S754_nan ->
  SFltb (S754_zero false) (SFsub prec emax y x) = negb (SFleb y x).
Proof.
  intros Hx Hy Hnx Hny.
  destruct x as [sx|sx| |sx mx ex], y as [sy|sy| |sy my ey]; try congruence;
    try (destruct sx; destruct sy; reflexivity); try (destruct sx; reflexivity);
    try (destruct sy; reflexivity).
  cbn [SFsub]. simpl in Hx, Hy.
  pose proof (bounded_canonical _ _ Hx) as (Hminx & _ & _).
  pose proof (bounded_canonical _ _ Hy) as (Hminy & _ & _).
  rewrite binary_normalize_positive by lia.
  rewrite (shl_align_value my ey) by lia. rewrite (shl_align_value mx ex) by lia.
  assert (Hpy : 0 < 2 ^ (ey - Z.min ey ex)) by (apply Z.pow_pos_nonneg; lia).
  assert (Hpx : 0 < 2 ^ (ex - Z.min ey ex)) by (apply Z.pow_pos_nonneg; lia).
  unfold SFleb, SFcompare.
  change (PosDef.Pos.compare_cont Eq) with Pos.compare.
  destruct (Z.compare_spec ey ex) as [He|He|He].
  - subst ex. rewrite Z.min_id, Z.sub_diag in *. change (2 ^ 0) with 1. rewrite !Z.mul_1_r.
    destruct (Pos.compare_spec my mx) as [Hm|Hm|Hm]; destruct sy, sx; simpl;
      apply Z.ltb_lt || apply Z.ltb_ge; lia.
  - pose proof (greater_exponent my mx ey ex Hy Hx He) as Hlt.
    rewrite Z.min_l in * by lia. rewrite Z.sub_diag. change (2 ^ 0) with 1.
    rewrite Z.mul_1_r.
    destruct sy, sx; simpl; apply Z.ltb_lt || apply Z.ltb_ge; lia.
  - pose proof (greater_exponent mx my ex ey Hx Hy He) as Hlt.
    rewrite Z.min_r in * by lia. rewrite Z.sub_diag. change (2 ^ 0) with 1.
    rewrite Z.mul_1_r.
    destruct sy, sx; simpl; apply Z.ltb_lt || apply Z.ltb_ge; lia.
Qed.

Lemma is_nan_spec (a : float) : is_nan a = false -> Prim2SF a <> S754_nan.
Proof.
  unfold is_nan. rewrite FloatAxioms.eqb_spec. intros H Hn. rewrite Hn in H. discriminate.
Qed.

(** On doubles that are not NaN, the sign of [b - a] tells whether
    [a < b]. *)
Lemma sub_positive (a b : float) :
  is_nan a = false -> is_nan b = false ->
  (0 <? b - a)%float = negb (b <=? a)%float.
Proof.
  intros Ha Hb. rewrite ltb_spec, sub_spec, leb_spec.
  apply SFsub_sign; auto using Prim2SF_valid, is_nan_spec.
Qed.

Local Close Scope Z_scope.

(** A double that is not NaN is at most itself. *)
Lemma leb_refl (a : float) : is_nan a = false -> (a <=? a)%float = true.
Proof.
  intros Ha. pose proof (sub_positive a a Ha Ha) as H.
  rewrite sub_diag_not_positive in H. now destruct (a <=? a)%float.
Qed.

(** The double of a component: the rational itself, or the nearest
    double, ties to even. *)
Example double_of_half : double_of (1 # 2) = 0.5%float.
Proof. reflexivity. Qed.

Example double_of_tenth : double_of (1 # 10) = 0x1.999999999999ap-4%float.
Proof. reflexivity. Qed.

Example double_of_tie : double_of (9007199254740993 # 1) = 9007199254740992%float.
Proof. reflexivity. Qed.

End DoubleFacts.

(* ===================================================================== *)
(** * Properties of the semantic search *)
(* ===================================================================== *)

Module SearchFacts.
Import Search SearchSpec DoubleFacts.

Lemma by_similarity_stays (a b : SearchResult) :
  by_similarity a b = stays_before (similarity a) (similarity b).
Proof. reflexivity. Qed.

Lemma no_nan_spec (l : list float) (a : float) :
  no_nan l = true -> a ∈ l -> is_nan a = false.
Proof.
  unfold no_nan. rewrite forallb_forall. intros H Ha.
  apply list_elem_of_In in Ha. now apply negb_true_iff, H.
Qed.

Lemma no_nan_subseteq (l l' : list float) :
  l' ⊆ l -> no_nan l = true -> no_nan l' = true.
Proof.
  intros Hsub H. unfold no_nan. apply forallb_forall. intros a Ha.
  apply list_elem_of_In in Ha. apply negb_true_iff.
  apply (no_nan_spec l); [exact H | now apply Hsub].
Qed.

(** On similarities that are not NaN the comparator orders as the
    doubles are ordered: [a] may stay before [b] exactly when [b <= a]. *)
Lemma stays_before_leb (a b : float) :
  is_nan a = false -> is_nan b = false -> stays_before a b = (b <=? a)%float.
Proof.
  intros Ha Hb. unfold stays_before. rewrite (sub_positive a b Ha Hb).
  apply negb_involutive.
Qed.

Lemma stays_before_total (a b : float) :
  is_nan a = false -> is_nan b = false ->
  stays_before a b = false -> stays_before b a = true.
Proof.
  intros Ha Hb. rewrite (stays_before_leb a b Ha Hb), (stays_before_leb b a Hb Ha).
  apply leb_total; now apply leb_refl.
Qed.

Lemma stays_before_trans (a b c : float) :
  is_nan a = false -> is_nan b = false -> is_nan c = false ->
  stays_before a b = true -> stays_before b c = true -> stays_before a c = true.
Proof.
  intros Ha Hb Hc.
  rewrite (stays_before_leb a b Ha Hb), (stays_before_leb b c Hb Hc),
    (stays_before_leb a c Ha Hc).
  intros H1 H2. now apply (leb_trans c b a).
Qed.

(** When no similarity is NaN, the sort puts the results in
    non-increasing order. *)
Lemma sort_non_increasing (found : list SearchResult) :
  no_nan (similarity <$> found) = true ->
  non_increasing (JSArray.sort by_similarity found).
Proof.
  intros H.
  assert (Hin : forall r, r ∈ found -> is_nan (similarity r) = false).
  { intros r Hr. apply (no_nan_spec _ _ H). apply list_elem_of_fmap. now exists r. }
  apply (JSArrayFacts.StronglySorted_impl_elem (JSArray.precedes by_similarity)).
  - intros a b Ha Hb Hp. rewrite JSArrayFacts.sort_perm in Ha, Hb.
    unfold JSArray.precedes in Hp. rewrite by_similarity_stays in Hp.
    now rewrite (stays_before_leb _ _ (Hin a Ha) (Hin b Hb)) in Hp.
  - apply (JSArrayFacts.sort_sorted_on by_similarity found).
    + intros a b Ha Hb. rewrite !by_similarity_stays.
      apply stays_before_total; auto.
    + intros a b c Ha Hb Hc. rewrite !by_similarity_stays.
      apply stays_before_trans; auto.
    + reflexivity.
Qed.

Lemma unmark_keys (marked : list Marked) : (unmark marked).*1 = marked_keys marked.
Proof.
  unfold unmark, marked_keys.
  induction marked as [|m rest IH]; simpl; [reflexivity | f_equal; exact IH].
Qed.

Lemma mark_keys (allNodes : list (string * TreeNode.t)) :
  marked_keys (mark allNodes) = allNodes.*1.
Proof.
  unfold mark, marked_keys.
  induction allNodes as [|kn rest IH]; simpl; [reflexivity | f_equal; exact IH].
Qed.

Lemma describe_all_keys backend i (marked : list Marked) :
  marked_keys (fst (describe_all backend i marked)) = marked_keys marked.
Proof.
  unfold marked_keys.
  revert i. induction marked as [|[[k node] []] rest IH]; intros i; simpl.
  - reflexivity.
  - destruct (describe backend i node); simpl; [reflexivity | f_equal; apply IH].
  - f_equal. apply IH.
Qed.

Lemma attach_all_keys embeddings i (marked : list Marked) :
  marked_keys (attach_all embeddings i marked) = marked_keys marked.
Proof.
  unfold marked_keys.
  revert i. induction marked as [|[[k node] []] rest IH]; intros i; simpl;
    [reflexivity | f_equal; apply IH | f_equal; apply IH].
Qed.

(** [embedAllNodes] keeps every node under its key. *)
Lemma embedAllNodes_keys backend (allNodes : list (string * TreeNode.t)) :
  (snd (embedAllNodes backend allNodes)).*1 = allNodes.*1.
Proof.
  unfold embedAllNodes.
  destruct (length (nodesToEmbed (mark allNodes)) =? 0); [reflexivity|].
  destruct (snd (describe_all backend 0 (mark allNodes)));
    [|destruct (b_embeddings _) as [embeddings|]; [destruct (b_success _)|]]; simpl;
    rewrite unmark_keys, ?attach_all_keys, describe_all_keys; apply mark_keys.
Qed.

Lemma collect_refers queryEmbedding (allNodes : list (string * TreeNode.t)) :
  forall results found,
    collect queryEmbedding allNodes results = inr found ->
    exists new, found = results ++ new /\ Forall (refers_to allNodes) new.
Proof.
  induction allNodes as [|[k node] rest IH]; intros results found H; simpl in H.
  - injection H as <-. exists []. now rewrite app_nil_r.
  - destruct (VideoSegment.embedding (TreeNode.segment node)) as [e|] eqn:He.
    + destruct (cosineSimilarity queryEmbedding e) as [err|sim]; [discriminate|].
      simpl in H. apply IH in H as (new & -> & Hnew).
      eexists (_ :: new). rewrite <- app_assoc. split; [reflexivity|].
      constructor.
      * exists k, node, e. simpl. repeat split; [now left | exact He].
      * eapply Forall_impl; [exact Hnew|].
        intros r (k' & node' & e' & Hin & Hrest). exists k', node', e'.
        split; [now right | exact Hrest].
    + apply IH in H as (new & -> & Hnew). exists new. split; [reflexivity|].
      eapply Forall_impl; [exact Hnew|].
      intros r (k' & node' & e' & Hin & Hrest). exists k', node', e'.
      split; [now right | exact Hrest].
Qed.

(** The similarities of the results collected are those of the nodes. *)
Lemma collect_similarities (q : list number) (allNodes : list (string * TreeNode.t)) :
  forall acc found,
    collect q allNodes acc = inr found ->
    exists new,
      found = acc ++ new
      /\ similarity <$> new
         = omap (fun kn : string * TreeNode.t =>
                   match VideoSegment.embedding (TreeNode.segment (snd kn)) with
                   | Some e =>
                       match cosineSimilarity q e with
                       | inr sim => Some sim
                       | inl _ => None
                       end
                   | None => None
                   end) allNodes.
Proof.
  induction allNodes as [|[k node] rest IH]; intros acc found H; simpl in H.
  - injection H as <-. exists []. now rewrite app_nil_r.
  - cbn [omap list_omap snd].
    destruct (VideoSegment.embedding (TreeNode.segment node)) as [e|] eqn:He.
    + destruct (cosineSimilarity q e) as [err|sim] eqn:Hs; [discriminate|].
      simpl in H. apply IH in H as (new & -> & Hnew).
      eexists (_ :: new). rewrite <- app_assoc. split; [reflexivity|].
      simpl. f_equal. exact Hnew.
    + apply IH in H as (new & -> & Hnew). exists new. now split.
Qed.

(** The shape of a successful search. *)
Lemma searchNodes_success_query backend query tree topK rs tree' :
  searchNodes backend query tree topK
    = ({| success := true; results := Some rs |}, tree') ->
  exists allNodes q found,
    allNodes.*1 = (TreeState.getAllNodes tree).*1
    /\ tree' = with_nodes tree (list_to_map allNodes)
    /\ t_embedding (embedText backend query) = Some q
    /\ collect q allNodes [] = inr found
    /\ rs = JSArray.slice0 (JSArray.sort by_similarity found) topK.
Proof.
  unfold searchNodes.
  set (embedded := if 0 <? length _ then embedAllNodes backend _ else _).
  assert (Hkeys : (snd embedded).*1 = (TreeState.getAllNodes tree).*1).
  { unfold embedded. destruct (0 <? length _); [apply embedAllNodes_keys | reflexivity]. }
  destruct (fst embedded); simpl; [|discriminate].
  destruct (t_embedding (embedText backend query)) as [q|]; [|discriminate].
  destruct (t_success (embedText backend query)); [|discriminate].
  destruct (collect q (snd embedded) []) as [err|found] eqn:Hc; [discriminate|].
  intros H. injection H as <- <-.
  exists (snd embedded), q, found. now repeat split.
Qed.


(** The similarities of the results found are among those of the nodes
    of the tree as the search leaves it. *)
Lemma found_similarities (q : list number) (tree : LearningTree.t)
    (allNodes : list (string * TreeNode.t)) (found : list SearchResult) :
  NoDup allNodes.*1 ->
  collect q allNodes [] = inr found ->
  similarity <$> found ⊆ similarities q (with_nodes tree (list_to_map allNodes)).
Proof.
  intros Hnd Hc. apply collect_similarities in Hc as (new & -> & Hnew). simpl.
  rewrite Hnew. unfold similarities, TreeState.getAllNodes. simpl.
  intros s Hs. apply list_elem_of_omap in Hs as (kn & Hkn & Hs).
  apply list_elem_of_omap. exists kn. split; [|exact Hs].
  destruct kn as [k node]. apply elem_of_map_to_list.
  now apply (elem_of_list_to_map_1 (M := gmap string)).
Qed.

(** C9. A successful [searchNodes(query, tree, topK)] returns results
    each of which is the id and segment of a node of the tree (as the
    search leaves it, embeddings attached; the node is stored under a key
    of the tree searched) whose segment has an embedding. There are at
    most [topK] of them when [topK] is a count, [topK >= 0]. They are in
    non-increasing order of similarity when none of the similarities of
    the nodes to the query embedding is NaN. *)
Theorem searchNodes_spec backend query tree (topK : Z) rs tree' :
  searchNodes backend query tree topK
    = ({| success := true; results := Some rs |}, tree') ->
  ((0 <= topK)%Z -> (Z.of_nat (length rs) <= topK)%Z)
  /\ (forall q, t_embedding (embedText backend query) = Some q ->
                no_nan (similarities q tree') = true ->
                non_increasing rs)
  /\ forall r, r ∈ rs ->
       exists k node e,
         LearningTree.nodes tree' !! k = Some node
         /\ is_Some (LearningTree.nodes tree !! k)
         /\ TreeNode.id node = nodeId r
         /\ TreeNode.segment node = segment r
         /\ VideoSegment.embedding (TreeNode.segment node) = Some e.
Proof.
  intros H.
  apply searchNodes_success_query in H
    as (allNodes & q & found & Hkeys & -> & Hq & Hc & ->).
  assert (Hnd : NoDup allNodes.*1).
  { rewrite Hkeys. apply NoDup_fst_map_to_list. }
  split; [apply JSArrayFacts.slice0_length|]. split.
  - intros q' Hq' Hnan. assert (q' = q) as -> by congruence.
    destruct (JSArrayFacts.slice0_prefix (JSArray.sort by_similarity found) topK) as [n ->].
    apply JSArrayFacts.take_strongly_sorted. apply sort_non_increasing.
    apply (no_nan_subseteq _ _ (found_similarities q tree allNodes found Hnd Hc) Hnan).
  - intros r Hr.
    destruct (JSArrayFacts.slice0_prefix (JSArray.sort by_similarity found) topK) as [n Hn].
    rewrite Hn in Hr. apply elem_of_take in Hr as (i & Hr & _).
    apply list_elem_of_lookup_2 in Hr.
    rewrite JSArrayFacts.sort_perm in Hr.
    apply collect_refers in Hc as (new & -> & Hnew). simpl in Hr.
    rewrite Forall_forall in Hnew.
    destruct (Hnew r Hr) as (k & node & e & Hin & Hid & Hseg & He).
    exists k, node, e. simpl.
    repeat split; try assumption.
    + now apply elem_of_list_to_map.
    + assert (Hk : k ∈ (TreeState.getAllNodes tree).*1).
      { rewrite <- Hkeys. apply list_elem_of_fmap. now exists (k, node). }
      apply list_elem_of_fmap in Hk as ([k' node'] & -> & Hk).
      apply elem_of_map_to_list in Hk. simpl. eauto.
Qed.

End SearchFacts.

Module SearchExample.
Import Search SearchSpec Samples.

Example sample_results_ids : map nodeId sample_results = ["a"%string; "b"%string].
Proof. reflexivity. Qed.

Lemma searchNodes_spec_witness :
  searchNodes sample_backend "bark" search_tree 2
    = ({| success := true; results := Some sample_results |}, sample_tree_after)
  /\ (Z.of_nat (length sample_results) <= 2)%Z
  /\ non_increasing sample_results.
Proof.
  assert (E : searchNodes sample_backend "bark" search_tree 2
              = ({| success := true; results := Some sample_results |}, sample_tree_after)).
  { apply injective_projections; [vm_compute; reflexivity | reflexivity]. }
  split; [exact E|].
  destruct (SearchFacts.searchNodes_spec _ _ _ _ _ _ E) as (Hlen & Hsorted & _).
  split; [apply Hlen; lia|].
  apply (Hsorted [1#1; 1#1]%Q); [reflexivity | vm_compute; reflexivity].
Defined.

(** On [overflow_tree] the similarity of the node "a" is
    Infinity - Infinity: the results come back as they were collected,
    the lesser similarity before the greater. With [topK = -1] the
    search of a tree of three nodes returns two results. *)
Lemma searchNodes_not_ordered :
  (searchNodes overflow_backend "light" overflow_tree 5
     = ({| success := true; results := Some overflow_results |}, overflow_tree)
   /\ similarity <$> overflow_results = [0x1p+600; nan; 0x1p+601]%float
   /\ (0x1p+600 <? 0x1p+601)%float = true
   /\ ~ non_increasing overflow_results)
  /\ (exists rs,
        searchNodes sample_backend "bark" embedded_tree (-1)
          = ({| success := true; results := Some rs |}, embedded_tree)
        /\ length rs = 2).
Proof.
  split; [split; [|split; [|split]]|].
  - apply injective_projections; vm_compute; reflexivity.
  - vm_compute. reflexivity.
  - reflexivity.
  - intros Hs. apply StronglySorted_inv in Hs as [_ Hall].
    apply Forall_inv in Hall. vm_compute in Hall. discriminate.
  - eexists. split.
    + apply injective_projections; vm_compute; reflexivity.
    + reflexivity.
Qed.

End SearchExample.

(* ===================================================================== *)
(** * Failed generation jobs *)
(* ===================================================================== *)

Module OrchestratorFacts.
Import Orchestrator Samples.

Section Jobs.
Variable fresh_id : gmap string TreeNode.t -> string.
Variable acceptable : list VideoSegment.t -> bool.

#[local] Abbreviation step := (step fresh_id acceptable).
#[local] Abbreviation run := (run fresh_id acceptable).

Lemma fail_tree s j : tree (fail s j) = tree s.
Proof.
  unfold fail. destruct (jobs s !! j) as [job|]; [|reflexivity].
  now destruct (is_terminal (status job)).
Qed.

Lemma fail_jobs_other s j j' : j' <> j -> jobs (fail s j) !! j' = jobs s !! j'.
Proof.
  intros Hne. unfold fail. destruct (jobs s !! j) as [job|]; [|reflexivity].
  destruct (is_terminal (status job)); [reflexivity|]. simpl.
  now rewrite lookup_insert_ne.
Qed.

Lemma fail_jobs_own s j :
  jobs (fail s j) !! j
  = match jobs s !! j with
    | Some job => if is_terminal (status job) then Some job
                  else Some (with_status job Failed [])
    | None => None
    end.
Proof.
  unfold fail. destruct (jobs s !! j) as [job|] eqn:E; [|exact E].
  destruct (is_terminal (status job)); [exact E|]. simpl. apply lookup_insert_eq.
Qed.

Lemma step_jobs_other s e j : job_of e <> j -> jobs (step s e) !! j = jobs s !! j.
Proof.
  intros Hne. destruct e as [j0 k t p now|j0|j0 st pc|j0 segs|j0 r|j0|j0|j0]; simpl in *;
    try reflexivity; try (apply fail_jobs_other; congruence).
  - destruct (jobs s !! j0); [reflexivity|]. simpl. now rewrite lookup_insert_ne.
  - destruct (jobs s !! j0) as [job|]; [|reflexivity].
    destruct (status job); try reflexivity. simpl. now rewrite lookup_insert_ne.
  - destruct (jobs s !! j0) as [job|]; [|reflexivity].
    destruct (status job); try reflexivity.
    destruct (commit _ _ _ _ _) as [err|[t' ids]];
      [apply fail_jobs_other; congruence|]. simpl. now rewrite lookup_insert_ne.
Qed.

(** [completed] is terminal. *)
Lemma step_completed s e j : completed j s -> completed j (step s e).
Proof.
  intros (job & Hj & Hst). exists job. split; [|exact Hst].
  destruct (decide (job_of e = j)) as [<-|Hne]; [|now rewrite step_jobs_other].
  destruct e as [j0 k t p now|j0|j0 st pc|j0 segs|j0 r|j0|j0|j0]; simpl in *;
    try exact Hj; try (rewrite fail_jobs_own, Hj, Hst; reflexivity);
    rewrite Hj; try exact Hj; rewrite Hst; exact Hj.
Qed.

Lemma run_completed s events j : completed j s -> completed j (run s events).
Proof.
  revert s. induction events as [|e rest IH]; intros s H; [exact H|].
  apply IH. now apply step_completed.
Qed.

(** An event of [j] that does not complete [j] leaves the tree. *)
Lemma step_own_tree s e :
  ~ completed (job_of e) (step s e) -> tree (step s e) = tree s.
Proof.
  destruct e as [j0 k t p now|j0|j0 st pc|j0 segs|j0 r|j0|j0|j0]; simpl;
    intros Hnc; try reflexivity; try apply fail_tree.
  - now destruct (jobs s !! j0).
  - destruct (jobs s !! j0) as [job|]; [|reflexivity]. now destruct (status job).
  - destruct (jobs s !! j0) as [job|]; [|reflexivity].
    destruct (status job); try reflexivity.
    destruct (commit _ _ _ _ _) as [err|[t' ids]]; [apply fail_tree|].
    exfalso. apply Hnc. exists (with_status job Completed ids).
    simpl. split; [apply lookup_insert_eq | reflexivity].
Qed.

Lemma step_agree_other j s1 s2 e :
  agree_off j s1 s2 -> job_of e <> j -> agree_off j (step s1 e) (step s2 e).
Proof.
  intros [Ht Hj] Hne. pose proof (Hj (job_of e) Hne) as Hsame.
  assert (Hfail : forall j0, j0 <> j -> jobs s1 !! j0 = jobs s2 !! j0 ->
            agree_off j (fail s1 j0) (fail s2 j0)).
  { intros j0 Hne0 Hs. split; [now rewrite !fail_tree|].
    intros j' Hj'. destruct (decide (j' = j0)) as [->|Hd].
    - now rewrite !fail_jobs_own, Hs.
    - rewrite !fail_jobs_other by done. now apply Hj. }
  assert (Hins : forall j0 (job : Job) j', j' <> j ->
            <[j0 := job]> (jobs s1) !! j' = <[j0 := job]> (jobs s2) !! j').
  { intros j0 job j' Hj'. destruct (decide (j0 = j')) as [->|Hd].
    - now rewrite !lookup_insert_eq.
    - rewrite !lookup_insert_ne by done. now apply Hj. }
  destruct e as [j0 k t p now|j0|j0 st pc|j0 segs|j0 r|j0|j0|j0]; simpl in *;
    try (now apply Hfail); try (split; assumption).
  - rewrite <- Hsame. destruct (jobs s1 !! j0); [now split|].
    split; [exact Ht | simpl; now apply Hins].
  - rewrite <- Hsame. destruct (jobs s1 !! j0) as [job|]; [|now split].
    destruct (status job); try (now split). split; [exact Ht | simpl; now apply Hins].
  - rewrite <- Hsame, <- Ht. destruct (jobs s1 !! j0) as [job|] eqn:E; [|now split].
    destruct (status job); try (now split).
    destruct (commit _ _ _ _ _) as [err|[t' ids]]; [apply Hfail; congruence|].
    split; [reflexivity | simpl; now apply Hins].
Qed.

Lemma completed_dec j s : completed j s \/ ~ completed j s.
Proof.
  unfold completed. destruct (jobs s !! j) as [job|]; [|right; intros (x & H & _); discriminate].
  destruct (status job) eqn:E; try (right; intros (x & [= <-] & H); congruence).
  left. eauto.
Qed.

(** Erasing the events of [j] from the history changes nothing off [j],
    unless [j] completes. *)
Lemma run_erase j events :
  forall s1 s2, agree_off j s1 s2 ->
    completed j (run s1 events)
    \/ agree_off j (run s1 events) (run s2 (without j events)).
Proof.
  induction events as [|e rest IH]; intros s1 s2 Hag; [now right|].
  unfold without. simpl. destruct (decide (job_of e = j)) as [He|He].
  - rewrite filter_cons_False by (intros H; contradiction).
    destruct (completed_dec j (step s1 e)) as [Hc|Hnc].
    + left. now apply run_completed.
    + apply IH. destruct Hag as [Ht Hj]. split.
      * rewrite <- Ht. apply step_own_tree. now rewrite He.
      * intros j' Hj'. rewrite step_jobs_other by congruence. now apply Hj.
  - rewrite filter_cons_True by exact He. simpl.
    apply IH. now apply step_agree_other.
Qed.

Lemma step_clean j s e : clean j s -> clean j (step s e).
Proof.
  intros Hc job. destruct (decide (job_of e = j)) as [<-|Hne];
    [|rewrite step_jobs_other by done; apply Hc].
  assert (Hfail : forall j0, clean j0 s ->
            jobs (fail s j0) !! j0 = Some job -> status job <> Completed ->
            resultNodeIds job = []).
  { intros j0 Hc0 Hj Hst. rewrite fail_jobs_own in Hj.
    destruct (jobs s !! j0) as [job0|] eqn:E; [|discriminate].
    destruct (is_terminal (status job0)); injection Hj as <-;
      [now apply Hc0 | reflexivity]. }
  destruct e as [j0 k t p now|j0|j0 st pc|j0 segs|j0 r|j0|j0|j0]; simpl in *;
    try apply Hc; try (now apply Hfail).
  - destruct (jobs s !! j0) as [job0|] eqn:E; simpl; intros Hj Hst.
    + now apply Hc.
    + rewrite lookup_insert_eq in Hj. now injection Hj as <-.
  - destruct (jobs s !! j0) as [job0|] eqn:E; [|intros Hj Hst; now apply Hc].
    destruct (status job0) eqn:Es; simpl; intros Hj Hst; try (now apply Hc).
    rewrite lookup_insert_eq in Hj. now injection Hj as <-.
  - destruct (jobs s !! j0) as [job0|] eqn:E; [|intros Hj Hst; now apply Hc].
    destruct (status job0) eqn:Es; try (intros Hj Hst; now apply Hc).
    destruct (commit _ _ _ _ _) as [err|[t' ids]]; [now apply Hfail|].
    simpl. intros Hj Hst. rewrite lookup_insert_eq in Hj. injection Hj as <-.
    now simpl in Hst.
Qed.

Lemma run_clean j s events : clean j s -> clean j (run s events).
Proof.
  revert s. induction events as [|e rest IH]; intros s H; [exact H|].
  apply IH. now apply step_clean.
Qed.

(** Only the delivery of a result changes the tree. *)
Lemma step_no_delivery s e : delivers e = false -> tree (step s e) = tree s.
Proof.
  destruct e as [j0 k t p now|j0|j0 st pc|j0 segs|j0 r|j0|j0|j0]; simpl;
    intros Hd; try reflexivity; try apply fail_tree; try discriminate.
  - now destruct (jobs s !! j0).
  - destruct (jobs s !! j0) as [job|]; [|reflexivity]. now destruct (status job).
Qed.

Lemma run_no_delivery s events :
  Forall (fun e => delivers e = false) events -> tree (run s events) = tree s.
Proof.
  intros H. revert s. induction H as [|e rest He _ IH]; intros s; [reflexivity|].
  change (tree (run (step s e) rest) = tree s). rewrite IH. now apply step_no_delivery.
Qed.

End Jobs.

(** C1, as stated, fails when another job commits while the job is in
    flight: in [interleaved_history] "job1" ends [failed], and the tree
    is not the tree from before its submission: it has the node that
    "job2" committed meanwhile. *)
Lemma failed_job_interleaved :
  let s' := run (fun _ => "fresh"%string) (fun _ => true) idle interleaved_history in
  jobs idle !! "job1"%string = None
  /\ jobs s' !! "job1"%string = Some failed_job
  /\ status failed_job = Failed
  /\ size (LearningTree.nodes (tree idle)) = 3
  /\ size (LearningTree.nodes (tree s')) = 4
  /\ tree s' <> tree idle.
Proof.
  assert (Hsize : size (LearningTree.nodes
                          (tree (run (fun _ => "fresh"%string) (fun _ => true) idle
                                   interleaved_history))) = 4)
    by (vm_compute; reflexivity).
  cbv zeta. split; [reflexivity|]. split; [vm_compute; reflexivity|]. split; [reflexivity|].
  split; [vm_compute; reflexivity|]. split; [exact Hsize|].
  intros Heq. rewrite Heq in Hsize. vm_compute in Hsize. discriminate.
Qed.

(** C1, amended. A job submitted after state [s] that has ended in the
    [failed] state has committed no node, and the tree is what it would
    be had the job never been submitted: the same as after the history
    without the job's events, so that whatever differs from the tree of
    [s] is the commit of another job. When no other job delivered a
    result in between (other jobs may have been submitted, dispatched,
    reported progress, failed or been dismissed), the tree is exactly
    the tree of [s]: same [nodes.size], same [rootIds], and every node
    of [s] with its [parentId], [childIds] and [branchIndex]. *)
Theorem failed_job_leaves_tree
    (fresh_id : gmap string TreeNode.t -> string)
    (acceptable : list VideoSegment.t -> bool)
    (s : State) (events : list Event) (j : string) (job : Job) :
  jobs s !! j = None ->
  jobs (run fresh_id acceptable s events) !! j = Some job ->
  status job = Failed ->
  let s' := run fresh_id acceptable s events in
  tree s' = tree (run fresh_id acceptable s (without j events))
  /\ resultNodeIds job = []
  /\ (Forall (fun e => job_of e = j \/ delivers e = false) events ->
      tree s' = tree s
      /\ size (LearningTree.nodes (tree s')) = size (LearningTree.nodes (tree s))
      /\ LearningTree.rootIds (tree s') = LearningTree.rootIds (tree s)
      /\ forall k node, LearningTree.nodes (tree s) !! k = Some node ->
           exists node', LearningTree.nodes (tree s') !! k = Some node'
             /\ TreeNode.parentId node' = TreeNode.parentId node
             /\ TreeNode.childIds node' = TreeNode.childIds node
             /\ TreeNode.branchIndex node' = TreeNode.branchIndex node).
Proof.
  intros Hnew Hjob Hfailed s'.
  assert (Hnc : ~ completed j s').
  { intros (job' & Hj' & Hst). unfold s' in Hj'. congruence. }
  assert (Herase : tree s' = tree (run fresh_id acceptable s (without j events))).
  { destruct (run_erase fresh_id acceptable j events s s) as [Hc|[Ht _]];
      [now split | contradiction | exact Ht]. }
  split; [exact Herase|]. split.
  - apply (run_clean fresh_id acceptable j s events); [|exact Hjob|congruence].
    intros job0 H0. congruence.
  - intros Hothers.
    rewrite (run_no_delivery fresh_id acceptable s (without j events)) in Herase.
    + rewrite Herase. repeat split. intros k node Hk. now exists node.
    + unfold without. apply Forall_forall. intros e He.
      apply list_elem_of_filter in He as [Hne He].
      rewrite Forall_forall in Hothers. destruct (Hothers e He) as [Hj|Hd];
        [contradiction | exact Hd].
Qed.

Lemma failed_job_leaves_tree_witness :
  jobs idle !! "job1"%string = None
  /\ jobs (run (fun _ => "fresh"%string) (fun _ => true) idle failing_history) !! "job1"%string
       = Some failed_job
  /\ status failed_job = Failed
  /\ tree (run (fun _ => "fresh"%string) (fun _ => true) idle failing_history)
       = family.
Proof.
  assert (H : jobs (run (fun _ => "fresh"%string) (fun _ => true) idle failing_history)
                !! "job1"%string = Some failed_job) by reflexivity.
  split; [reflexivity|]. split; [exact H|]. split; [reflexivity|].
  destruct (failed_job_leaves_tree (fun _ => "fresh"%string) (fun _ => true) idle
              failing_history "job1" failed_job eq_refl H eq_refl) as (_ & _ & Hseq).
  apply Hseq. repeat constructor; now left.
Defined.

End OrchestratorFacts.

(* ===================================================================== *)
(** * More on the cached-session service *)
(* ===================================================================== *)

Module CachedSessionMore.
Import JS JSSpec CachedSession.

Lemma plain_toLowerCase (c : ascii) : plain c = true -> char_toLowerCase c = c.
Proof.
  destruct c as [[] [] [] [] [] [] [] []]; intros H; vm_compute in H;
    try discriminate; reflexivity.
Qed.

Lemma plain_whitespace (c : ascii) :
  plain c = true -> is_whitespace c = true -> c = space.
Proof.
  destruct c as [[] [] [] [] [] [] [] []]; intros H1 H2; vm_compute in H1, H2;
    try discriminate; reflexivity.
Qed.

Lemma plain_kept (c : ascii) : plain c = true -> kept c = true.
Proof.
  unfold plain, kept. intros H.
  apply orb_true_iff in H as [H|H]; [now rewrite H|].
  apply JSFacts.is_space_whitespace in H. rewrite H. apply orb_true_r.
Qed.

Lemma toLowerCase_plain (s : string) : all_chars plain s = true -> toLowerCase s = s.
Proof.
  unfold toLowerCase. induction s as [|c s IH]; simpl; [reflexivity|].
  intros H. apply andb_true_iff in H as [Hc Hs].
  now rewrite (plain_toLowerCase c Hc), IH.
Qed.

Lemma replace_non_alnum_plain (s : string) :
  all_chars plain s = true -> replace_non_alnum s = s.
Proof.
  unfold replace_non_alnum. induction s as [|c s IH]; simpl; [reflexivity|].
  intros H. apply andb_true_iff in H as [Hc Hs].
  rewrite IH by exact Hs. fold (kept c). now rewrite (plain_kept c Hc).
Qed.

Lemma collapse_from_plain (in_run : bool) (s : string) :
  all_chars plain s = true -> no_double_space s = true ->
  (in_run = true -> starts_with_space s = false) ->
  collapse_from in_run s = s.
Proof.
  revert in_run. induction s as [|c s IH]; intros in_run Ha Hd Hrun; simpl in *;
    [reflexivity|].
  apply andb_true_iff in Ha as [Hc Ha]. apply andb_true_iff in Hd as [Hcd Hd].
  destruct (is_whitespace c) eqn:Hw.
  - pose proof (plain_whitespace c Hc Hw) as ->.
    destruct in_run; [specialize (Hrun eq_refl); discriminate|].
    rewrite IH; try assumption; [reflexivity|]. intros _.
    apply negb_true_iff in Hcd. now destruct (starts_with_space s).
  - rewrite IH; try assumption; [reflexivity | discriminate].
Qed.

Lemma trimStart_plain (s : string) :
  all_chars plain s = true -> starts_with_space s = false -> trimStart s = s.
Proof.
  destruct s as [|c s]; simpl; [reflexivity|]. intros Ha Hs.
  apply andb_true_iff in Ha as [Hc _].
  destruct (is_whitespace c) eqn:Hw; [|reflexivity].
  pose proof (plain_whitespace c Hc Hw) as ->. discriminate.
Qed.

Lemma trimEnd_plain (s : string) :
  all_chars plain s = true -> ends_with_space s = false -> trimEnd s = s.
Proof.
  induction s as [|c s IH]; intros Ha He; [reflexivity|].
  simpl in Ha. apply andb_true_iff in Ha as [Hc Ha].
  change (trimEnd (String c s))
    with (if is_whitespace c && is_empty (trimEnd s) then EmptyString
          else String c (trimEnd s)).
  destruct s as [|d s'].
  - simpl in *. destruct (is_whitespace c) eqn:Hw; [|reflexivity].
    pose proof (plain_whitespace c Hc Hw) as ->. discriminate.
  - rewrite IH by assumption. simpl. now rewrite andb_false_r.
Qed.

(** A text in normal form is its own normalization. *)
Lemma normalizeText_fixed (s : string) : normalized s = true -> normalizeText s = s.
Proof.
  unfold normalized. intros H.
  apply andb_true_iff in H as [H He]. apply andb_true_iff in H as [H Hs].
  apply andb_true_iff in H as [Ha Hd].
  apply negb_true_iff in He. apply negb_true_iff in Hs.
  unfold normalizeText, collapse_whitespace, trim.
  rewrite (toLowerCase_plain s Ha), (replace_non_alnum_plain s Ha).
  rewrite (collapse_from_plain false s Ha Hd) by discriminate.
  rewrite (trimStart_plain s Ha Hs). now apply trimEnd_plain.
Qed.

(** X1. [normalizeText] is idempotent, and [matchQuestionToCachedTopic]
    gives the same answer for a question and for its normalized text. *)
Theorem normalizeText_idempotent (text : string) :
  normalizeText (normalizeText text) = normalizeText text
  /\ matchQuestionToCachedTopic (normalizeText text) = matchQuestionToCachedTopic text.
Proof.
  assert (H : normalizeText (normalizeText text) = normalizeText text).
  { apply normalizeText_fixed, CachedSessionFacts.normalizeText_normalized. }
  split; [exact H|]. unfold matchQuestionToCachedTopic. now rewrite H.
Qed.

Lemma match_topics_In (nq : string) (topics : list string) (topic : string) :
  match_topics nq topics = Some topic -> In topic topics.
Proof.
  induction topics as [|t rest IH]; simpl; [discriminate|].
  destruct (includes nq (normalizeText t) || includes (normalizeText t) nq).
  - intros H. left. congruence.
  - intros H. right. now apply IH.
Qed.

(** X2. A topic returned by [matchQuestionToCachedTopic] is one that
    [hasCachedSession] accepts and for which [loadCachedSession] goes to
    the remote store: the lookup in [CACHED_SESSIONS] finds its URL. *)
Theorem matched_topic_is_cached (question topic : string) :
  matchQuestionToCachedTopic question = Some topic ->
  hasCachedSession topic = true
  /\ exists url, JS.get CACHED_SESSIONS topic = Some (OwnValue url)
       /\ In (topic, url) CACHED_SESSIONS.
Proof.
  unfold matchQuestionToCachedTopic.
  destruct (negb (truthy (normalizeText question))); [discriminate|].
  intros H. apply match_topics_In in H.
  unfold getCachedTopics, keys in H. apply in_map_iff in H as ([t url] & Ht & Hin).
  simpl in Ht. subst t. split.
  - unfold hasCachedSession. apply JSFacts.has_property_spec. left.
    unfold keys. apply in_map_iff. now exists (topic, url).
  - clear -Hin. unfold CACHED_SESSIONS in *. simpl in Hin.
    destruct Hin as [H|[H|[H|[]]]]; injection H as <- <-; eexists;
      (split; [reflexivity|]); simpl; tauto.
Qed.

Lemma matched_topic_is_cached_witness :
  matchQuestionToCachedTopic "What is photosynthesis?" = Some "Photosynthesis"%string
  /\ hasCachedSession "Photosynthesis" = true.
Proof.
  split; [reflexivity|].
  exact (proj1 (matched_topic_is_cached "What is photosynthesis?" "Photosynthesis" eq_refl)).
Defined.

End CachedSessionMore.

(* ===================================================================== *)
(** * More on loading a cached session *)
(* ===================================================================== *)

Module LoadMore.
Import CachedSession CachedSessionFacts Samples.

(** X3. [loadCachedSession] yields a session only for a topic that
    [hasCachedSession] accepts, and only when the remote store answered
    the request for that topic's entry with an ok response holding a
    session; the session returned is the deserialization of that body. *)
Theorem loadCachedSession_Some (remote : Remote) (topic : string)
    (session : VideoSession.t) :
  loadCachedSession remote topic = Fulfilled (Some session) ->
  hasCachedSession topic = true
  /\ exists sessionPath status data,
       JS.get CACHED_SESSIONS topic = Some sessionPath
       /\ remote sessionPath = Response true status (BodySession data)
       /\ session = deserialize data.
Proof.
  unfold loadCachedSession, load_body, await_fetch. intros H.
  destruct (JS.get CACHED_SESSIONS topic) as [sessionPath|] eqn:Hget; [|discriminate].
  split.
  - unfold hasCachedSession. apply JSFacts.get_has_property. congruence.
  - destruct (JS.truthy_value sessionPath); [|discriminate]. simpl in H.
    destruct (remote sessionPath) as [|[] status []] eqn:Hr; simpl in H;
      try discriminate.
    exists sessionPath, status, data. split; [reflexivity|]. split; [exact Hr|].
    congruence.
Qed.

Lemma loadCachedSession_Some_witness :
  loadCachedSession (serves good_tree) "Photosynthesis"
    = Fulfilled (Some (deserialize (sample_serialized good_tree)))
  /\ hasCachedSession "Photosynthesis" = true.
Proof.
  split; [reflexivity|].
  exact (proj1 (loadCachedSession_Some (serves good_tree) "Photosynthesis"
                  (deserialize (sample_serialized good_tree)) eq_refl)).
Defined.

Lemma set_all_app (nodes : gmap string TreeNode.t)
    (l1 l2 : list (string * TreeNode.t)) :
  set_all nodes (l1 ++ l2) = set_all (set_all nodes l1) l2.
Proof.
  revert nodes. induction l1 as [|[k nd] l1 IH]; intros nodes; simpl;
    [reflexivity | apply IH].
Qed.

(** X4. When an id occurs more than once in the serialized [nodes]
    array, the node map holds the node of its last pair; the number of
    nodes loaded is the number of distinct ids. *)
Theorem loadCachedSession_repeated_id (remote : Remote) (topic : string)
    (sessionPath : JS.PropValue) (status : nat) (data : Serialized.t)
    (before after : list (string * TreeNode.t)) (k : string) (nodeData : TreeNode.t) :
  JS.get CACHED_SESSIONS topic = Some sessionPath ->
  remote sessionPath = Response true status (BodySession data) ->
  Serialized.nodes (Serialized.tree data) = before ++ (k, nodeData) :: after ->
  k ∉ after.*1 ->
  exists session,
    loadCachedSession remote topic = Fulfilled (Some session)
    /\ LearningTree.nodes (VideoSession.tree session) !! k = Some nodeData
    /\ size (LearningTree.nodes (VideoSession.tree session))
       = length (remove_dups (Serialized.nodes (Serialized.tree data)).*1).
Proof.
  intros Hget Hfetch Hentries Hlast. exists (deserialize data).
  split; [now apply (LoadFacts.load_success remote topic sessionPath status)|].
  simpl. split; [|apply set_all_count].
  rewrite Hentries, set_all_app. simpl.
  rewrite set_all_lookup_other by exact Hlast.
  now rewrite lookup_insert_eq, rebuild_node_same.
Qed.

Lemma loadCachedSession_repeated_id_witness :
  JS.get CACHED_SESSIONS "Photosynthesis" = Some photosynthesis_url
  /\ ("a"%string ∉ @nil string)
  /\ exists session,
       loadCachedSession (serves repeated_tree) "Photosynthesis" = Fulfilled (Some session)
       /\ LearningTree.nodes (VideoSession.tree session) !! "a"%string
            = Some (sample_node "a" None ["b"%string] 2)
       /\ size (LearningTree.nodes (VideoSession.tree session)) = 2.
Proof.
  split; [reflexivity|]. split; [apply not_elem_of_nil|].
  destruct (loadCachedSession_repeated_id (serves repeated_tree) "Photosynthesis"
              photosynthesis_url 200 (sample_serialized repeated_tree)
              [ ("a"%string, sample_node "a" None [] 0);
                ("b"%string, sample_node "b" None [] 1) ] []
              "a" (sample_node "a" None ["b"%string] 2)
              eq_refl eq_refl eq_refl (not_elem_of_nil _))
    as (session & Hload & Hlast & Hsize).
  exists session. split; [exact Hload|]. split; [exact Hlast|].
  rewrite Hsize. vm_compute. reflexivity.
Defined.

End LoadMore.

(* ===================================================================== *)
(** * More on the semantic search *)
(* ===================================================================== *)

Module SearchMore.
Import Search SearchSpec SearchFacts DoubleFacts Samples.

Lemma dot_from_swap (acc : float) (a b : list number) : dot_from acc a b = dot_from acc b a.
Proof.
  revert acc b. induction a as [|x a IH]; intros acc [|y b]; simpl; try reflexivity.
  rewrite (double_mul_comm (double_of x)). apply IH.
Qed.

(** The sum is rounded at every step: 2^53 + 1 is 2^53. *)
Example cosineSimilarity_rounds :
  cosineSimilarity [9007199254740992 # 1; 1 # 1] [1 # 1; 1 # 1] = ret 9007199254740992%float.
Proof. reflexivity. Qed.

(** X5. [cosineSimilarity], computed in the arithmetic of doubles, is
    symmetric in its arguments; it throws exactly when the two arrays
    differ in length. *)
Theorem cosineSimilarity_symmetric (a b : list number) :
  cosineSimilarity a b = cosineSimilarity b a
  /\ match cosineSimilarity a b with
     | inl e => e = DimensionError /\ length a <> length b
     | inr _ => length a = length b
     end.
Proof.
  unfold cosineSimilarity. split.
  - rewrite (Nat.eqb_sym (length b)), dot_from_swap. reflexivity.
  - destruct (length a =? length b) eqn:E; simpl.
    + now apply Nat.eqb_eq in E.
    + apply Nat.eqb_neq in E. now split.
Qed.

(** ** What [embedAllNodes] writes *)

Lemma describe_same backend i node node' :
  describe backend i node = ret node' -> same_but_search_fields node node'.
Proof.
  unfold describe, same_but_search_fields, ret, throw.
  destruct (lacks_description node).
  - destruct (generateNodeDescription backend i (TreeNode.segment node)) as [result|];
      [|discriminate].
    intros H. injection H as <-. now destruct (_ && _).
  - intros H. now injection H as <-.
Qed.

Lemma describe_embedding backend i node node' :
  describe backend i node = ret node' ->
  VideoSegment.embedding (TreeNode.segment node')
  = VideoSegment.embedding (TreeNode.segment node).
Proof.
  unfold describe, ret, throw.
  destruct (lacks_description node).
  - destruct (generateNodeDescription backend i (TreeNode.segment node)) as [result|];
      [|discriminate].
    intros H. injection H as <-. now destruct (_ && _).
  - intros H. now injection H as <-.
Qed.

Lemma describe_described backend i node :
  lacks_description node = false -> describe backend i node = ret node.
Proof. unfold describe. now intros ->. Qed.

Lemma describe_has_description backend i node node' :
  describe backend i node = ret node' -> described node'.
Proof.
  unfold describe, described, ret, throw. destruct (lacks_description node) eqn:E.
  - destruct (generateNodeDescription backend i (TreeNode.segment node)) as [result|];
      [|discriminate].
    intros H. injection H as <-. destruct (_ && _); simpl; eauto.
  - intros H. injection H as <-. unfold lacks_description in E.
    destruct (VideoSegment.description (TreeNode.segment node)); [eauto | discriminate].
Qed.

Lemma mark_cons k node (rest : list (string * TreeNode.t)) :
  mark ((k, node) :: rest)
  = (k, node, lacks_embedding node || lacks_description node) :: mark rest.
Proof. reflexivity. Qed.

Lemma unmark_cons (m : Marked) (rest : list Marked) :
  unmark (m :: rest) = fst m :: unmark rest.
Proof. reflexivity. Qed.

Lemma unmark_mark (allNodes : list (string * TreeNode.t)) : unmark (mark allNodes) = allNodes.
Proof.
  induction allNodes as [|[k node] rest IH]; [reflexivity|].
  rewrite mark_cons, unmark_cons. simpl. now f_equal.
Qed.

Lemma describe_all_cons_true backend i k node (rest : list Marked) :
  describe_all backend i ((k, node, true) :: rest)
  = match describe backend i node with
    | inr node' =>
        ((k, node', true) :: fst (describe_all backend (S i) rest),
         snd (describe_all backend (S i) rest))
    | inl e => ((k, node, true) :: rest, Some e)
    end.
Proof. reflexivity. Qed.

Lemma describe_all_cons_false backend i k node (rest : list Marked) :
  describe_all backend i ((k, node, false) :: rest)
  = ((k, node, false) :: fst (describe_all backend i rest),
     snd (describe_all backend i rest)).
Proof. reflexivity. Qed.

Lemma embedded_as_same backend (kn : string * TreeNode.t) : embedded_as backend false kn kn.
Proof. split; [reflexivity|]. destruct (_ || _); [now left | reflexivity]. Qed.

Lemma describe_all_embedded_as backend i (allNodes : list (string * TreeNode.t)) :
  Forall2 (embedded_as backend false) allNodes
    (unmark (fst (describe_all backend i (mark allNodes)))).
Proof.
  revert i. induction allNodes as [|[k node] rest IH]; intros i; [constructor|].
  rewrite mark_cons. destruct (lacks_embedding node || lacks_description node) eqn:E.
  - rewrite describe_all_cons_true.
    destruct (describe backend i node) as [err|node'] eqn:Hd; cbn [fst].
    + rewrite unmark_cons, unmark_mark. cbn [fst].
      apply Forall_Forall2_diag, Forall_forall. intros kn _. apply embedded_as_same.
    + rewrite unmark_cons. cbn [fst]. constructor; [|apply IH].
      split; [reflexivity|]. cbn [snd]. rewrite E. right. now exists i.
  - rewrite describe_all_cons_false. cbn [fst]. rewrite unmark_cons. cbn [fst].
    constructor; [|apply IH]. split; [reflexivity|]. cbn [snd]. now rewrite E.
Qed.

Lemma attach_all_embedded_as backend embeddings i j (allNodes : list (string * TreeNode.t)) :
  snd (describe_all backend i (mark allNodes)) = None ->
  Forall2 (embedded_as backend true) allNodes
    (unmark (attach_all embeddings j (fst (describe_all backend i (mark allNodes))))).
Proof.
  revert i j. induction allNodes as [|[k node] rest IH]; intros i j; [constructor|].
  rewrite mark_cons. destruct (lacks_embedding node || lacks_description node) eqn:E.
  - rewrite describe_all_cons_true.
    destruct (describe backend i node) as [err|node'] eqn:Hd; cbn [fst snd];
      [discriminate|].
    intros Hn. cbn [attach_all]. rewrite unmark_cons. cbn [fst].
    constructor; [|now apply IH].
    split; [reflexivity|]. cbn [snd]. rewrite E. now exists i, node', (embeddings !! j).
  - rewrite describe_all_cons_false. cbn [fst snd]. intros Hn.
    cbn [attach_all]. rewrite unmark_cons. cbn [fst].
    constructor; [|now apply IH]. split; [reflexivity|]. cbn [snd]. now rewrite E.
Qed.

Lemma nodesToEmbed_cons_true k node (rest : list Marked) :
  nodesToEmbed ((k, node, true) :: rest) = node :: nodesToEmbed rest.
Proof. reflexivity. Qed.

Lemma nodesToEmbed_cons_false k node (rest : list Marked) :
  nodesToEmbed ((k, node, false) :: rest) = nodesToEmbed rest.
Proof. reflexivity. Qed.

Lemma nodesToEmbed_none (allNodes : list (string * TreeNode.t)) :
  length (nodesToEmbed (mark allNodes)) = 0 ->
  Forall (fun kn => lacks_embedding (snd kn) || lacks_description (snd kn) = false) allNodes.
Proof.
  induction allNodes as [|[k node] rest IH]; intros H; constructor.
  - simpl in *. destruct (lacks_embedding node || lacks_description node); [|reflexivity].
    change (mark ((k, node) :: rest)) with
      ((k, node, lacks_embedding node || lacks_description node) :: mark rest) in H.
    discriminate.
  - apply IH. simpl in H.
    change (mark ((k, node) :: rest)) with
      ((k, node, lacks_embedding node || lacks_description node) :: mark rest) in H.
    destruct (lacks_embedding node || lacks_description node); [discriminate | exact H].
Qed.

Lemma embedAllNodes_embedded_as backend (allNodes : list (string * TreeNode.t)) :
  Forall2 (embedded_as backend (fst (embedAllNodes backend allNodes)))
    allNodes (snd (embedAllNodes backend allNodes)).
Proof.
  unfold embedAllNodes.
  destruct (length (nodesToEmbed (mark allNodes)) =? 0) eqn:E.
  - apply Nat.eqb_eq, nodesToEmbed_none in E. simpl.
    induction E as [|kn rest Hkn _ IH]; constructor; [|exact IH].
    split; [reflexivity|]. now rewrite Hkn.
  - clear E.
    destruct (snd (describe_all backend 0 (mark allNodes))) eqn:Hn;
      [simpl; apply describe_all_embedded_as|].
    destruct (b_embeddings _) as [embeddings|]; [destruct (b_success _)|]; simpl;
      [now apply attach_all_embedded_as | apply describe_all_embedded_as
       | apply describe_all_embedded_as].
Qed.

(** What [embedded_as] says in either outcome. *)
Lemma embedded_as_cases backend ok (kn kn' : string * TreeNode.t) :
  embedded_as backend ok kn kn' ->
  fst kn' = fst kn
  /\ (snd kn' = snd kn
      \/ lacks_embedding (snd kn) || lacks_description (snd kn) = true
         /\ exists i node,
              describe backend i (snd kn) = ret node
              /\ (snd kn' = node \/ exists e, snd kn' = set_embedding node e)).
Proof.
  intros [Hk H]. split; [exact Hk|].
  destruct (lacks_embedding (snd kn) || lacks_description (snd kn)); [|now left].
  destruct ok.
  - destruct H as (i & node & e & Hd & ->). right. split; [reflexivity|].
    exists i, node. split; [exact Hd|]. right. now exists e.
  - destruct H as [->|[i Hd]]; [now left|]. right. split; [reflexivity|].
    exists i, (snd kn'). split; [exact Hd | now left].
Qed.

Lemma embedAllNodes_search_frame backend (allNodes : list (string * TreeNode.t)) :
  Forall2 (fun kn kn' => fst kn' = fst kn /\ search_frame (snd kn) (snd kn'))
    allNodes (snd (embedAllNodes backend allNodes)).
Proof.
  pose proof (embedAllNodes_embedded_as backend allNodes) as H.
  eapply Forall2_impl; [exact H|].
  intros [k node] [k' node'] Has. apply embedded_as_cases in Has as [Hk Hnode].
  simpl in *. split; [exact Hk|].
  destruct Hnode as [->|(Hinc & i & node1 & Hd & Hnode)]; [now repeat split|].
  pose proof (describe_same _ _ _ _ Hd) as Hsame.
  assert (Hs : same_but_search_fields node node').
  { destruct Hnode as [->|[e ->]]; [exact Hsame|].
    unfold same_but_search_fields in *. rewrite <- Hsame. reflexivity. }
  unfold search_frame, complete. split; [exact Hs|]. split.
  - intros [He Hdn]. rewrite He, Hdn in Hinc. discriminate.
  - intros Hdn. rewrite describe_described in Hd by exact Hdn.
    unfold ret in Hd. injection Hd as <-.
    now destruct Hnode as [->|[e ->]].
Qed.

Lemma describe_all_length backend i (marked : list Marked) :
  length (nodesToEmbed (fst (describe_all backend i marked)))
  = length (nodesToEmbed marked).
Proof.
  revert i. induction marked as [|[[k node] []] rest IH]; intros i; [reflexivity| |].
  - rewrite describe_all_cons_true. destruct (describe backend i node); cbn [fst];
      [reflexivity|].
    rewrite !nodesToEmbed_cons_true. simpl. f_equal. apply IH.
  - rewrite describe_all_cons_false. cbn [fst]. rewrite !nodesToEmbed_cons_false. apply IH.
Qed.

Lemma nodesToEmbed_length (allNodes : list (string * TreeNode.t)) :
  length (nodesToEmbed (mark allNodes)) = length (filter incomplete allNodes).
Proof.
  unfold incomplete.
  induction allNodes as [|[k node] rest IH]; [reflexivity|].
  rewrite mark_cons. destruct (lacks_embedding node || lacks_description node) eqn:E.
  - rewrite nodesToEmbed_cons_true, filter_cons_True by exact E. simpl. now f_equal.
  - rewrite nodesToEmbed_cons_false, filter_cons_False; [exact IH|]. simpl. congruence.
Qed.

(** The loop of step 1 ends with an exception only on a [null] reply
    for a node without description. *)
Lemma describe_all_raises backend i (allNodes : list (string * TreeNode.t)) e :
  snd (describe_all backend i (mark allNodes)) = Some e -> null_reply backend allNodes.
Proof.
  revert i. induction allNodes as [|[k node] rest IH]; intros i; [discriminate|].
  rewrite mark_cons. destruct (lacks_embedding node || lacks_description node).
  - rewrite describe_all_cons_true.
    destruct (describe backend i node) as [err|node'] eqn:Hd; cbn [snd].
    + intros _. exists i, k, node. split; [now left|].
      unfold describe, ret, throw in Hd.
      destruct (lacks_description node); [|discriminate]. split; [reflexivity|].
      now destruct (generateNodeDescription backend i (TreeNode.segment node)).
    + intros H. apply IH in H as (j & k' & n' & Hin & Hrest).
      exists j, k', n'. split; [now right | exact Hrest].
  - rewrite describe_all_cons_false. cbn [snd].
    intros H. apply IH in H as (j & k' & n' & Hin & Hrest).
    exists j, k', n'. split; [now right | exact Hrest].
Qed.

Lemma describe_all_no_null backend i (marked : list Marked) :
  (forall j seg, generateNodeDescription backend j seg <> None) ->
  snd (describe_all backend i marked) = None.
Proof.
  intros Hreply. revert i.
  induction marked as [|[[k node] []] rest IH]; intros i; [reflexivity| |].
  - rewrite describe_all_cons_true.
    destruct (describe backend i node) as [err|node'] eqn:Hd; cbn [snd]; [|apply IH].
    unfold describe, ret, throw in Hd. destruct (lacks_description node); [|discriminate].
    destruct (generateNodeDescription backend i (TreeNode.segment node)) eqn:Hg;
      [discriminate|]. now apply Hreply in Hg.
  - rewrite describe_all_cons_false. cbn [snd]. apply IH.
Qed.

Lemma describe_all_described backend i (marked : list Marked) :
  snd (describe_all backend i marked) = None ->
  Forall (fun m => snd m = false -> described (snd (fst m))) marked ->
  Forall (fun m => described (snd (fst m))) (fst (describe_all backend i marked)).
Proof.
  intros Hn H. revert i Hn.
  induction H as [|[[k node] []] rest Hm _ IH]; intros i; [constructor| |].
  - rewrite describe_all_cons_true.
    destruct (describe backend i node) as [err|node'] eqn:Hd; cbn [fst snd]; [discriminate|].
    intros Hn. constructor; [|now apply IH]. simpl. exact (describe_has_description _ _ _ _ Hd).
  - rewrite describe_all_cons_false. cbn [fst snd]. intros Hn.
    constructor; [now apply Hm | now apply IH].
Qed.

Lemma attach_all_described embeddings i (marked : list Marked) :
  Forall (fun m => described (snd (fst m))) marked ->
  Forall (fun m => described (snd (fst m))) (attach_all embeddings i marked).
Proof.
  intros H. revert i. induction H as [|[[k node] []] rest Hm _ IH]; intros i; simpl;
    constructor; try apply IH; exact Hm.
Qed.

Lemma mark_described (allNodes : list (string * TreeNode.t)) :
  Forall (fun m : Marked => snd m = false -> described (snd (fst m))) (mark allNodes).
Proof.
  induction allNodes as [|[k node] rest IH]; [constructor|].
  rewrite mark_cons. constructor; [|exact IH]. simpl. intros E.
  apply orb_false_elim in E as [_ E]. unfold lacks_description in E. unfold described.
  destruct (VideoSegment.description (TreeNode.segment node)); [eauto | discriminate].
Qed.

Lemma unmark_described (marked : list Marked) :
  Forall (fun m => described (snd (fst m))) marked ->
  Forall (fun kn => described (snd kn)) (unmark marked).
Proof. unfold unmark. intros H. now apply Forall_fmap. Qed.

(** X6. [embedAllNodes] keeps every node under its key and writes
    nothing but descriptions and embeddings: every other field of the
    node and of its segment is as before. A node that had an embedding
    and a non-empty description is untouched, and a non-empty
    description is never replaced. Every node is left with a description
    when the run succeeds, and also when it fails unless a description
    reply was the body [null], which ends the run at that node. *)
Theorem embedAllNodes_frame backend (allNodes : list (string * TreeNode.t)) :
  Forall2 (fun kn kn' =>
             fst kn' = fst kn
             /\ same_but_search_fields (snd kn) (snd kn')
             /\ (complete (snd kn) -> snd kn' = snd kn)
             /\ (lacks_description (snd kn) = false ->
                   VideoSegment.description (TreeNode.segment (snd kn'))
                   = VideoSegment.description (TreeNode.segment (snd kn))))
    allNodes (snd (embedAllNodes backend allNodes))
  /\ (fst (embedAllNodes backend allNodes) = true
      \/ (forall i seg, generateNodeDescription backend i seg <> None) ->
      Forall (fun kn' => described (snd kn')) (snd (embedAllNodes backend allNodes))).
Proof.
  split; [exact (embedAllNodes_search_frame backend allNodes)|].
  unfold embedAllNodes.
  destruct (length (nodesToEmbed (mark allNodes)) =? 0) eqn:E.
  - intros _. simpl. rewrite <- (unmark_mark allNodes) at 1.
    apply unmark_described.
    apply Nat.eqb_eq, nodesToEmbed_none in E.
    pose proof (mark_described allNodes) as Hm.
    clear -E Hm. induction allNodes as [|[k node] rest IH]; [constructor|].
    rewrite mark_cons in *. apply Forall_cons in E as [E1 E2]. simpl in E1.
    apply Forall_cons in Hm as [Hm1 Hm2]. rewrite E1 in *.
    constructor; [now apply Hm1 | now apply IH].
  - intros Hno.
    assert (Hn : snd (describe_all backend 0 (mark allNodes)) = None).
    { destruct Hno as [Hok|Hreply]; [|now apply describe_all_no_null].
      destruct (snd (describe_all backend 0 (mark allNodes))); [discriminate | reflexivity]. }
    pose proof (describe_all_described backend 0 (mark allNodes) Hn (mark_described allNodes))
      as Hd.
    rewrite Hn.
    destruct (b_embeddings _) as [embeddings|]; [destruct (b_success _)|]; simpl;
      apply unmark_described; try exact Hd.
    now apply attach_all_described.
Qed.

(** X7. A run of [embedAllNodes] that fails leaves every embedding as
    it was. It fails only when a description reply for a node without
    description is the body [null], or when the batch request, made for
    one text per incomplete node, fails or carries no embeddings. *)
Theorem embedAllNodes_failure backend (allNodes : list (string * TreeNode.t)) :
  fst (embedAllNodes backend allNodes) = false ->
  Forall2 (fun kn kn' =>
             fst kn' = fst kn
             /\ VideoSegment.embedding (TreeNode.segment (snd kn'))
                = VideoSegment.embedding (TreeNode.segment (snd kn)))
    allNodes (snd (embedAllNodes backend allNodes))
  /\ (null_reply backend allNodes
      \/ exists texts,
           length texts = length (filter incomplete allNodes)
           /\ texts <> []
           /\ (b_success (embedBatch backend texts) = false
               \/ b_embeddings (embedBatch backend texts) = None)).
Proof.
  intros Hfail. split.
  - pose proof (embedAllNodes_embedded_as backend allNodes) as H. rewrite Hfail in H.
    eapply Forall2_impl; [exact H|].
    intros [k node] [k' node'] [Hk Hnode]. simpl in *. split; [exact Hk|].
    destruct (lacks_embedding node || lacks_description node).
    + destruct Hnode as [->|[i Hd]]; [reflexivity|]. exact (describe_embedding _ _ _ _ Hd).
    + now subst.
  - revert Hfail. unfold embedAllNodes.
    destruct (length (nodesToEmbed (mark allNodes)) =? 0) eqn:E; [discriminate|].
    destruct (snd (describe_all backend 0 (mark allNodes))) as [e|] eqn:Hn.
    { intros _. left. exact (describe_all_raises _ _ _ _ Hn). }
    set (described := fst (describe_all backend 0 (mark allNodes))).
    set (texts := map _ (nodesToEmbed described)).
    assert (Hlen : length texts = length (filter incomplete allNodes)).
    { unfold texts, described.
      now rewrite length_map, describe_all_length, nodesToEmbed_length. }
    assert (Hne : texts <> []).
    { intros Hnil. rewrite Hnil in Hlen. simpl in Hlen.
      apply Nat.eqb_neq in E. apply E. now rewrite nodesToEmbed_length. }
    intros Hfail. right. exists texts. split; [exact Hlen|]. split; [exact Hne|].
    destruct (b_embeddings (embedBatch backend texts)); [|now right].
    destruct (b_success (embedBatch backend texts)); [discriminate | now left].
Qed.

Lemma embedAllNodes_failure_witness :
  fst (embedAllNodes null_backend search_nodes) = false
  /\ null_reply null_backend search_nodes
  /\ snd (embedAllNodes null_backend search_nodes) = search_nodes.
Proof.
  split; [reflexivity|].
  destruct (embedAllNodes_failure null_backend search_nodes eq_refl) as [_ [Hnull|Hbatch]].
  - split; [exact Hnull | reflexivity].
  - exfalso. destruct Hbatch as (texts & _ & _ & [H|H]); discriminate.
Defined.

Lemma mark_unflagged (allNodes : list (string * TreeNode.t)) :
  Forall unflagged_embedded (mark allNodes).
Proof.
  unfold mark. induction allNodes as [|[k node] rest IH]; simpl; constructor; [|exact IH].
  intros E. simpl in E. now apply orb_false_elim in E as [E _].
Qed.

Lemma describe_all_unflagged backend i (marked : list Marked) :
  Forall unflagged_embedded marked ->
  Forall unflagged_embedded (fst (describe_all backend i marked)).
Proof.
  intros H. revert i. induction H as [|[[k node] []] rest Hm Hrest IH]; intros i;
    [constructor| |].
  - rewrite describe_all_cons_true. destruct (describe backend i node); cbn [fst].
    + now constructor.
    + constructor; [discriminate | apply IH].
  - rewrite describe_all_cons_false. cbn [fst]. constructor; [exact Hm | apply IH].
Qed.

Lemma attach_all_embedded embeddings i (marked : list Marked) :
  i + length (nodesToEmbed marked) <= length embeddings ->
  Forall unflagged_embedded marked ->
  Forall (fun kn => lacks_embedding (snd kn) = false) (unmark (attach_all embeddings i marked)).
Proof.
  intros Hlen H. revert i Hlen. unfold unmark.
  induction H as [|[[k node] []] rest Hm _ IH]; intros i Hlen; simpl; constructor.
  - rewrite nodesToEmbed_cons_true in Hlen. simpl in Hlen.
    destruct (lookup_lt_is_Some_2 embeddings i) as [e He]; [lia|].
    unfold lacks_embedding. simpl. now rewrite He.
  - apply IH. rewrite nodesToEmbed_cons_true in Hlen. simpl in Hlen. lia.
  - now apply Hm.
  - apply IH. now rewrite nodesToEmbed_cons_false in Hlen.
Qed.

(** X8. When [embedAllNodes] succeeds against a back end whose batch
    replies carry at least one embedding per text, every node has an
    embedding afterwards. *)
Theorem embedAllNodes_complete backend (allNodes : list (string * TreeNode.t)) :
  (forall texts embeddings,
     b_embeddings (embedBatch backend texts) = Some embeddings ->
     length texts <= length embeddings) ->
  fst (embedAllNodes backend allNodes) = true ->
  Forall (fun kn => lacks_embedding (snd kn) = false) (snd (embedAllNodes backend allNodes)).
Proof.
  intros Hbatch. unfold embedAllNodes.
  destruct (length (nodesToEmbed (mark allNodes)) =? 0) eqn:E.
  - intros _. apply Nat.eqb_eq, nodesToEmbed_none in E. simpl.
    eapply Forall_impl; [exact E|]. intros kn Hkn.
    now apply orb_false_elim in Hkn as [Hkn _].
  - destruct (snd (describe_all backend 0 (mark allNodes))); [discriminate|].
    set (described := fst (describe_all backend 0 (mark allNodes))).
    set (texts := map _ (nodesToEmbed described)).
    destruct (b_embeddings (embedBatch backend texts)) as [embeddings|] eqn:Hb;
      [|discriminate].
    destruct (b_success (embedBatch backend texts)); [|discriminate].
    intros _. simpl. apply attach_all_embedded.
    + apply Hbatch in Hb. unfold texts in Hb. rewrite length_map in Hb. exact Hb.
    + apply describe_all_unflagged, mark_unflagged.
Qed.

Lemma embedAllNodes_complete_witness :
  fst (embedAllNodes sample_backend search_nodes) = true
  /\ Forall (fun kn => lacks_embedding (snd kn) = false)
       (snd (embedAllNodes sample_backend search_nodes)).
Proof.
  split; [reflexivity|].
  apply (embedAllNodes_complete sample_backend search_nodes); [|reflexivity].
  intros texts embeddings H. simpl in H. injection H as <-. now rewrite length_map.
Defined.

(** ** What [searchNodes] does to the tree *)

Lemma filter_none {A} (P : A -> Prop) `{forall x, Decision (P x)} (l : list A) :
  Forall (fun x => ~ P x) l -> filter P l = [].
Proof.
  induction 1 as [|x l Hx _ IH]; [reflexivity|]. now rewrite filter_cons_False.
Qed.

Lemma filter_none_inv {A} (P : A -> Prop) `{forall x, Decision (P x)} (l : list A) :
  length (filter P l) = 0 -> Forall (fun x => ~ P x) l.
Proof.
  intros Hlen. apply Forall_forall. intros x Hin HP.
  assert (Hx : x ∈ filter P l) by now apply list_elem_of_filter.
  destruct (filter P l); [now apply elem_of_nil in Hx | discriminate].
Qed.

Lemma Forall2_keys (R : TreeNode.t -> TreeNode.t -> Prop)
    (l l' : list (string * TreeNode.t)) :
  Forall2 (fun kn kn' => fst kn' = fst kn /\ R (snd kn) (snd kn')) l l' ->
  l'.*1 = l.*1.
Proof.
  induction 1 as [|kn kn' l l' [Hk _] _ IH]; [reflexivity|]. simpl. now f_equal.
Qed.

Lemma list_to_map_related (R : TreeNode.t -> TreeNode.t -> Prop)
    (m : gmap string TreeNode.t) (l' : list (string * TreeNode.t)) :
  Forall2 (fun kn kn' => fst kn' = fst kn /\ R (snd kn) (snd kn')) (map_to_list m) l' ->
  forall k, option_Forall2 R (m !! k) (list_to_map (M := gmap string TreeNode.t) l' !! k).
Proof.
  intros H k.
  assert (Hkeys : l'.*1 = (map_to_list m).*1) by exact (Forall2_keys R _ _ H).
  assert (Hnd : NoDup l'.*1) by (rewrite Hkeys; apply NoDup_fst_map_to_list).
  destruct (m !! k) as [node|] eqn:E.
  - apply elem_of_map_to_list in E. apply list_elem_of_lookup_1 in E as [i Hi].
    destruct (Forall2_lookup_l _ _ _ _ _ H Hi) as ([k' node'] & Hi' & Hk & HR).
    simpl in *. subst k'. apply list_elem_of_lookup_2 in Hi'.
    apply (elem_of_list_to_map_1 (M := gmap string)) in Hi'; [|exact Hnd].
    rewrite Hi'. now constructor.
  - rewrite (not_elem_of_list_to_map_1 (M := gmap string)); [constructor|].
    rewrite Hkeys. intros Hin. apply list_elem_of_fmap in Hin as ([k' node'] & -> & Hin).
    apply elem_of_map_to_list in Hin. simpl in E. congruence.
Qed.

Lemma search_frame_refl (node : TreeNode.t) : search_frame node node.
Proof. now repeat split. Qed.

Lemma with_nodes_same (tree : LearningTree.t) :
  with_nodes tree (list_to_map (TreeState.getAllNodes tree)) = tree.
Proof.
  unfold with_nodes, TreeState.getAllNodes. rewrite list_to_map_to_list. now destruct tree.
Qed.

(** X9. Whatever its outcome, [searchNodes] leaves [rootIds] and
    [currentNodeId] as they were and the tree with the same keys; under
    each key the node differs from the one before at most in the
    description and the embedding of its segment, and not at all when
    it had an embedding and a non-empty description. *)
Theorem searchNodes_frame backend query (tree : LearningTree.t) (topK : Z) :
  let tree' := snd (searchNodes backend query tree topK) in
  LearningTree.rootIds tree' = LearningTree.rootIds tree
  /\ LearningTree.currentNodeId tree' = LearningTree.currentNodeId tree
  /\ forall k,
       match LearningTree.nodes tree !! k, LearningTree.nodes tree' !! k with
       | Some node, Some node' => search_frame node node'
       | None, None => True
       | _, _ => False
       end.
Proof.
  unfold searchNodes.
  set (embedded := if 0 <? length _ then embedAllNodes backend _ else _).
  assert (Hf : Forall2 (fun kn kn' => fst kn' = fst kn /\ search_frame (snd kn) (snd kn'))
                 (TreeState.getAllNodes tree) (snd embedded)).
  { unfold embedded. destruct (0 <? length _); [apply embedAllNodes_search_frame|].
    simpl. apply Forall_Forall2_diag, Forall_forall. intros kn _.
    split; [reflexivity | apply search_frame_refl]. }
  set (result := if negb (fst embedded) then _ else _).
  assert (Ht : snd result = with_nodes tree (list_to_map (snd embedded))).
  { unfold result. destruct (fst embedded); simpl; [|reflexivity].
    destruct (t_embedding _); [|reflexivity]. destruct (t_success _); [|reflexivity].
    now destruct (collect _ _ _). }
  simpl. rewrite Ht. simpl. split; [reflexivity|]. split; [reflexivity|].
  intros k. destruct (list_to_map_related search_frame _ _ Hf k); [assumption | exact I].
Qed.

(** X10. On a tree all of whose nodes have an embedding, [searchNodes]
    asks the back end for the query embedding only and leaves the tree
    as it is; it succeeds exactly when that request succeeds with an
    embedding of the same dimension as every node's. *)
Theorem searchNodes_embedded_tree backend query (tree : LearningTree.t) (topK : Z) :
  (forall k node, LearningTree.nodes tree !! k = Some node -> lacks_embedding node = false) ->
  snd (searchNodes backend query tree topK) = tree
  /\ (forall backend', embedText backend' query = embedText backend query ->
        searchNodes backend' query tree topK = searchNodes backend query tree topK)
  /\ (success (fst (searchNodes backend query tree topK)) = true <->
      t_success (embedText backend query) = true
      /\ exists q, t_embedding (embedText backend query) = Some q
           /\ forall k node e,
                LearningTree.nodes tree !! k = Some node ->
                VideoSegment.embedding (TreeNode.segment node) = Some e ->
                length e = length q).
Proof.
  intros Hall.
  assert (Hnone : filter (fun kn : string * TreeNode.t => lacks_embedding (snd kn) = true)
                    (TreeState.getAllNodes tree) = []).
  { apply filter_none, Forall_forall. intros [k node] Hin.
    apply elem_of_map_to_list in Hin. simpl. rewrite (Hall k node Hin). discriminate. }
  assert (Hshape : forall b, searchNodes b query tree topK
            = match t_embedding (embedText b query) with
              | Some q =>
                  if t_success (embedText b query) then
                    match collect q (TreeState.getAllNodes tree) [] with
                    | inr results =>
                        ({| success := true;
                            results := Some (JSArray.slice0
                                               (JSArray.sort by_similarity results) topK) |},
                         tree)
                    | inl _ => (failure, tree)
                    end
                  else (failure, tree)
              | None => (failure, tree)
              end).
  { intros b. unfold searchNodes. rewrite Hnone. simpl. rewrite with_nodes_same.
    reflexivity. }
  split; [|split].
  - rewrite Hshape. destruct (t_embedding _); [|reflexivity].
    destruct (t_success _); [|reflexivity]. now destruct (collect _ _ _).
  - intros backend' Hsame. now rewrite !Hshape, Hsame.
  - rewrite Hshape. destruct (t_embedding (embedText backend query)) as [q|].
    + destruct (t_success (embedText backend query)).
      * destruct (collect q (TreeState.getAllNodes tree) []) as [err|found] eqn:Hc; simpl.
        -- split; [discriminate|]. intros [_ (q' & Hq & Hdim)]. injection Hq as <-.
           exfalso. revert Hc. generalize (@nil SearchResult).
           assert (Hin : forall k node, (k, node) ∈ TreeState.getAllNodes tree ->
                     forall e, VideoSegment.embedding (TreeNode.segment node) = Some e ->
                               length e = length q).
           { intros k node Hin e He. apply elem_of_map_to_list in Hin. eauto. }
           revert Hin. generalize (TreeState.getAllNodes tree).
           intros l. induction l as [|[k node] rest IH]; intros Hin acc Hc; simpl in Hc;
             [discriminate|].
           destruct (VideoSegment.embedding (TreeNode.segment node)) as [e|] eqn:He.
           ++ unfold cosineSimilarity in Hc.
              rewrite (Hin k node (list_elem_of_here _ _) e He), Nat.eqb_refl in Hc.
              simpl in Hc. eapply IH; [|exact Hc].
              intros k' node' Hin'. apply (Hin k' node'). now right.
           ++ eapply IH; [|exact Hc].
              intros k' node' Hin'. apply (Hin k' node'). now right.
        -- split; [|reflexivity]. intros _. split; [reflexivity|]. exists q.
           split; [reflexivity|]. intros k node e Hk He.
           apply elem_of_map_to_list in Hk.
           change (map_to_list (LearningTree.nodes tree)) with (TreeState.getAllNodes tree) in Hk.
           revert Hc Hk. generalize (@nil SearchResult). generalize (TreeState.getAllNodes tree).
           intros l. induction l as [|[k' node'] rest IH]; intros acc Hc Hk;
             [now apply elem_of_nil in Hk|].
           simpl in Hc. apply elem_of_cons in Hk as [Hk|Hk].
           ++ injection Hk as <- <-. rewrite He in Hc.
              unfold cosineSimilarity in Hc at 1.
              destruct (length q =? length e) eqn:El; [|discriminate].
              now apply Nat.eqb_eq in El.
           ++ destruct (VideoSegment.embedding (TreeNode.segment node')) as [e'|];
                [|now apply (IH acc)].
              destruct (cosineSimilarity q e'); [discriminate|]. simpl in Hc.
              now apply (IH _ Hc).
      * simpl. split; [discriminate | intros [? _]; discriminate].
    + simpl. split; [discriminate | intros [_ (q & Hq & _)]; discriminate].
Qed.

Lemma searchNodes_embedded_tree_witness :
  snd (searchNodes failing_backend "bark" embedded_tree 2) = embedded_tree
  /\ success (fst (searchNodes failing_backend "bark" embedded_tree 2)) = true.
Proof.
  assert (Hall : forall k node, LearningTree.nodes embedded_tree !! k = Some node ->
                                lacks_embedding node = false).
  { intros k node Hk. apply elem_of_map_to_list in Hk.
    assert (Hf : Forall (fun kn : string * TreeNode.t => lacks_embedding (snd kn) = false)
                   (map_to_list (LearningTree.nodes embedded_tree))).
    { vm_compute. repeat constructor. }
    rewrite Forall_forall in Hf. exact (Hf _ Hk). }
  destruct (searchNodes_embedded_tree failing_backend "bark" embedded_tree 2 Hall)
    as (Htree & _ & _).
  split; [exact Htree | vm_compute; reflexivity].
Defined.

(** ** Which results [searchNodes] returns *)

Lemma collect_candidates (q : list number) (allNodes : list (string * TreeNode.t)) :
  forall acc found,
    collect q allNodes acc = inr found ->
    exists new,
      found = acc ++ new
      /\ Forall2 (result_of q)
           (filter (fun kn => lacks_embedding (snd kn) = false) allNodes) new.
Proof.
  induction allNodes as [|[k node] rest IH]; intros acc found H; simpl in H.
  - injection H as <-. exists []. rewrite app_nil_r. split; [reflexivity | constructor].
  - destruct (VideoSegment.embedding (TreeNode.segment node)) as [e|] eqn:He.
    + destruct (cosineSimilarity q e) as [err|sim] eqn:Hs; [discriminate|].
      simpl in H. apply IH in H as (new & -> & Hnew).
      eexists (_ :: new). rewrite <- app_assoc. split; [reflexivity|].
      rewrite filter_cons_True by (unfold lacks_embedding; simpl; now rewrite He).
      constructor; [|exact Hnew]. exists e. simpl. now repeat split.
    + apply IH in H as (new & -> & Hnew). exists new. split; [reflexivity|].
      rewrite filter_cons_False; [exact Hnew|].
      unfold lacks_embedding. simpl. rewrite He. discriminate.
Qed.

Lemma sorted_app_elem {A} (R : A -> A -> Prop) (l1 l2 : list A) :
  StronglySorted R (l1 ++ l2) -> forall x y, x ∈ l1 -> y ∈ l2 -> R x y.
Proof.
  induction l1 as [|a l1 IH]; intros Hs x y Hx Hy; [now apply elem_of_nil in Hx|].
  simpl in Hs. apply StronglySorted_inv in Hs as [Hs Hall].
  apply elem_of_cons in Hx as [->|Hx]; [|now apply IH].
  rewrite Forall_forall in Hall. apply Hall. apply elem_of_app. now right.
Qed.

(** X11. A successful [searchNodes(query, tree, topK)] with [topK >= 0]
    considers every node that has an embedding in the tree as the search
    leaves it: the number of results is [topK] or, if there are fewer,
    the number of those nodes; each such node either is among the
    results, with its similarity to the query embedding, or there are
    [topK] results, none of which is less similar than this node when
    none of the similarities of the nodes is NaN. *)
Theorem searchNodes_top backend query (tree : LearningTree.t) (topK : Z) rs tree' :
  searchNodes backend query tree topK
    = ({| success := true; results := Some rs |}, tree') ->
  (0 <= topK)%Z ->
  exists q,
    t_embedding (embedText backend query) = Some q
    /\ length rs
       = Nat.min (Z.to_nat topK)
           (length (filter (fun kn => lacks_embedding (snd kn) = false)
                      (TreeState.getAllNodes tree')))
    /\ forall k node e,
         LearningTree.nodes tree' !! k = Some node ->
         VideoSegment.embedding (TreeNode.segment node) = Some e ->
         exists sim,
           cosineSimilarity q e = ret sim
           /\ ((exists r, r ∈ rs /\ nodeId r = TreeNode.id node
                          /\ segment r = TreeNode.segment node /\ similarity r = sim)
               \/ (length rs = Z.to_nat topK
                   /\ (no_nan (similarities q tree') = true ->
                       forall r, r ∈ rs -> (sim <=? similarity r)%float = true))).
Proof.
  intros H HtopK.
  apply searchNodes_success_query in H
    as (allNodes & q & found & Hkeys & -> & Hq & Hc & ->).
  exists q. split; [exact Hq|].
  assert (Hnd : NoDup allNodes.*1) by (rewrite Hkeys; apply NoDup_fst_map_to_list).
  pose proof (found_similarities q tree allNodes found Hnd Hc) as Hsub.
  apply collect_candidates in Hc as (new & -> & Hnew). simpl in *.
  set (sorted := JSArray.sort by_similarity new).
  assert (Hslice : JSArray.slice0 sorted topK = take (Z.to_nat topK) sorted).
  { unfold JSArray.slice0. destruct (topK <? 0)%Z eqn:E; [lia | reflexivity]. }
  assert (Hperm : sorted ≡ₚ new) by apply JSArrayFacts.sort_perm.
  rewrite Hslice. split.
  - rewrite length_take, (Permutation_length Hperm), <- (Forall2_length _ _ _ Hnew).
    f_equal. apply Permutation_length.
    unfold TreeState.getAllNodes. simpl.
    now rewrite (map_to_list_to_map (M := gmap string) allNodes Hnd).
  - intros k node e Hk He.
    apply (elem_of_list_to_map (M := gmap string)) in Hk; [|exact Hnd].
    assert (Hin : (k, node) ∈ filter (fun kn : string * TreeNode.t =>
                                        lacks_embedding (snd kn) = false) allNodes).
    { apply list_elem_of_filter. split; [|exact Hk].
      unfold lacks_embedding. simpl. now rewrite He. }
    apply list_elem_of_lookup_1 in Hin as [i Hi].
    destruct (Forall2_lookup_l _ _ _ _ _ Hnew Hi) as (r & Hr & e' & He' & Hsim & Hid & Hseg).
    simpl in *. assert (e' = e) as -> by congruence.
    exists (similarity r). split; [exact Hsim|].
    apply list_elem_of_lookup_2 in Hr. rewrite <- Hperm in Hr.
    rewrite <- (take_drop (Z.to_nat topK) sorted) in Hr.
    apply elem_of_app in Hr as [Hr|Hr].
    + left. exists r. now repeat split.
    + right. split.
      * rewrite length_take. apply Nat.min_l.
        destruct (decide (Z.to_nat topK <= length sorted)) as [Hle|Hgt]; [exact Hle|].
        rewrite drop_ge in Hr by lia. now apply elem_of_nil in Hr.
      * intros Hnan r' Hr'.
        assert (Hsorted : non_increasing sorted).
        { apply sort_non_increasing. exact (no_nan_subseteq _ _ Hsub Hnan). }
        unfold non_increasing in Hsorted.
        rewrite <- (take_drop (Z.to_nat topK) sorted) in Hsorted.
        exact (sorted_app_elem _ _ _ Hsorted r' r Hr' Hr).
Qed.

Lemma searchNodes_top_witness :
  searchNodes sample_backend "bark" search_tree 2
    = ({| success := true; results := Some sample_results |}, sample_tree_after)
  /\ (0 <= 2)%Z
  /\ exists q, t_embedding (embedText sample_backend "bark") = Some q
               /\ no_nan (similarities q sample_tree_after) = true
               /\ length sample_results = 2.
Proof.
  assert (E : searchNodes sample_backend "bark" search_tree 2
              = ({| success := true; results := Some sample_results |}, sample_tree_after)).
  { apply injective_projections; [vm_compute; reflexivity | reflexivity]. }
  split; [exact E|]. split; [lia|].
  destruct (searchNodes_top _ _ _ _ _ _ E ltac:(lia)) as (q & Hq & _).
  exists q. split; [exact Hq|]. split; [|reflexivity].
  simpl in Hq. injection Hq as <-. vm_compute. reflexivity.
Defined.

End SearchMore.

(* ===================================================================== *)
(** * More on the carousel *)
(* ===================================================================== *)

Module NodeCarouselMore.
Import NodeCarousel NodeCarouselFacts.

Lemma first_occurrences_distinct (l : list TreeNode.t) :
  NoDup (TreeNode.id <$> l) -> first_occurrences l = l.
Proof.
  induction l as [|node rest IH]; intros Hnd; [reflexivity|].
  simpl in Hnd. apply NoDup_cons in Hnd as [Hnotin Hnd]. simpl. f_equal.
  rewrite IH by exact Hnd. clear IH Hnd.
  induction rest as [|n rest IH]; [reflexivity|].
  simpl in Hnotin. apply not_elem_of_cons in Hnotin as [Hne Hnotin].
  rewrite filter_cons_True by congruence. f_equal. now apply IH.
Qed.

(** X12. When the path to the current node and the children of the
    current node have pairwise distinct ids, the carousel is the path
    followed by the children, nothing removed; in any case the carousel
    is empty only if both are empty, and it starts with the first node
    of the path. *)
Theorem getCarouselNodes_distinct
    (getCurrentNode : LearningTree.t -> option TreeNode.t)
    (getPathFromRoot : LearningTree.t -> string -> Try (list TreeNode.t))
    (getChildren : LearningTree.t -> string -> list TreeNode.t)
    (tree : LearningTree.t) (currentNode : TreeNode.t) (pathNodes : list TreeNode.t) :
  getCurrentNode tree = Some currentNode ->
  getPathFromRoot tree (TreeNode.id currentNode) = ret pathNodes ->
  let children := getChildren tree (TreeNode.id currentNode) in
  exists shown,
    getCarouselNodes getCurrentNode getPathFromRoot getChildren tree = ret shown
    /\ (NoDup (TreeNode.id <$> pathNodes ++ children) -> shown = pathNodes ++ children)
    /\ (shown = [] -> pathNodes = [] /\ children = [])
    /\ head shown = head (pathNodes ++ children).
Proof.
  intros Hcur Hpath children. unfold getCarouselNodes. rewrite Hcur, Hpath. simpl.
  eexists. split; [reflexivity|]. rewrite filter_unseen_empty. fold children.
  split; [apply first_occurrences_distinct|].
  split; [|now destruct (pathNodes ++ children)].
  intros Hnil. destruct (pathNodes ++ children) eqn:E; [|discriminate].
  now apply app_eq_nil in E.
Qed.

Lemma getCarouselNodes_distinct_witness :
  exists shown,
    getCarouselNodes TreeState.getCurrentNode TreeState.getPathFromRoot TreeState.getChildren
      Samples.family = ret shown
    /\ length shown = 3.
Proof.
  destruct (getCarouselNodes_distinct
              TreeState.getCurrentNode TreeState.getPathFromRoot TreeState.getChildren
              Samples.family
              (Samples.sample_node "r" None ["a"%string; "b"%string] 0)
              [Samples.sample_node "r" None ["a"%string; "b"%string] 0]
              eq_refl eq_refl)
    as (shown & Hshown & Hdistinct & _).
  exists shown. split; [exact Hshown|]. rewrite Hdistinct; [reflexivity|].
  vm_compute. repeat constructor; set_solver.
Defined.

End NodeCarouselMore.

(* ===================================================================== *)
(** * More on the home page and the landing page *)
(* ===================================================================== *)

Module HomePageMore.
Import CachedSession HomePage HomePageFacts CacheKeySpec Samples.

(** X13. A session the load effect hands over is the stored one, with a
    non-empty tree and with nothing changed but perhaps [currentNodeId]:
    either the stored [currentNodeId] was valid and the session is the
    stored one, or it was not and [currentNodeId] is now [rootIds[0]],
    whether or not that is the id of a node. Running the effect on its
    own result changes nothing. *)
Theorem load_session_effect_loaded (stored : option VideoSession.t) (loaded : VideoSession.t) :
  load_session_effect stored = Some loaded ->
  exists cached,
    stored = Some cached
    /\ LearningTree.nodes (VideoSession.tree loaded)
       = LearningTree.nodes (VideoSession.tree cached)
    /\ LearningTree.nodes (VideoSession.tree cached) <> ∅
    /\ LearningTree.rootIds (VideoSession.tree loaded)
       = LearningTree.rootIds (VideoSession.tree cached)
    /\ VideoSession.context loaded = VideoSession.context cached
    /\ VideoSession.sessionId loaded = VideoSession.sessionId cached
    /\ (isValidNode (VideoSession.tree cached) = true /\ loaded = cached
        \/ isValidNode (VideoSession.tree cached) = false
           /\ head (LearningTree.rootIds (VideoSession.tree cached))
              = Some (LearningTree.currentNodeId (VideoSession.tree loaded)))
    /\ load_session_effect (Some loaded) = Some loaded.
Proof.
  destruct stored as [cached|]; [|discriminate]. unfold load_session_effect.
  destruct (0 <? size (LearningTree.nodes (VideoSession.tree cached))) eqn:Hsize;
    [|discriminate].
  assert (Hne : LearningTree.nodes (VideoSession.tree cached) <> ∅).
  { intros Hempty. rewrite Hempty, map_size_empty in Hsize. discriminate. }
  destruct (isValidNode (VideoSession.tree cached)) eqn:Hvalid; simpl.
  - intros H. injection H as <-. exists cached. rewrite Hsize, Hvalid. simpl.
    repeat split; auto.
  - destruct (LearningTree.rootIds (VideoSession.tree cached)) as [|root0 rest] eqn:Hroots;
      [discriminate|].
    intros H. injection H as <-. exists cached. simpl. rewrite Hsize, Hroots.
    repeat split; auto.
    destruct (negb (isValidNode _)); reflexivity.
Qed.

Lemma load_session_effect_loaded_witness :
  load_session_effect (Some (stored_sample "gone")) = Some (stored_sample "n1")
  /\ load_session_effect (Some (stored_sample "n1")) = Some (stored_sample "n1").
Proof.
  assert (H : load_session_effect (Some (stored_sample "gone")) = Some (stored_sample "n1"))
    by reflexivity.
  split; [exact H|].
  destruct (load_session_effect_loaded _ _ H) as (cached & _ & _ & _ & _ & _ & _ & _ & Hidem).
  exact Hidem.
Defined.

Lemma loadCachedSession_fulfilled (remote : Remote) (topic : string) :
  exists r, loadCachedSession remote topic = Fulfilled r.
Proof.
  unfold loadCachedSession, load_body, await_fetch.
  destruct (JS.get CACHED_SESSIONS topic) as [sessionPath|]; [|eauto].
  destruct (negb (JS.truthy_value sessionPath)); [eauto|].
  destruct (remote sessionPath) as [|[] status []]; simpl; eauto.
Qed.

Lemma apply_voice_tree (session : VideoSession.t) (voiceId : option string) :
  VideoSession.tree (apply_voice session voiceId) = VideoSession.tree session
  /\ VideoSession.sessionId (apply_voice session voiceId) = VideoSession.sessionId session.
Proof.
  unfold apply_voice. destruct voiceId as [v|]; [|now split].
  destruct (JS.truthy v && _); now split.
Qed.

Lemma apply_voice_voiceId (session : VideoSession.t) (v : string) :
  JS.truthy v = true ->
  LearningContext.voiceId (VideoSession.context (apply_voice session (Some v))) = Some v.
Proof.
  intros Hv. unfold apply_voice. rewrite Hv. simpl.
  case_bool_decide as E; simpl; [exact E | reflexivity].
Qed.

(** X14. Where a submission that completes ends. A session in memory
    that has nodes is resumed whatever the remote store holds and
    whatever the topic: the cache is not consulted. Otherwise the
    submission ends with the session loaded from the cache for its cache
    key, or on the generation path. A session it resumes or loads from
    the cache keeps its tree, and carries the voice chosen whenever one
    is given. *)
Theorem handleTopicSubmit_session (remote : Remote) (existingSession : option VideoSession.t)
    (topic : string) (voiceId imageData imageFileName : option string)
    (outcome : Submitted) :
  handleTopicSubmit remote existingSession topic voiceId imageData imageFileName
    = Fulfilled outcome ->
  match outcome with
  | ResumeExisting session finalTopic =>
      exists existing,
        existingSession = Some existing
        /\ LearningTree.nodes (VideoSession.tree existing) <> ∅
        /\ VideoSession.tree session = VideoSession.tree existing
        /\ finalTopic = final_topic topic imageData
        /\ forall remote',
             handleTopicSubmit remote' existingSession topic voiceId imageData imageFileName
             = Fulfilled outcome
  | LoadedFromCache session =>
      has_nodes existingSession = false
      /\ exists cached,
           loadCachedSession remote (cache_key topic imageData imageFileName)
             = Fulfilled (Some cached)
           /\ VideoSession.tree session = VideoSession.tree cached
  | GenerateFresh finalTopic =>
      has_nodes existingSession = false /\ finalTopic = final_topic topic imageData
  end
  /\ forall session v,
       (outcome = LoadedFromCache session \/ exists ft, outcome = ResumeExisting session ft) ->
       voiceId = Some v -> JS.truthy v = true ->
       LearningContext.voiceId (VideoSession.context session) = Some v.
Proof.
  unfold handleTopicSubmit.
  destruct (has_nodes existingSession) eqn:Hex.
  - destruct existingSession as [existing|]; [|discriminate]. simpl in Hex.
    intros H. injection H as <-. split.
    + exists existing. split; [reflexivity|]. split.
      * intros Hempty. rewrite Hempty, map_size_empty in Hex. discriminate.
      * split; [apply apply_voice_tree|]. split; reflexivity.
    + intros session v [H|[ft H]] -> Hv; [discriminate|].
      injection H as <- _. now apply apply_voice_voiceId.
  - intros Hout.
    assert (Hshape : outcome = GenerateFresh (final_topic topic imageData)
                     \/ exists cached,
                          loadCachedSession remote (cache_key topic imageData imageFileName)
                            = Fulfilled (Some cached)
                          /\ outcome = LoadedFromCache (apply_voice cached voiceId)).
    { assert (Hfrom :
        (if hasCachedSession (cache_key topic imageData imageFileName)
         then match loadCachedSession remote (cache_key topic imageData imageFileName) with
              | Rejected e => Rejected e
              | Fulfilled (Some cached) =>
                  Fulfilled (LoadedFromCache (apply_voice cached voiceId))
              | Fulfilled None => Fulfilled (GenerateFresh (final_topic topic imageData))
              end
         else Fulfilled (GenerateFresh (final_topic topic imageData)))
        = Fulfilled outcome) by (destruct existingSession; exact Hout).
      clear Hout.
      destruct (hasCachedSession _);
        [|injection Hfrom as <-; now left].
      destruct (loadCachedSession remote (cache_key topic imageData imageFileName))
        as [[cached|]|e] eqn:Hload; [| |discriminate]; injection Hfrom as <-.
      - right. now exists cached.
      - now left. }
    destruct Hshape as [->|(cached & Hload & ->)].
    + split; [now split|]. intros session v [H|[ft H]]; discriminate.
    + split.
      * split; [reflexivity|]. exists cached. split; [exact Hload | apply apply_voice_tree].
      * intros session v [H|[ft H]] -> Hv; [|discriminate].
        injection H as <-. now apply apply_voice_voiceId.
Qed.

Lemma handleTopicSubmit_session_witness :
  handleTopicSubmit (serves good_tree) (Some (stored_sample "n1")) "Photosynthesis"
    (Some "K80wneyktrw2rE11kA2W"%string) None None
  = Fulfilled (ResumeExisting
                 (apply_voice (stored_sample "n1") (Some "K80wneyktrw2rE11kA2W"%string))
                 "Photosynthesis")
  /\ LearningContext.voiceId
       (VideoSession.context
          (apply_voice (stored_sample "n1") (Some "K80wneyktrw2rE11kA2W"%string)))
     = Some "K80wneyktrw2rE11kA2W"%string.
Proof.
  assert (H : handleTopicSubmit (serves good_tree) (Some (stored_sample "n1")) "Photosynthesis"
                (Some "K80wneyktrw2rE11kA2W"%string) None None
              = Fulfilled (ResumeExisting
                             (apply_voice (stored_sample "n1")
                                (Some "K80wneyktrw2rE11kA2W"%string))
                             "Photosynthesis")) by reflexivity.
  split; [exact H|].
  destruct (handleTopicSubmit_session _ _ _ _ _ _ _ H) as [_ Hvoice].
  apply (Hvoice _ "K80wneyktrw2rE11kA2W"%string); [right; eauto | reflexivity | reflexivity].
Defined.

(** ** Cache keys *)

Lemma non_empty_length (s : string) : (0 <? String.length s) = true <-> s <> EmptyString.
Proof.
  destruct s; split; intros H; try reflexivity; try discriminate; try congruence.
Qed.

Lemma splittable_app (t n : string) :
  t <> EmptyString -> n <> EmptyString -> splittable (t +:+ "__" +:+ n) = true.
Proof.
  induction t as [|c t IH]; intros Ht Hn; [contradiction|].
  simpl. destruct t as [|d t].
  - simpl. destruct n as [|e n]; [contradiction | reflexivity].
  - rewrite IH by (exact Hn || discriminate). apply orb_true_r.
Qed.

Lemma cached_not_splittable (key : string) :
  hasCachedSession key = true -> splittable key = false.
Proof.
  unfold hasCachedSession. rewrite JSFacts.has_property_spec.
  intros [H|H]; simpl in H;
    repeat (destruct H as [<-|H]; [reflexivity|]); contradiction.
Qed.

(** X15. A submission with both a text and a named image has the cache
    key [topic__fileName]. No such key is in [CACHED_SESSIONS], nor is it
    a name inherited from [Object.prototype]: unless a session is
    resumed, the submission always takes the generation path, with the
    text as the topic. *)
Theorem text_and_image_not_cached (topic : string) (imageData : option string)
    (imageFileName : string) :
  JS.trim topic <> EmptyString ->
  JS.truthy_opt imageData = true ->
  imageFileName <> EmptyString ->
  cache_key topic imageData (Some imageFileName) = topic +:+ "__" +:+ imageFileName
  /\ hasCachedSession (cache_key topic imageData (Some imageFileName)) = false
  /\ forall remote existingSession voiceId,
       has_nodes existingSession = false ->
       handleTopicSubmit remote existingSession topic voiceId imageData (Some imageFileName)
       = Fulfilled (GenerateFresh topic).
Proof.
  intros Htext Himage Hname.
  assert (HhasText : (0 <? String.length (JS.trim topic)) = true)
    by now apply non_empty_length.
  assert (Htruthy : JS.truthy imageFileName = true) by now apply JSFacts.truthy_true.
  assert (Hkey : cache_key topic imageData (Some imageFileName)
                 = topic +:+ "__" +:+ imageFileName).
  { unfold cache_key. now rewrite HhasText, Himage, Htruthy. }
  assert (Hmiss : hasCachedSession (cache_key topic imageData (Some imageFileName)) = false).
  { rewrite Hkey. apply not_true_is_false. intros Hcached.
    apply cached_not_splittable in Hcached.
    rewrite splittable_app in Hcached; [discriminate | | exact Hname].
    intros ->. now apply Htext. }
  split; [exact Hkey|]. split; [exact Hmiss|].
  intros remote existingSession voiceId Hex. unfold handleTopicSubmit.
  rewrite Hmiss, Hex. unfold final_topic. rewrite HhasText.
  now destruct existingSession.
Qed.

Lemma text_and_image_not_cached_witness :
  hasCachedSession (cache_key "Photosynthesis" (Some "data:image/png;base64,AAAA"%string)
                      (Some "leaf.png"%string)) = false
  /\ cache_key "Photosynthesis" (Some "data:image/png;base64,AAAA"%string)
       (Some "leaf.png"%string) = "Photosynthesis__leaf.png"%string.
Proof.
  destruct (text_and_image_not_cached "Photosynthesis"
              (Some "data:image/png;base64,AAAA"%string) "leaf.png")
    as (Hkey & Hmiss & _); [discriminate | reflexivity | discriminate |].
  split; [exact Hmiss | exact Hkey].
Defined.

(** ** The landing page *)

Lemma trimStart_idempotent (s : string) : JS.trimStart (JS.trimStart s) = JS.trimStart s.
Proof.
  induction s as [|c s IH]; [reflexivity|]. simpl.
  destruct (JS.is_whitespace c) eqn:Hw; [exact IH|]. simpl. now rewrite Hw.
Qed.

Lemma trimEnd_cons (c : ascii) (s : string) :
  JS.trimEnd (String c s)
  = if JS.is_whitespace c && JS.is_empty (JS.trimEnd s) then EmptyString
    else String c (JS.trimEnd s).
Proof. reflexivity. Qed.

Lemma trimEnd_idempotent (s : string) : JS.trimEnd (JS.trimEnd s) = JS.trimEnd s.
Proof.
  induction s as [|c s IH]; [reflexivity|]. rewrite trimEnd_cons.
  destruct (JS.is_whitespace c && JS.is_empty (JS.trimEnd s)) eqn:E; [reflexivity|].
  now rewrite trimEnd_cons, IH, E.
Qed.

Lemma trimStart_trimEnd (s : string) :
  JS.trimStart (JS.trimEnd (JS.trimStart s)) = JS.trimEnd (JS.trimStart s).
Proof.
  induction s as [|c s IH]; [reflexivity|]. simpl JS.trimStart at 2 3.
  destruct (JS.is_whitespace c) eqn:Hw; [exact IH|].
  rewrite trimEnd_cons, Hw. simpl. now rewrite Hw.
Qed.

Lemma trim_idempotent (s : string) : JS.trim (JS.trim s) = JS.trim s.
Proof. unfold JS.trim. now rewrite trimStart_trimEnd, trimEnd_idempotent. Qed.

(** X16. The landing page submits nothing exactly when the text is
    blank and there is no image. Otherwise it submits the trimmed text,
    the voice selected, and the image and its file name when they are
    not empty. What it submits always has a topic to show: the final
    topic that [handleTopicSubmit] derives is the trimmed text when there
    is one and "Explain this image" otherwise, never blank. A text
    without an image is looked up in the cache under its trimmed form. *)
Theorem landing_submission (topic selectedVoice : string) (imageData fileName : option string) :
  (LandingPage.handleSubmit topic selectedVoice imageData fileName = None
   <-> JS.trim topic = EmptyString /\ JS.truthy_opt imageData = false)
  /\ forall s,
       LandingPage.handleSubmit topic selectedVoice imageData fileName = Some s ->
       LandingPage.topic s = JS.trim topic
       /\ LandingPage.voiceId s = Some selectedVoice
       /\ LandingPage.imageData s = (if JS.truthy_opt imageData then imageData else None)
       /\ LandingPage.imageFileName s = (if JS.truthy_opt fileName then fileName else None)
       /\ let finalTopic := final_topic (LandingPage.topic s) (LandingPage.imageData s) in
          JS.trim finalTopic <> EmptyString
          /\ finalTopic = (if JS.truthy (JS.trim topic) then JS.trim topic
                           else "Explain this image"%string)
          /\ (JS.truthy_opt imageData = false ->
                cache_key (LandingPage.topic s) (LandingPage.imageData s)
                  (LandingPage.imageFileName s) = JS.trim topic).
Proof.
  assert (Hor : forall x, LandingPage.or_undefined x = if JS.truthy_opt x then x else None).
  { intros [x|]; [|reflexivity]. simpl. now destruct (JS.truthy x). }
  unfold LandingPage.handleSubmit.
  destruct (JS.truthy (JS.trim topic)) eqn:Htext; simpl.
  - assert (Hne : JS.trim topic <> EmptyString) by now apply JSFacts.truthy_true.
    split; [split; [discriminate | intros [H _]; contradiction]|].
    intros s Hs. injection Hs as <-. cbn [LandingPage.topic LandingPage.voiceId
      LandingPage.imageData LandingPage.imageFileName].
    split; [reflexivity|]. split; [reflexivity|]. split; [apply Hor|]. split; [apply Hor|].
    assert (Hlen : (0 <? String.length (JS.trim (JS.trim topic))) = true).
    { rewrite trim_idempotent. now apply non_empty_length. }
    unfold final_topic, cache_key. rewrite Hlen. simpl.
    split; [now rewrite trim_idempotent|]. split; [reflexivity|].
    intros Himage.
    assert (Hnone : JS.truthy_opt (LandingPage.or_undefined imageData) = false).
    { destruct imageData as [d|]; [|reflexivity]. simpl in *. now rewrite Himage. }
    rewrite Hnone. simpl. now destruct (LandingPage.or_undefined fileName).
  - assert (Hempty : JS.trim topic = EmptyString).
    { destruct (JS.trim topic); [reflexivity | discriminate]. }
    destruct (JS.truthy_opt imageData) eqn:Himage; simpl.
    + split; [split; [discriminate | intros [_ H]; discriminate]|].
      intros s Hs. injection Hs as <-. cbn [LandingPage.topic LandingPage.voiceId
        LandingPage.imageData LandingPage.imageFileName].
      split; [reflexivity|]. split; [reflexivity|].
      split; [now rewrite Hor, Himage|]. split; [apply Hor|].
      rewrite Hempty.
      assert (Hsome : JS.truthy_opt (LandingPage.or_undefined imageData) = true).
      { rewrite Hor, Himage. exact Himage. }
      unfold final_topic. simpl. rewrite Hsome. simpl.
      split; [discriminate|]. split; [reflexivity | discriminate].
    + split; [now split | discriminate].
Qed.



End HomePageMore.

(* ===================================================================== *)
(** * Embeddings kept in [localStorage] *)
(* ===================================================================== *)

Module StorageFacts.
Import Search SearchSpec StorageSpec EmbeddingStorage Samples.







Lemma restore_frame (embeddings : gmap string Entry) (node : TreeNode.t) :
  same_but_search_fields node (restore embeddings node)
  /\ (lacks_embedding node = false -> lacks_embedding (restore embeddings node) = false)
  /\ (lacks_description node = false -> lacks_description (restore embeddings node) = false)
  /\ (embeddings !! TreeNode.id node = None -> restore embeddings node = node).
Proof.
  unfold restore, same_but_search_fields.
  destruct (embeddings !! TreeNode.id node) as [[[d|] [e|]]|]; simpl;
    try destruct (JS.truthy d) eqn:Hd; repeat split; intros; try assumption;
    try discriminate.
  all: unfold lacks_description; simpl; now rewrite Hd.
Qed.

(** X18. Whatever [localStorage] holds, [loadEmbeddingsFromStorage]
    keeps [rootIds], [currentNodeId] and every node under its key, and
    writes nothing but descriptions and embeddings; it never takes an
    embedding or a non-empty description away. With nothing stored for
    the session, or a text that is not JSON, the tree is as before. *)
Theorem loadEmbeddingsFromStorage_frame (storage : Storage) (sessionId : string)
    (tree : LearningTree.t) :
  let tree' := loadEmbeddingsFromStorage storage sessionId tree in
  LearningTree.rootIds tree' = LearningTree.rootIds tree
  /\ LearningTree.currentNodeId tree' = LearningTree.currentNodeId tree
  /\ (forall k,
        match LearningTree.nodes tree !! k, LearningTree.nodes tree' !! k with
        | Some node, Some node' =>
            same_but_search_fields node node'
            /\ (lacks_embedding node = false -> lacks_embedding node' = false)
            /\ (lacks_description node = false -> lacks_description node' = false)
        | None, None => True
        | _, _ => False
        end)
  /\ match storage !! storage_key sessionId with
     | None | Some NotJson => tree' = tree
     | Some (Stored _) => True
     end.
Proof.
  unfold loadEmbeddingsFromStorage.
  destruct (storage !! storage_key sessionId) as [[|embeddings]|]; simpl.
  1, 3: repeat split; intros k; destruct (LearningTree.nodes tree !! k);
        now repeat split.
  repeat split. intros k. rewrite lookup_fmap.
  destruct (LearningTree.nodes tree !! k) as [node|]; simpl; [|exact I].
  destruct (restore_frame embeddings node) as (H1 & H2 & H3 & _). now repeat split.
Qed.



End StorageFacts.

(* ===================================================================== *)
(** * Searching without the service, and the two search views *)
(* ===================================================================== *)

Module SearchOffline.
Import Search SearchSpec SearchFacts SearchMore Requests RequestSpec SearchViews Samples.

Lemma request_offline {A} (failed : A) (outcome : Outcome A) :
  (forall data, outcome <> Parsed data) -> request failed outcome = failed.
Proof. destruct outcome; intros H; [reflexivity.. | now destruct (H data)]. Qed.

Lemma describe_offline (service : Service) (i : nat) (node : TreeNode.t) :
  offline service -> describe (backend_of service) i node = ret (left_offline node).
Proof.
  intros (Hd & _ & _). unfold describe, left_offline.
  destruct (lacks_description node) eqn:E; [|reflexivity].
  simpl. now rewrite (request_offline _ _ (Hd i (TreeNode.segment node))).
Qed.

Lemma describe_all_offline (service : Service) (i : nat) (allNodes : list (string * TreeNode.t)) :
  offline service ->
  unmark (fst (describe_all (backend_of service) i (mark allNodes)))
  = prod_map id left_offline <$> allNodes
  /\ snd (describe_all (backend_of service) i (mark allNodes)) = None.
Proof.
  intros Hoff. revert i. induction allNodes as [|[k node] rest IH]; intros i; [now split|].
  rewrite mark_cons. destruct (lacks_embedding node || lacks_description node) eqn:E.
  - rewrite describe_all_cons_true, (describe_offline service i node Hoff). unfold ret.
    cbn [fst snd]. rewrite unmark_cons. destruct (IH (S i)) as [-> ->]. now split.
  - rewrite describe_all_cons_false. cbn [fst snd]. rewrite unmark_cons.
    destruct (IH i) as [-> ->]. split; [|reflexivity]. cbn [fst fmap list_fmap].
    f_equal. unfold prod_map, left_offline. simpl.
    apply orb_false_elim in E as [_ ->]. reflexivity.
Qed.

Lemma embedAllNodes_offline (service : Service) (allNodes : list (string * TreeNode.t)) :
  offline service ->
  snd (embedAllNodes (backend_of service) allNodes) = prod_map id left_offline <$> allNodes
  /\ (fst (embedAllNodes (backend_of service) allNodes) = true ->
      Forall (fun kn => lacks_embedding (snd kn) = false) allNodes).
Proof.
  intros Hoff. unfold embedAllNodes.
  destruct (length (nodesToEmbed (mark allNodes)) =? 0) eqn:E.
  - apply Nat.eqb_eq, nodesToEmbed_none in E. simpl. split.
    + clear Hoff. induction E as [|[k node] rest Hkn _ IH]; [reflexivity|].
      cbn [fmap list_fmap]. rewrite <- IH. f_equal. unfold prod_map, left_offline. simpl.
      simpl in Hkn. apply orb_false_elim in Hkn as [_ ->]. reflexivity.
    + intros _. eapply Forall_impl; [exact E|]. intros kn Hkn.
      now apply orb_false_elim in Hkn as [Hkn _].
  - destruct (describe_all_offline service 0 allNodes Hoff) as [Hd ->].
    destruct Hoff as (_ & Hb & _).
    set (texts := map _ (nodesToEmbed _)).
    assert (Hbatch : embedBatch (backend_of service) texts
                     = {| b_success := false; b_embeddings := None |}).
    { simpl. apply request_offline. apply Hb. }
    rewrite Hbatch. simpl. split; [exact Hd | discriminate].
Qed.

(** X20. When no request gets a parsed body back (the network is down,
    the response is not ok, or the body is not JSON), [searchNodes]
    reports failure and leaves [rootIds] and [currentNodeId] alone. When
    some node of the tree has no embedding, every node without a
    non-empty description gets its title, or else its topic, as its
    description, and the nodes are otherwise as they were; when every
    node has an embedding the tree is left as it was. *)
Theorem searchNodes_offline (service : Service) (query : string) (tree : LearningTree.t)
    (topK : Z) :
  offline service ->
  let tree' := snd (searchNodes (backend_of service) query tree topK) in
  fst (searchNodes (backend_of service) query tree topK) = failure
  /\ LearningTree.rootIds tree' = LearningTree.rootIds tree
  /\ LearningTree.currentNodeId tree' = LearningTree.currentNodeId tree
  /\ (needs_embedding tree ->
      LearningTree.nodes tree' = left_offline <$> LearningTree.nodes tree)
  /\ (~ needs_embedding tree -> tree' = tree).
Proof.
  intros Hoff.
  assert (Htext : embedText (backend_of service) query
                  = {| t_success := false; t_embedding := None |}).
  { simpl. apply request_offline. apply Hoff. }
  unfold searchNodes. rewrite Htext. simpl.
  set (lacking := filter (fun kn : string * TreeNode.t => lacks_embedding (snd kn) = true)
                    (TreeState.getAllNodes tree)).
  set (embedded := if 0 <? length lacking then embedAllNodes (backend_of service) _ else _).
  assert (Hshape : (if negb (fst embedded)
                    then (failure, with_nodes tree (list_to_map (snd embedded)))
                    else (failure, with_nodes tree (list_to_map (snd embedded))))
                   = (failure, with_nodes tree (list_to_map (snd embedded))))
    by now destruct (fst embedded).
  rewrite Hshape. simpl. split; [reflexivity|]. split; [reflexivity|].
  split; [reflexivity|].
  assert (Hneeds : needs_embedding tree <-> lacking <> []).
  { unfold needs_embedding, lacking. split.
    - intros (k & node & Hk & He) Hnil.
      assert (Hin : (k, node) ∈ filter (fun kn : string * TreeNode.t =>
                                          lacks_embedding (snd kn) = true)
                                   (TreeState.getAllNodes tree)).
      { apply list_elem_of_filter. split; [exact He | now apply elem_of_map_to_list]. }
      rewrite Hnil in Hin. now apply elem_of_nil in Hin.
    - intros Hne.
      destruct (filter _ (TreeState.getAllNodes tree)) as [|[k node] rest] eqn:Hf;
        [congruence|].
      assert (Hin : (k, node) ∈ filter (fun kn : string * TreeNode.t =>
                                          lacks_embedding (snd kn) = true)
                                   (TreeState.getAllNodes tree)).
      { rewrite Hf. now left. }
      apply list_elem_of_filter in Hin as [He Hin]. apply elem_of_map_to_list in Hin.
      now exists k, node. }
  split.
  - intros Hn. apply Hneeds in Hn. unfold embedded.
    destruct lacking as [|kn rest]; [congruence|]. simpl.
    rewrite (proj1 (embedAllNodes_offline service _ Hoff)).
    unfold TreeState.getAllNodes.
    now rewrite list_to_map_fmap, list_to_map_to_list.
  - intros Hn. unfold embedded.
    destruct lacking as [|kn rest] eqn:Hl.
    + simpl. apply with_nodes_same.
    + exfalso. apply Hn, Hneeds. discriminate.
Qed.

Lemma unreachable_offline : offline unreachable.
Proof. repeat split; intros; discriminate. Defined.

Lemma search_tree_needs_embedding : needs_embedding search_tree.
Proof. exists "b"%string, (plain_node "b" (Some "r"%string) [] None None). now split. Defined.

Lemma searchNodes_offline_witness :
  offline unreachable
  /\ fst (searchNodes (backend_of unreachable) "bark" search_tree 2) = failure
  /\ LearningTree.nodes (snd (searchNodes (backend_of unreachable) "bark" search_tree 2))
     = left_offline <$> LearningTree.nodes search_tree.
Proof.
  split; [exact unreachable_offline|].
  destruct (searchNodes_offline unreachable "bark" search_tree 2 unreachable_offline)
    as (Hfail & _ & _ & Hnodes & _).
  split; [exact Hfail | exact (Hnodes search_tree_needs_embedding)].
Defined.





End SearchOffline.

(* ===================================================================== *)
(** * The layout of the tree explorer *)
(* ===================================================================== *)

Module LayoutFacts.
Import TreeExplorer LayoutSpec Samples.

(** ** Bounds *)

Lemma min_Fin (p q : Q) :
  exists r, min (Fin p) (Fin q) = Fin r /\ (r <= p)%Q /\ (r <= q)%Q /\ (r = p \/ r = q).
Proof.
  simpl. destruct (Qle_bool p q) eqn:E; eexists; (split; [reflexivity|]).
  - apply Qle_bool_iff in E. repeat split; [lra | exact E | now left].
  - assert (~ (p <= q)%Q) by (rewrite <- Qle_bool_iff; congruence).
    repeat split; [lra | lra | now right].
Qed.

Lemma max_Fin (p q : Q) :
  exists r, max (Fin p) (Fin q) = Fin r /\ (p <= r)%Q /\ (q <= r)%Q /\ (r = p \/ r = q).
Proof.
  simpl. destruct (Qle_bool p q) eqn:E; eexists; (split; [reflexivity|]).
  - apply Qle_bool_iff in E. repeat split; [exact E | lra | now right].
  - assert (~ (p <= q)%Q) by (rewrite <- Qle_bool_iff; congruence).
    repeat split; [lra | lra | now left].
Qed.

Lemma extend_first (positions : gmap string Position) (nodeId : string) (px py : Q) :
  positions !! nodeId = Some {| x := Fin px; y := Fin py |} ->
  extend positions no_bounds nodeId
  = {| minX := Fin px; maxX := Fin px; minY := Fin py; maxY := Fin py |}.
Proof. unfold extend. now intros ->. Qed.

Lemma extend_within (positions : gmap string Position) (bounds : Bounds) (nodeId : string)
    (pos : Position) :
  finite_bounds bounds -> finite_position pos -> positions !! nodeId = Some pos ->
  finite_bounds (extend positions bounds nodeId)
  /\ within (extend positions bounds nodeId) pos
  /\ forall pos0, within bounds pos0 -> within (extend positions bounds nodeId) pos0.
Proof.
  intros ([x0 Hx0] & [x1 Hx1] & [y0 Hy0] & [y1 Hy1]) [[px Hpx] [py Hpy]] Hpos.
  destruct bounds as [bx0 bx1 by0 by1], pos as [posx posy]. simpl in *. subst.
  unfold extend. rewrite Hpos. cbn [x y minX maxX minY maxY].
  destruct (min_Fin x0 px) as (a & -> & Ha1 & Ha2 & _).
  destruct (max_Fin x1 px) as (b & -> & Hb1 & Hb2 & _).
  destruct (min_Fin y0 py) as (c & -> & Hc1 & Hc2 & _).
  destruct (max_Fin y1 py) as (d & -> & Hd1 & Hd2 & _).
  split; [repeat split; eexists; reflexivity|]. split.
  - exists a, b, c, d, px, py. now repeat split.
  - intros pos0 (x0' & x1' & y0' & y1' & qx & qy & Hb & -> & H1 & H2 & H3 & H4).
    injection Hb as <- <- <- <-.
    exists a, b, c, d, qx, qy. repeat split; lra.
Qed.

Lemma extend_fold_finite (positions : gmap string Position) (nodeIds : list string)
    (bounds : Bounds) :
  (forall nodeId pos, nodeId ∈ nodeIds -> positions !! nodeId = Some pos ->
                      finite_position pos) ->
  finite_bounds bounds ->
  finite_bounds (fold_left (extend positions) nodeIds bounds)
  /\ (forall pos0, within bounds pos0 ->
                   within (fold_left (extend positions) nodeIds bounds) pos0)
  /\ forall nodeId pos, nodeId ∈ nodeIds -> positions !! nodeId = Some pos ->
                        within (fold_left (extend positions) nodeIds bounds) pos.
Proof.
  revert bounds. induction nodeIds as [|nodeId rest IH]; intros bounds Hfin Hb.
  - simpl. split; [exact Hb|]. split; [auto|].
    intros nodeId pos Hin. now apply elem_of_nil in Hin.
  - simpl.
    assert (Hrest : forall nodeId pos, nodeId ∈ rest -> positions !! nodeId = Some pos ->
                                       finite_position pos)
      by (intros n p Hn; apply Hfin; now right).
    destruct (positions !! nodeId) as [pos|] eqn:Hpos.
    + destruct (extend_within positions bounds nodeId pos Hb
                  (Hfin nodeId pos (list_elem_of_here _ _) Hpos) Hpos) as (Hb' & Hin' & Hmono).
      destruct (IH _ Hrest Hb') as (Hf & Hkeep & Hall).
      split; [exact Hf|]. split; [auto|].
      intros n p Hn Hp. apply elem_of_cons in Hn as [->|Hn]; [|now apply (Hall n)].
      assert (p = pos) as -> by congruence. now apply Hkeep.
    + assert (Hsame : extend positions bounds nodeId = bounds)
        by (unfold extend; now rewrite Hpos).
      rewrite Hsame. destruct (IH _ Hrest Hb) as (Hf & Hkeep & Hall).
      split; [exact Hf|]. split; [exact Hkeep|].
      intros n p Hn Hp. apply elem_of_cons in Hn as [->|Hn]; [congruence | now apply (Hall n)].
Qed.

Lemma extend_fold_none (positions : gmap string Position) (nodeIds : list string)
    (bounds : Bounds) :
  (forall nodeId, nodeId ∈ nodeIds -> positions !! nodeId = None) ->
  fold_left (extend positions) nodeIds bounds = bounds.
Proof.
  revert bounds. induction nodeIds as [|nodeId rest IH]; intros bounds Hnone; [reflexivity|].
  simpl. unfold extend at 2. rewrite (Hnone nodeId) by now left.
  apply IH. intros n Hn. apply Hnone. now right.
Qed.

Lemma extend_fold_some (positions : gmap string Position) (nodeIds : list string) :
  (forall nodeId pos, nodeId ∈ nodeIds -> positions !! nodeId = Some pos ->
                      finite_position pos) ->
  (exists nodeId, nodeId ∈ nodeIds /\ is_Some (positions !! nodeId)) ->
  finite_bounds (fold_left (extend positions) nodeIds no_bounds)
  /\ forall nodeId pos, nodeId ∈ nodeIds -> positions !! nodeId = Some pos ->
                        within (fold_left (extend positions) nodeIds no_bounds) pos.
Proof.
  induction nodeIds as [|nodeId rest IH]; intros Hfin (n0 & Hn0 & Hp0);
    [now apply elem_of_nil in Hn0|].
  assert (Hrest : forall nodeId pos, nodeId ∈ rest -> positions !! nodeId = Some pos ->
                                     finite_position pos)
    by (intros n p Hn; apply Hfin; now right).
  simpl. destruct (positions !! nodeId) as [pos|] eqn:Hpos.
  - destruct (Hfin nodeId pos (list_elem_of_here _ _) Hpos) as [[px Hpx] [py Hpy]].
    destruct pos as [posx posy]. simpl in *. subst.
    rewrite (extend_first _ _ px py Hpos).
    set (first := {| minX := Fin px; maxX := Fin px; minY := Fin py; maxY := Fin py |}).
    assert (Hb : finite_bounds first) by (repeat split; eexists; reflexivity).
    assert (Hw : within first {| x := Fin px; y := Fin py |}).
    { exists px, px, py, py, px, py. repeat split; lra. }
    destruct (extend_fold_finite positions rest first Hrest Hb) as (Hf & Hkeep & Hall).
    split; [exact Hf|].
    intros n p Hn Hp. apply elem_of_cons in Hn as [->|Hn]; [|now apply (Hall n)].
    assert (p = {| x := Fin px; y := Fin py |}) as -> by congruence. now apply Hkeep.
  - assert (Hsame : extend positions no_bounds nodeId = no_bounds)
      by (unfold extend; now rewrite Hpos).
    rewrite Hsame.
    destruct IH as [Hf Hall]; [exact Hrest | |].
    { exists n0. split; [|exact Hp0].
      apply elem_of_cons in Hn0 as [->|Hn0]; [|exact Hn0].
      rewrite Hpos in Hp0. now destruct Hp0. }
    split; [exact Hf|].
    intros n p Hn Hp. apply elem_of_cons in Hn as [->|Hn]; [congruence | now apply (Hall n)].
Qed.

(** X22. [calculateTreeBounds] returns zeros for no ids. For ids none of
    which has a position it returns the infinities it starts from, not
    zeros. When the positions of the ids are finite and there is at
    least one, the bounds are finite and every positioned id lies
    within them. *)
Theorem calculateTreeBounds_spec (positions : gmap string Position) (nodeIds : list string) :
  (forall nodeId pos, nodeId ∈ nodeIds -> positions !! nodeId = Some pos ->
                      finite_position pos) ->
  let bounds := calculateTreeBounds positions nodeIds in
  (nodeIds = [] ->
     bounds = {| minX := Fin 0; maxX := Fin 0; minY := Fin 0; maxY := Fin 0 |})
  /\ (nodeIds <> [] -> (forall nodeId, nodeId ∈ nodeIds -> positions !! nodeId = None) ->
        bounds = {| minX := PosInf; maxX := NegInf; minY := PosInf; maxY := NegInf |})
  /\ ((exists nodeId, nodeId ∈ nodeIds /\ is_Some (positions !! nodeId)) ->
        finite_bounds bounds
        /\ forall nodeId pos, nodeId ∈ nodeIds -> positions !! nodeId = Some pos ->
                              within bounds pos).
Proof.
  intros Hfin bounds. unfold bounds, calculateTreeBounds. split; [|split].
  - now intros ->.
  - intros Hne Hnone. destruct nodeIds as [|n rest]; [contradiction|].
    change (length (n :: rest) =? 0) with false. cbv iota.
    now apply extend_fold_none.
  - intros Hsome. destruct nodeIds as [|n rest].
    + destruct Hsome as (n0 & Hn0 & _). now apply elem_of_nil in Hn0.
    + change (length (n :: rest) =? 0) with false. cbv iota.
      now apply extend_fold_some.
Qed.

(** ** The traversals *)

Lemma traverse_local (tree : LearningTree.t) (offsetX offsetY : Number)
    (m : gmap string Position) (stack : nat) :
  forall nodeId level parentY childIndex totalSiblings acc,
    traverse stack tree offsetX offsetY nodeId level parentY childIndex totalSiblings
      ((place offsetX offsetY <$> acc) ∪ m)
    = (fun L => (place offsetX offsetY <$> L) ∪ m)
        <$> local_layout stack tree nodeId level parentY childIndex totalSiblings acc.
Proof.
  induction stack as [|stack IH]; intros nodeId level parentY childIndex totalSiblings acc;
    [reflexivity|].
  simpl.
  assert (Hins : <[nodeId := position_at offsetX offsetY level
                               (localOffset childIndex totalSiblings parentY)]>
                   ((place offsetX offsetY <$> acc) ∪ m)
                 = (place offsetX offsetY
                      <$> <[nodeId := (level, localOffset childIndex totalSiblings parentY)]> acc)
                   ∪ m).
  { now rewrite fmap_insert, insert_union_l. }
  rewrite Hins. destruct (LearningTree.nodes tree !! nodeId) as [node|]; [|reflexivity].
  unfold forEach. generalize 0.
  generalize (<[nodeId := (level, localOffset childIndex totalSiblings parentY)]> acc).
  generalize (length (TreeNode.childIds node)).
  induction (TreeNode.childIds node) as [|childId rest IHl]; intros n acc' i; [reflexivity|].
  simpl. rewrite IH.
  destruct (local_layout stack tree childId (S level)
              (localOffset childIndex totalSiblings parentY) i n acc'); simpl;
    [apply IHl | reflexivity].
Qed.

Lemma traverseTree_local (tree : LearningTree.t) (stack : nat) (rootId : string)
    (offsetX offsetY : Number) (m : gmap string Position) :
  traverseTree stack tree rootId offsetX offsetY m
  = (fun L => (place offsetX offsetY <$> L) ∪ m)
      <$> local_layout stack tree rootId 0 0 0 1 ∅.
Proof.
  unfold traverseTree. rewrite <- traverse_local. now rewrite fmap_empty, (left_id_L ∅ (∪)).
Qed.

(** The two traversals visit the same nodes, and overflow together. *)
Lemma local_layout_ids (tree : LearningTree.t) (stack : nat) :
  forall nodeId level parentY childIndex totalSiblings acc nodeIds,
    match local_layout stack tree nodeId level parentY childIndex totalSiblings acc,
          traverse_ids stack tree nodeId nodeIds with
    | Some L, Some ids =>
        exists rest, ids = nodeIds ++ nodeId :: rest
                     /\ dom L = dom acc ∪ list_to_set (nodeId :: rest)
    | None, None => True
    | _, _ => False
    end.
Proof.
  induction stack as [|stack IH];
    intros nodeId level parentY childIndex totalSiblings acc nodeIds; [exact I|].
  simpl. destruct (LearningTree.nodes tree !! nodeId) as [node|].
  - assert (Hall : forall children n i j acc' ids',
              match forEach_from
                      (fun index childId =>
                         local_layout stack tree childId (S level)
                           (localOffset childIndex totalSiblings parentY) index n)
                      i children acc',
                    forEach_from (fun _ childId => traverse_ids stack tree childId)
                      j children ids' with
              | Some L, Some ids =>
                  exists new, ids = ids' ++ new /\ dom L = dom acc' ∪ list_to_set new
              | None, None => True
              | _, _ => False
              end).
    { induction children as [|childId rest IHl]; intros n i j acc' ids'; simpl.
      - exists []. rewrite app_nil_r. split; [reflexivity | set_solver].
      - specialize (IH childId (S level) (localOffset childIndex totalSiblings parentY)
                      i n acc' ids').
        destruct (local_layout stack tree childId _ _ i n acc') as [L1|],
                 (traverse_ids stack tree childId ids') as [ids1|]; try contradiction;
          [|exact I].
        destruct IH as (r1 & -> & Hd1).
        specialize (IHl n (S i) (S j) L1 (ids' ++ childId :: r1)).
        destruct (forEach_from _ (S i) rest L1) as [L2|],
                 (forEach_from _ (S j) rest (ids' ++ childId :: r1)) as [ids2|];
          try contradiction; [|exact I].
        destruct IHl as (new & -> & Hd2).
        exists ((childId :: r1) ++ new). rewrite app_assoc. split; [reflexivity|].
        rewrite Hd2, Hd1, list_to_set_app_L. set_solver. }
    specialize (Hall (TreeNode.childIds node) (length (TreeNode.childIds node)) 0 0
                  (<[nodeId := (level, localOffset childIndex totalSiblings parentY)]> acc)
                  (nodeIds ++ [nodeId])).
    unfold forEach.
    destruct (forEach_from _ 0 (TreeNode.childIds node) (<[nodeId := _]> acc)) as [L|],
             (forEach_from _ 0 (TreeNode.childIds node) (nodeIds ++ [nodeId])) as [ids|];
      try contradiction; [|exact I].
    destruct Hall as (new & -> & Hd). exists new. rewrite <- app_assoc. split; [reflexivity|].
    rewrite Hd, dom_insert_L. set_solver.
  - exists []. split; [reflexivity|]. rewrite dom_insert_L. set_solver.
Qed.

Lemma traverse_ids_descends (tree : LearningTree.t) (stack : nat) :
  forall nodeId nodeIds,
    descends stack tree nodeId <-> is_Some (traverse_ids stack tree nodeId nodeIds).
Proof.
  induction stack as [|stack IH]; intros nodeId nodeIds; simpl.
  - split; [contradiction | intros [? ?]; discriminate].
  - destruct (LearningTree.nodes tree !! nodeId) as [node|]; [|split; eauto].
    unfold forEach. generalize 0. generalize (nodeIds ++ [nodeId]).
    induction (TreeNode.childIds node) as [|childId rest IHl]; intros ids i; simpl.
    + split; [eauto | constructor].
    + rewrite Forall_cons, (IH childId ids).
      destruct (traverse_ids stack tree childId ids) as [ids1|].
      * rewrite (IHl ids1 (S i)). split; [now intros [_ ?] | split; eauto].
      * split; [intros [[? ?] _]; discriminate | intros [? ?]; discriminate].
Qed.

Lemma descends_more (tree : LearningTree.t) (stack : nat) :
  forall nodeId, descends stack tree nodeId -> descends (S stack) tree nodeId.
Proof.
  induction stack as [|stack IH]; intros nodeId H; [contradiction|].
  simpl in *. destruct (LearningTree.nodes tree !! nodeId) as [node|]; [|exact I].
  eapply Forall_impl; [exact H|]. intros childId Hc. apply (IH childId Hc).
Qed.

Lemma traverse_ids_more (tree : LearningTree.t) (stack : nat) :
  forall nodeId nodeIds ids,
    traverse_ids stack tree nodeId nodeIds = Some ids ->
    traverse_ids (S stack) tree nodeId nodeIds = Some ids.
Proof.
  induction stack as [|stack IH]; intros nodeId nodeIds ids H; [discriminate|].
  change (traverse_ids (S stack) tree nodeId nodeIds)
    with (match LearningTree.nodes tree !! nodeId with
          | Some node => forEach (fun _ childId => traverse_ids stack tree childId)
                           (TreeNode.childIds node) (nodeIds ++ [nodeId])
          | None => Some (nodeIds ++ [nodeId])
          end) in H.
  change (traverse_ids (S (S stack)) tree nodeId nodeIds)
    with (match LearningTree.nodes tree !! nodeId with
          | Some node => forEach (fun _ childId => traverse_ids (S stack) tree childId)
                           (TreeNode.childIds node) (nodeIds ++ [nodeId])
          | None => Some (nodeIds ++ [nodeId])
          end).
  destruct (LearningTree.nodes tree !! nodeId) as [node|]; [|exact H].
  revert H. unfold forEach. generalize 0. generalize (nodeIds ++ [nodeId]).
  induction (TreeNode.childIds node) as [|childId rest IHl]; intros acc i H; [exact H|].
  cbn [forEach_from] in *.
  destruct (traverse_ids stack tree childId acc) as [ids1|] eqn:E; [|discriminate].
  rewrite (IH _ _ _ E). now apply IHl.
Qed.

Lemma local_layout_more (tree : LearningTree.t) (stack : nat) :
  forall nodeId level parentY childIndex totalSiblings acc L,
    local_layout stack tree nodeId level parentY childIndex totalSiblings acc = Some L ->
    local_layout (S stack) tree nodeId level parentY childIndex totalSiblings acc = Some L.
Proof.
  induction stack as [|stack IH];
    intros nodeId level parentY childIndex totalSiblings acc L H; [discriminate|].
  change (local_layout (S stack) tree nodeId level parentY childIndex totalSiblings acc)
    with (match LearningTree.nodes tree !! nodeId with
          | Some node =>
              forEach (fun index childId =>
                         local_layout stack tree childId (S level)
                           (localOffset childIndex totalSiblings parentY)
                           index (length (TreeNode.childIds node)))
                (TreeNode.childIds node)
                (<[nodeId := (level, localOffset childIndex totalSiblings parentY)]> acc)
          | None => Some (<[nodeId := (level, localOffset childIndex totalSiblings parentY)]> acc)
          end) in H.
  change (local_layout (S (S stack)) tree nodeId level parentY childIndex totalSiblings acc)
    with (match LearningTree.nodes tree !! nodeId with
          | Some node =>
              forEach (fun index childId =>
                         local_layout (S stack) tree childId (S level)
                           (localOffset childIndex totalSiblings parentY)
                           index (length (TreeNode.childIds node)))
                (TreeNode.childIds node)
                (<[nodeId := (level, localOffset childIndex totalSiblings parentY)]> acc)
          | None => Some (<[nodeId := (level, localOffset childIndex totalSiblings parentY)]> acc)
          end).
  destruct (LearningTree.nodes tree !! nodeId) as [node|]; [|exact H].
  revert H. unfold forEach. generalize 0.
  generalize (<[nodeId := (level, localOffset childIndex totalSiblings parentY)]> acc).
  generalize (length (TreeNode.childIds node)).
  induction (TreeNode.childIds node) as [|childId rest IHl]; intros n acc' i H; [exact H|].
  cbn [forEach_from] in *.
  destruct (local_layout stack tree childId (S level) _ i n acc') as [L1|] eqn:E;
    [|discriminate].
  rewrite (IH _ _ _ _ _ _ _ E). now apply IHl.
Qed.

(** X23. [getNodesInTree] and [traverseTree] visit the same nodes: one
    returns exactly when the other does, which is when the part of the
    tree under the root is no deeper than the stack. The ids listed
    start with the root and are the ids that [traverseTree] gives a
    position; positions of other ids are as before. A deeper stack
    changes neither result. *)
Theorem traversals_agree (stack : nat) (tree : LearningTree.t) (rootId : string)
    (offsetX offsetY : Number) (targetMap : gmap string Position) :
  (descends stack tree rootId <-> is_Some (getNodesInTree stack tree rootId))
  /\ (is_Some (getNodesInTree stack tree rootId)
      <-> is_Some (traverseTree stack tree rootId offsetX offsetY targetMap))
  /\ forall ids positions,
       getNodesInTree stack tree rootId = Some ids ->
       traverseTree stack tree rootId offsetX offsetY targetMap = Some positions ->
       head ids = Some rootId
       /\ dom positions = dom targetMap ∪ list_to_set ids
       /\ (forall k, k ∉ ids -> positions !! k = targetMap !! k)
       /\ getNodesInTree (S stack) tree rootId = Some ids
       /\ traverseTree (S stack) tree rootId offsetX offsetY targetMap = Some positions.
Proof.
  unfold getNodesInTree. rewrite !traverseTree_local.
  pose proof (local_layout_ids tree stack rootId 0 0 0 1 ∅ []) as H.
  split; [apply traverse_ids_descends|].
  destruct (local_layout stack tree rootId 0 0 0 1 ∅) as [L|] eqn:HL,
           (traverse_ids stack tree rootId []) as [ids|] eqn:Hids; try contradiction.
  - destruct H as (rest & -> & Hdom). cbn [app fmap option_fmap option_map] in *.
    split; [split; eauto|].
    intros ids positions [= <-] [= <-]. split; [reflexivity|].
    split; [|split; [|split]].
    + rewrite dom_union_L, dom_fmap_L, Hdom. set_solver.
    + intros k Hk. apply lookup_union_r. rewrite lookup_fmap.
      assert (HkL : k ∉ dom L) by (rewrite Hdom; set_solver).
      apply not_elem_of_dom in HkL. now rewrite HkL.
    + now apply traverse_ids_more.
    + now rewrite (local_layout_more _ _ _ _ _ _ _ _ _ HL).
  - simpl. split; [split; intros [? ?]; discriminate|]. discriminate.
Qed.

(** ** Placing a root below the trees before it *)

Lemma on_grid_finite (pos : Position) : on_grid pos -> finite_position pos.
Proof. intros (level & px & py & -> & _). split; eexists; reflexivity. Qed.

Lemma place_on_grid (s : Q) (l : nat * Q) : on_grid (place (Fin 0) (Fin s) l).
Proof.
  destruct l as [level ly]. exists level. eexists. eexists. split; [reflexivity|].
  simpl. lra.
Qed.

Lemma calculateTreeBounds_within (positions : gmap string Position) (nodeIds : list string) :
  (forall nodeId pos, nodeId ∈ nodeIds -> positions !! nodeId = Some pos ->
                      finite_position pos) ->
  (exists nodeId, nodeId ∈ nodeIds /\ is_Some (positions !! nodeId)) ->
  finite_bounds (calculateTreeBounds positions nodeIds)
  /\ forall nodeId pos, nodeId ∈ nodeIds -> positions !! nodeId = Some pos ->
                        within (calculateTreeBounds positions nodeIds) pos.
Proof.
  intros Hfin Hsome. unfold calculateTreeBounds. destruct nodeIds as [|n rest].
  - destruct Hsome as (n0 & Hn0 & _). now apply elem_of_nil in Hn0.
  - change (length (n :: rest) =? 0) with false. cbv iota. now apply extend_fold_some.
Qed.

Lemma keys_spec (positions : gmap string Position) (nodeId : string) :
  nodeId ∈ keys positions <-> is_Some (positions !! nodeId).
Proof.
  unfold keys. rewrite list_elem_of_fmap. split.
  - intros ([k p] & -> & Hin). apply elem_of_map_to_list in Hin. simpl. eauto.
  - intros [p Hp]. exists (nodeId, p). split; [reflexivity | now apply elem_of_map_to_list].
Qed.

Lemma keys_non_empty (positions : gmap string Position) :
  positions <> ∅ -> (0 <? length (keys positions)) = true.
Proof.
  intros Hne. unfold keys. rewrite length_fmap, length_map_to_list.
  apply Nat.ltb_lt. destruct (size positions) eqn:E; [|lia].
  apply map_size_empty_iff in E. contradiction.
Qed.

Lemma keys_empty : (0 <? length (keys ∅)) = false.
Proof. unfold keys. now rewrite map_to_list_empty. Qed.

(** The offset [safeY] that [place_root] computes. *)
Lemma safeY_spec (positions tempPositions : gmap string Position) (treeNodes : list string) :
  map_Forall (fun _ pos => finite_position pos) positions ->
  map_Forall (fun _ pos => finite_position pos) tempPositions ->
  (exists nodeId, nodeId ∈ treeNodes /\ is_Some (tempPositions !! nodeId)) ->
  exists s,
    (if 0 <? length (keys positions)
     then add (add (maxY (calculateTreeBounds positions (keys positions)))
                   (Fin treeClearance))
              (abs (minY (calculateTreeBounds tempPositions treeNodes)))
     else Fin 0) = Fin s
    /\ forall id0 x0 y0 nodeId tx ty,
         positions !! id0 = Some {| x := Fin x0; y := Fin y0 |} ->
         nodeId ∈ treeNodes ->
         tempPositions !! nodeId = Some {| x := Fin tx; y := Fin ty |} ->
         (y0 + treeClearance <= ty + s)%Q.
Proof.
  intros Hfin Htemp Hsome.
  destruct (decide (positions = ∅)) as [->|Hne].
  - rewrite keys_empty. exists 0%Q. split; [reflexivity|].
    intros id0 x0 y0 nodeId tx ty H0. now rewrite lookup_empty in H0.
  - rewrite (keys_non_empty _ Hne).
    destruct (calculateTreeBounds_within positions (keys positions)) as [Hfe Hwe].
    { intros n p _ Hp. exact (Hfin n p Hp). }
    { destruct (map_choose _ Hne) as (k & p & Hk). exists k.
      split; [apply keys_spec|]; eauto. }
    destruct (calculateTreeBounds_within tempPositions treeNodes) as [Hft Hwt].
    { intros n p _ Hp. exact (Htemp n p Hp). }
    { exact Hsome. }
    destruct Hfe as (_ & _ & _ & [M HM]). destruct Hft as (_ & _ & [m Hm] & _).
    rewrite HM, Hm. simpl. eexists. split; [reflexivity|].
    intros id0 x0 y0 nodeId tx ty H0 Hn Ht.
    assert (Hk0 : id0 ∈ keys positions) by (apply keys_spec; eauto).
    destruct (Hwe id0 _ Hk0 H0) as (a & b & c & d & qx & qy & Hb & Hp & _ & _ & _ & Hle).
    injection Hp as <- <-. rewrite Hb in HM. simpl in HM. injection HM as ->.
    destruct (Hwt nodeId _ Hn Ht) as (a' & b' & c' & d' & qx' & qy' & Hb' & Hp' & _ & _ & Hge & _).
    injection Hp' as <- <-. rewrite Hb' in Hm. simpl in Hm. injection Hm as ->.
    pose proof (Qle_Qabs (- m)) as Habs. rewrite Qabs_opp in Habs.
    unfold treeClearance in *. lra.
Qed.

Lemma temp_finite (L : gmap string (nat * Q)) (s : Q) (m : gmap string Position) :
  map_Forall (fun _ pos => on_grid pos) m ->
  map_Forall (fun _ pos => on_grid pos) ((place (Fin 0) (Fin s) <$> L) ∪ m).
Proof.
  intros Hm k pos Hk. apply lookup_union_Some_raw in Hk as [Hk|[_ Hk]]; [|now apply (Hm k)].
  rewrite lookup_fmap in Hk. destruct (L !! k) as [l|]; [|discriminate].
  injection Hk as <-. apply place_on_grid.
Qed.

(** What [place_root] returns, in terms of the local layout of the tree
    under the root. *)
Lemma place_root_shape (stack : nat) (tree : LearningTree.t)
    (positions : gmap string Position) (rootId : string) :
  map_Forall (fun _ pos => on_grid pos) positions ->
  match place_root stack tree positions rootId with
  | Some positions' =>
      exists L rest s,
        local_layout stack tree rootId 0 0 0 1 ∅ = Some L
        /\ getNodesInTree stack tree rootId = Some (rootId :: rest)
        /\ dom L = list_to_set (rootId :: rest)
        /\ positions' = (place (Fin 0) (Fin s) <$> L) ∪ positions
        /\ forall id0 x0 y0 nodeId l,
             positions !! id0 = Some {| x := Fin x0; y := Fin y0 |} ->
             L !! nodeId = Some l ->
             (y0 + treeClearance <= snd l + s)%Q
  | None => ~ descends stack tree rootId
  end.
Proof.
  intros Hgrid. unfold place_root, getNodesInTree. rewrite !traverseTree_local.
  pose proof (local_layout_ids tree stack rootId 0 0 0 1 ∅ []) as H.
  pose proof (traverse_ids_descends tree stack rootId []) as Hd.
  destruct (local_layout stack tree rootId 0 0 0 1 ∅) as [L|] eqn:HL,
           (traverse_ids stack tree rootId []) as [ids|] eqn:Hids; try contradiction;
    simpl; [|rewrite Hd; intros [? ?]; discriminate].
  destruct H as (rest & -> & Hdom). simpl in Hdom. cbn [app].
  assert (HdomL : dom L = list_to_set (rootId :: rest)) by (rewrite Hdom; set_solver).
  set (tempPositions := (place (Fin 0) (Fin 0) <$> L) ∪ ∅).
  assert (Htemp : map_Forall (fun _ pos => on_grid pos) tempPositions)
    by (apply temp_finite; apply map_Forall_empty).
  destruct (safeY_spec positions tempPositions (rootId :: rest)) as (s & Hs & Hbelow).
  { intros k p Hk. apply on_grid_finite. exact (Hgrid k p Hk). }
  { intros k p Hk. apply on_grid_finite. exact (Htemp k p Hk). }
  { exists rootId. split; [now left|].
    assert (Hr : rootId ∈ dom L) by (rewrite HdomL; set_solver).
    apply elem_of_dom in Hr as [l Hl]. unfold tempPositions.
    rewrite (right_id_L ∅ (∪)), lookup_fmap, Hl. simpl. eauto. }
  rewrite Hs, traverseTree_local, HL. simpl.
  exists L, rest, s. repeat split; try assumption; try reflexivity.
  intros id0 x0 y0 nodeId [level ly] H0 Hl.
  assert (Hn : nodeId ∈ rootId :: rest).
  { apply (elem_of_list_to_set (C := gset string)). rewrite <- HdomL.
    apply elem_of_dom. eauto. }
  assert (Hle : (y0 + treeClearance <= ly + 0 + s)%Q).
  { eapply (Hbelow id0 x0 y0 nodeId _ (ly + 0)%Q H0 Hn).
    unfold tempPositions. rewrite (right_id_L ∅ (∪)), lookup_fmap, Hl. reflexivity. }
  simpl. lra.
Qed.

(** X24. Every later root is laid out below the trees before it. When
    the positions so far are on the grid and not empty, [place_root]
    gives each node of the tree under the root a position at least
    [treeClearance] (400) below every position there was before, and
    leaves the position of every other node alone. *)
Theorem place_root_below (stack : nat) (tree : LearningTree.t)
    (positions positions' : gmap string Position) (rootId : string) :
  map_Forall (fun _ pos => on_grid pos) positions ->
  place_root stack tree positions rootId = Some positions' ->
  exists ids,
    getNodesInTree stack tree rootId = Some ids
    /\ map_Forall (fun _ pos => on_grid pos) positions'
    /\ dom positions' = dom positions ∪ list_to_set ids
    /\ (forall nodeId, nodeId ∉ ids -> positions' !! nodeId = positions !! nodeId)
    /\ forall nodeId, nodeId ∈ ids ->
         exists px py,
           positions' !! nodeId = Some {| x := Fin px; y := Fin py |}
           /\ forall id0 x0 y0,
                positions !! id0 = Some {| x := Fin x0; y := Fin y0 |} ->
                (y0 + 400 <= py)%Q.
Proof.
  intros Hgrid Hplace. pose proof (place_root_shape stack tree positions rootId Hgrid) as H.
  rewrite Hplace in H. destruct H as (L & rest & s & HL & Hids & Hdom & -> & Hbelow).
  exists (rootId :: rest). split; [exact Hids|]. split; [now apply temp_finite|].
  split; [|split].
  - rewrite dom_union_L, dom_fmap_L, Hdom. set_solver.
  - intros nodeId Hn. apply lookup_union_r. rewrite lookup_fmap.
    assert (HnL : nodeId ∉ dom L).
    { rewrite Hdom. intros Hin. apply Hn.
      now apply (elem_of_list_to_set (C := gset string)) in Hin. }
    apply not_elem_of_dom in HnL. now rewrite HnL.
  - intros nodeId Hn.
    assert (HnL : nodeId ∈ dom L)
      by (rewrite Hdom; now apply (elem_of_list_to_set (C := gset string))).
    apply elem_of_dom in HnL as [[level ly] Hl].
    eexists. exists (ly + s)%Q. split.
    + erewrite lookup_union_Some_l; [reflexivity|]. rewrite lookup_fmap, Hl. reflexivity.
    + intros id0 x0 y0 H0. pose proof (Hbelow id0 x0 y0 nodeId _ H0 Hl) as Hle.
      unfold treeClearance in Hle. simpl in Hle. lra.
Qed.

Lemma place_roots_spec (stack : nat) (tree : LearningTree.t) (rootIds : list string) :
  forall positions,
    map_Forall (fun _ pos => on_grid pos) positions ->
    match place_roots stack tree rootIds positions with
    | Some positions' =>
        Forall (descends stack tree) rootIds
        /\ map_Forall (fun _ pos => on_grid pos) positions'
        /\ forall nodeId,
             nodeId ∈ dom positions' <->
             nodeId ∈ dom positions
             \/ exists rootId ids, rootId ∈ rootIds
                                   /\ getNodesInTree stack tree rootId = Some ids
                                   /\ nodeId ∈ ids
    | None => ~ Forall (descends stack tree) rootIds
    end.
Proof.
  induction rootIds as [|rootId rest IH]; intros positions Hgrid; simpl.
  - split; [constructor|]. split; [exact Hgrid|]. intros nodeId. split; [now left|].
    intros [H|(r & ids & Hr & _)]; [exact H | now apply elem_of_nil in Hr].
  - pose proof (place_root_shape stack tree positions rootId Hgrid) as H.
    destruct (place_root stack tree positions rootId) as [positions1|] eqn:Hplace.
    + destruct H as (L & ids & s & HL & Hids & Hdom & -> & _).
      assert (Hgrid1 : map_Forall (fun _ pos => on_grid pos)
                         ((place (Fin 0) (Fin s) <$> L) ∪ positions))
        by now apply temp_finite.
      assert (Hroot : descends stack tree rootId).
      { apply (traverse_ids_descends tree stack rootId []).
        unfold getNodesInTree in Hids. rewrite Hids. eauto. }
      specialize (IH _ Hgrid1).
      destruct (place_roots stack tree rest _) as [positions'|].
      * destruct IH as (Hrest & Hgrid' & Hdom'). split; [now constructor|].
        split; [exact Hgrid'|]. intros nodeId. rewrite Hdom'.
        rewrite dom_union_L, dom_fmap_L, Hdom. split.
        -- intros [Hin|(r & ids' & Hr & Hids' & Hin)].
           ++ apply elem_of_union in Hin as [Hin|Hin]; [|now left].
              right. exists rootId, (rootId :: ids). split; [now left|].
              split; [exact Hids|]. now apply (elem_of_list_to_set (C := gset string)) in Hin.
           ++ right. exists r, ids'. split; [now right | now split].
        -- intros [Hin|(r & ids' & Hr & Hids' & Hin)].
           ++ left. apply elem_of_union. now right.
           ++ apply elem_of_cons in Hr as [->|Hr].
              ** left. apply elem_of_union. left.
                 assert (ids' = rootId :: ids) as -> by congruence.
                 now apply (elem_of_list_to_set (C := gset string)).
              ** right. exists r, ids'. now repeat split.
      * intros Hall. apply IH. now apply Forall_inv_tail in Hall.
    + intros Hall. apply H. now apply Forall_inv in Hall.
Qed.

(** X25. [calculateTreeLayout] returns the empty map for a tree without
    roots. It returns a layout exactly when the tree under every root
    is no deeper than the stack (otherwise a traversal overflows the
    stack, as on a cycle of [childIds]). The layout positions exactly
    the ids that [getNodesInTree] lists for the roots; every coordinate
    is finite and every [x] is a level times [horizontalSpacing]. *)
Theorem calculateTreeLayout_spec (stack : nat) (tree : LearningTree.t) :
  (LearningTree.rootIds tree = [] -> calculateTreeLayout stack tree = Some ∅)
  /\ match calculateTreeLayout stack tree with
     | Some positions =>
         Forall (descends stack tree) (LearningTree.rootIds tree)
         /\ map_Forall (fun _ pos => on_grid pos) positions
         /\ forall nodeId,
              is_Some (positions !! nodeId) <->
              exists rootId ids, rootId ∈ LearningTree.rootIds tree
                                 /\ getNodesInTree stack tree rootId = Some ids
                                 /\ nodeId ∈ ids
     | None => ~ Forall (descends stack tree) (LearningTree.rootIds tree)
     end.
Proof.
  unfold calculateTreeLayout. split; [now intros ->|].
  destruct (LearningTree.rootIds tree) as [|root0 rest].
  - split; [constructor|]. split; [apply map_Forall_empty|].
    intros nodeId. rewrite lookup_empty. split; [intros [? ?]; discriminate|].
    intros (r & ids & Hr & _). now apply elem_of_nil in Hr.
  - rewrite traverseTree_local.
    pose proof (local_layout_ids tree stack root0 0 0 0 1 ∅ []) as H.
    pose proof (traverse_ids_descends tree stack root0 []) as Hd.
    destruct (local_layout stack tree root0 0 0 0 1 ∅) as [L|] eqn:HL,
             (traverse_ids stack tree root0 []) as [ids0|] eqn:Hids; try contradiction;
      simpl.
    + destruct H as (rest0 & -> & Hdom). simpl in Hdom. cbn [app] in Hids.
      assert (HdomL : dom L = list_to_set (root0 :: rest0)) by (rewrite Hdom; set_solver).
      assert (Hgrid : map_Forall (fun _ pos => on_grid pos)
                        ((place (Fin 0) (Fin 0) <$> L) ∪ ∅))
        by (apply temp_finite; apply map_Forall_empty).
      pose proof (place_roots_spec stack tree rest _ Hgrid) as Hrest.
      destruct (place_roots stack tree rest _) as [positions|].
      * destruct Hrest as (Hall & Hgrid' & Hdom'). split.
        { constructor; [|exact Hall]. apply Hd. eauto. }
        split; [exact Hgrid'|]. intros nodeId. rewrite <- elem_of_dom, Hdom'.
        rewrite (right_id_L ∅ (∪)), dom_fmap_L, HdomL. split.
        -- intros [Hin|(r & ids & Hr & Hids' & Hin)].
           ++ exists root0, (root0 :: rest0). split; [now left|]. split; [exact Hids|].
              now apply (elem_of_list_to_set (C := gset string)) in Hin.
           ++ exists r, ids. split; [now right | now split].
        -- intros (r & ids & Hr & Hids' & Hin). apply elem_of_cons in Hr as [->|Hr].
           ++ left. unfold getNodesInTree in Hids'.
              assert (ids = root0 :: rest0) as -> by congruence.
              now apply (elem_of_list_to_set (C := gset string)).
           ++ right. exists r, ids. now repeat split.
      * intros Hall. apply Hrest. now apply Forall_inv_tail in Hall.
    + intros Hall. apply Forall_inv in Hall. apply Hd in Hall as [? ?]. discriminate.
Qed.

Lemma start_on_grid : map_Forall (fun _ pos => on_grid pos) start.
Proof.
  apply map_Forall_singleton. exists 0, 0%Q, 0%Q. split; reflexivity.
Defined.

Lemma calculateTreeBounds_spec_witness :
  finite_bounds (calculateTreeBounds start ["r"%string; "zzz"%string])
  /\ calculateTreeBounds start ["zzz"%string]
     = {| minX := PosInf; maxX := NegInf; minY := PosInf; maxY := NegInf |}.
Proof.
  assert (Hfin : forall (nodeIds : list string) nodeId pos,
            nodeId ∈ nodeIds -> start !! nodeId = Some pos -> finite_position pos).
  { intros nodeIds nodeId pos _ Hpos. apply on_grid_finite.
    exact (start_on_grid nodeId pos Hpos). }
  split.
  - destruct (calculateTreeBounds_spec start ["r"%string; "zzz"%string] (Hfin _))
      as (_ & _ & Hsome).
    apply Hsome. exists "r"%string. split; [now left | now eexists].
  - destruct (calculateTreeBounds_spec start ["zzz"%string] (Hfin _)) as (_ & Hnone & _).
    apply Hnone; [discriminate|].
    intros nodeId Hin. apply list_elem_of_singleton in Hin as ->. reflexivity.
Defined.

Lemma place_root_below_witness :
  map_Forall (fun _ pos => on_grid pos) start
  /\ place_root 2 family start "a" = Some placed
  /\ exists ids,
       getNodesInTree 2 family "a" = Some ids
       /\ dom placed = dom start ∪ list_to_set ids.
Proof.
  assert (E : place_root 2 family start "a" = Some placed) by (vm_compute; reflexivity).
  split; [exact start_on_grid|]. split; [exact E|].
  destruct (place_root_below 2 family start placed "a" start_on_grid E)
    as (ids & Hids & _ & Hdom & _).
  exists ids. now split.
Defined.

(** ** The shape of a laid out tree *)

Lemma traverse_ids_shape (tree : LearningTree.t) (stack : nat) (nodeId : string)
    (nodeIds ids : list string) :
  traverse_ids stack tree nodeId nodeIds = Some ids ->
  exists rest, ids = nodeIds ++ nodeId :: rest.
Proof.
  intros H. pose proof (local_layout_ids tree stack nodeId 0 0 0 0 ∅ nodeIds) as Hs.
  rewrite H in Hs. destruct (local_layout stack tree nodeId 0 0 0 0 ∅); [|contradiction].
  destruct Hs as (rest & -> & _). eauto.
Qed.

Lemma forEach_ids_shape (tree : LearningTree.t) (stack : nat) (children : list string) :
  forall j nodeIds ids,
    forEach_from (fun _ childId => traverse_ids stack tree childId) j children nodeIds
      = Some ids ->
    exists new, ids = nodeIds ++ new.
Proof.
  induction children as [|c rest IH]; intros j nodeIds ids H; simpl in H.
  - injection H as <-. exists []. now rewrite app_nil_r.
  - destruct (traverse_ids stack tree c nodeIds) as [ids1|] eqn:E; [|discriminate].
    apply traverse_ids_shape in E as (r1 & ->).
    apply IH in H as (new & ->). exists ((c :: r1) ++ new). now rewrite app_assoc.
Qed.

Lemma local_layout_tree (tree : LearningTree.t) (stack : nat) :
  forall nodeId level parentY childIndex totalSiblings acc L nodeIds rest,
    local_layout stack tree nodeId level parentY childIndex totalSiblings acc = Some L ->
    traverse_ids stack tree nodeId nodeIds = Some (nodeIds ++ nodeId :: rest) ->
    NoDup (nodeId :: rest) ->
    L !! nodeId = Some (level, localOffset childIndex totalSiblings parentY)
    /\ (forall k, k ∉ nodeId :: rest -> L !! k = acc !! k)
    /\ closed tree (nodeId :: rest)
    /\ arranged tree L (nodeId :: rest).
Proof.
  induction stack as [|stack IH];
    intros nodeId level parentY childIndex totalSiblings acc L nodeIds rest HL Hids Hnd;
    [discriminate|].
  change (local_layout (S stack) tree nodeId level parentY childIndex totalSiblings acc)
    with (match LearningTree.nodes tree !! nodeId with
          | Some node =>
              forEach (fun index childId =>
                         local_layout stack tree childId (S level)
                           (localOffset childIndex totalSiblings parentY)
                           index (length (TreeNode.childIds node)))
                (TreeNode.childIds node)
                (<[nodeId := (level, localOffset childIndex totalSiblings parentY)]> acc)
          | None => Some (<[nodeId := (level, localOffset childIndex totalSiblings parentY)]> acc)
          end) in HL.
  change (traverse_ids (S stack) tree nodeId nodeIds)
    with (match LearningTree.nodes tree !! nodeId with
          | Some node => forEach (fun _ childId => traverse_ids stack tree childId)
                           (TreeNode.childIds node) (nodeIds ++ [nodeId])
          | None => Some (nodeIds ++ [nodeId])
          end) in Hids.
  set (ly := localOffset childIndex totalSiblings parentY) in *.
  destruct (LearningTree.nodes tree !! nodeId) as [node|] eqn:Hnode.
  - assert (Hall : forall children i j acc' ids' L' new,
              forEach_from
                (fun index childId =>
                   local_layout stack tree childId (S level) ly index
                     (length (TreeNode.childIds node))) i children acc' = Some L' ->
              forEach_from (fun _ childId => traverse_ids stack tree childId) j children ids'
                = Some (ids' ++ new) ->
              NoDup new ->
              (forall k, k ∉ new -> L' !! k = acc' !! k)
              /\ (forall c, c ∈ children -> c ∈ new)
              /\ closed tree new
              /\ arranged tree L' new
              /\ forall j' c, children !! j' = Some c ->
                   L' !! c = Some (S level, localOffset (i + j')
                                              (length (TreeNode.childIds node)) ly)).
    { induction children as [|c others IHl]; intros i j acc' ids' L' new HL' Hids' Hnew;
        simpl in HL', Hids'.
      - injection HL' as <-. injection Hids' as Hids'.
        assert (new = []) as ->.
        { apply (app_inv_head ids'). now rewrite app_nil_r. }
        split; [reflexivity|]. split; [intros c Hc; now apply elem_of_nil in Hc|].
        split; [intros p nd c Hp; now apply elem_of_nil in Hp|].
        split; [intros p nd lp yp Hp; now apply elem_of_nil in Hp|].
        intros j' c Hc. discriminate.
      - destruct (local_layout stack tree c (S level) ly i
                    (length (TreeNode.childIds node)) acc') as [L1|] eqn:HL1; [|discriminate].
        destruct (traverse_ids stack tree c ids') as [ids1|] eqn:Hids1; [|discriminate].
        destruct (traverse_ids_shape _ _ _ _ _ Hids1) as (r1 & ->).
        destruct (forEach_ids_shape _ _ _ _ _ _ Hids') as (new2 & Heq).
        assert (new = (c :: r1) ++ new2) as ->.
        { apply (app_inv_head ids'). rewrite app_assoc. congruence. }
        assert (Hids2 : forEach_from (fun _ childId => traverse_ids stack tree childId)
                          (S j) others (ids' ++ c :: r1)
                        = Some ((ids' ++ c :: r1) ++ new2)) by congruence.
        apply NoDup_app in Hnew as (Hnd1 & Hdisj & Hnd2).
        destruct (IH _ _ _ _ _ _ _ _ _ HL1 Hids1 Hnd1) as (Hc & Hframe1 & Hclosed1 & Harr1).
        destruct (IHl _ _ _ _ _ _ HL' Hids2 Hnd2)
          as (Hframe2 & Hin2 & Hclosed2 & Harr2 & Hpos2).
        assert (Hkeep : forall k, k ∈ c :: r1 -> L' !! k = L1 !! k).
        { intros k Hk. apply Hframe2. now apply Hdisj. }
        split; [|split; [|split; [|split]]].
        + intros k Hk. rewrite Hframe2 by set_solver. apply Hframe1. set_solver.
        + intros c' Hc'. apply elem_of_cons in Hc' as [->|Hc']; [set_solver|].
          apply elem_of_app. right. now apply Hin2.
        + intros p nd c' Hp Hpn Hc'. apply elem_of_app in Hp as [Hp|Hp].
          * apply elem_of_app. left. exact (Hclosed1 p nd c' Hp Hpn Hc').
          * apply elem_of_app. right. exact (Hclosed2 p nd c' Hp Hpn Hc').
        + intros p nd lp yp Hp Hpn Hlp i' c' Hc'. apply elem_of_app in Hp as [Hp|Hp].
          * rewrite (Hkeep p Hp) in Hlp.
            assert (Hc1 : c' ∈ c :: r1).
            { apply (Hclosed1 p nd c' Hp Hpn). now apply list_elem_of_lookup_2 in Hc'. }
            rewrite (Hkeep c' Hc1). exact (Harr1 p nd lp yp Hp Hpn Hlp i' c' Hc').
          * exact (Harr2 p nd lp yp Hp Hpn Hlp i' c' Hc').
        + intros [|j'] c' Hc'; simpl in Hc'.
          * injection Hc' as <-. rewrite (Hkeep c) by now left.
            now rewrite Nat.add_0_r.
          * rewrite Nat.add_succ_r. exact (Hpos2 j' c' Hc'). }
    unfold forEach in HL, Hids.
    destruct (forEach_ids_shape _ _ _ _ _ _ Hids) as (new & Heq).
    assert (new = rest) as ->.
    { rewrite <- app_assoc in Heq. apply app_inv_head in Heq. simpl in Heq. congruence. }
    assert (Hids' : forEach_from (fun _ childId => traverse_ids stack tree childId) 0
                      (TreeNode.childIds node) (nodeIds ++ [nodeId])
                    = Some ((nodeIds ++ [nodeId]) ++ rest)) by congruence.
    apply NoDup_cons in Hnd as [Hnotin Hnd].
    destruct (Hall _ _ _ _ _ _ _ HL Hids' Hnd) as (Hframe & Hin & Hclosed & Harr & Hpos).
    assert (Hself : L !! nodeId = Some (level, ly)).
    { rewrite Hframe by exact Hnotin. apply lookup_insert_eq. }
    split; [exact Hself|]. split; [|split].
    + intros k Hk. apply not_elem_of_cons in Hk as [Hne Hk].
      rewrite Hframe by exact Hk. now apply lookup_insert_ne.
    + intros p nd c Hp Hnd' Hc. right. apply elem_of_cons in Hp as [->|Hp].
      * assert (nd = node) as -> by congruence. now apply Hin.
      * exact (Hclosed p nd c Hp Hnd' Hc).
    + intros p nd lp yp Hp Hnd' Hlp i c Hc. apply elem_of_cons in Hp as [->|Hp].
      * assert (nd = node) as -> by congruence.
        rewrite Hself in Hlp. injection Hlp as <- <-.
        exact (Hpos i c Hc).
      * exact (Harr p nd lp yp Hp Hnd' Hlp i c Hc).
  - injection HL as <-. injection Hids as Hids.
    assert (rest = []) as ->.
    { apply app_inv_head in Hids. congruence. }
    split; [apply lookup_insert_eq|]. split; [|split].
    + intros k Hk. apply not_elem_of_cons in Hk as [Hne _]. now apply lookup_insert_ne.
    + intros p nd c Hp Hnd'. apply list_elem_of_singleton in Hp as ->. congruence.
    + intros p nd lp yp Hp Hnd'. apply list_elem_of_singleton in Hp as ->. congruence.
Qed.

Lemma inject_succ (n : nat) :
  (inject_Z (Z.of_nat (S n)) == inject_Z (Z.of_nat n) + 1)%Q.
Proof. rewrite Nat2Z.inj_succ. unfold Z.succ. rewrite inject_Z_plus. reflexivity. Qed.

Lemma arranged_place (tree : LearningTree.t) (L : gmap string (nat * Q)) (ids : list string)
    (s : Q) (m : gmap string Position) :
  arranged tree L ids -> closed tree ids -> dom L = list_to_set ids ->
  arranged_positions tree ((place (Fin 0) (Fin s) <$> L) ∪ m) ids.
Proof.
  intros Harr Hclosed Hdom p node px py Hp Hnode Hpos i c Hc.
  assert (HpL : p ∈ dom L) by (rewrite Hdom; now apply (elem_of_list_to_set (C := gset string))).
  apply elem_of_dom in HpL as [[lp yp] Hlp].
  erewrite lookup_union_Some_l in Hpos by (rewrite lookup_fmap, Hlp; reflexivity).
  injection Hpos as <- <-.
  pose proof (Harr p node lp yp Hp Hnode Hlp i c Hc) as Hlc.
  eexists. eexists. split.
  - erewrite lookup_union_Some_l; [reflexivity|]. rewrite lookup_fmap, Hlc. reflexivity.
  - simpl. split.
    + rewrite inject_succ. unfold horizontalSpacing. lra.
    + unfold localOffset. lra.
Qed.

Lemma closed_app (tree : LearningTree.t) (l1 l2 : list string) :
  closed tree l1 -> closed tree l2 -> closed tree (l1 ++ l2).
Proof.
  intros H1 H2 p node c Hp Hnode Hc. apply elem_of_app in Hp as [Hp|Hp]; apply elem_of_app.
  - left. exact (H1 p node c Hp Hnode Hc).
  - right. exact (H2 p node c Hp Hnode Hc).
Qed.

Lemma place_roots_forest (stack : nat) (tree : LearningTree.t) (rootIds : list string) :
  forall positions V positions',
    map_Forall (fun _ pos => on_grid pos) positions ->
    dom positions = list_to_set V ->
    closed tree V ->
    arranged_positions tree positions V ->
    place_roots stack tree rootIds positions = Some positions' ->
    NoDup (V ++ all_ids stack tree rootIds) ->
    (forall k, k ∈ V -> positions' !! k = positions !! k)
    /\ arranged_positions tree positions' (V ++ all_ids stack tree rootIds)
    /\ dom positions' = list_to_set (V ++ all_ids stack tree rootIds).
Proof.
  induction rootIds as [|rootId rest IH];
    intros positions V positions' Hgrid Hdom Hclosed Harr Hplace Hnd; simpl in *.
  - injection Hplace as <-. rewrite app_nil_r. now repeat split.
  - pose proof (place_root_shape stack tree positions rootId Hgrid) as Hshape.
    destruct (place_root stack tree positions rootId) as [positions1|]; [|discriminate].
    destruct Hshape as (L & ids & s & HL & Hids & HdomL & -> & _).
    rewrite Hids in Hnd |- *. simpl in Hnd |- *.
    assert (Hnd' : NoDup ((V ++ rootId :: ids) ++ all_ids stack tree rest))
      by now rewrite <- app_assoc.
    pose proof Hnd' as Hsplit. apply NoDup_app in Hsplit as (HndV1 & _ & _).
    apply NoDup_app in HndV1 as (_ & Hdisj & Hnd1).
    destruct (local_layout_tree tree stack rootId 0 0 0 1 ∅ L [] ids HL Hids Hnd1)
      as (_ & _ & Hclosed1 & Harr1).
    assert (Hold : forall k, k ∈ V -> ((place (Fin 0) (Fin s) <$> L) ∪ positions) !! k
                                     = positions !! k).
    { intros k Hk. apply lookup_union_r. rewrite lookup_fmap.
      assert (HkL : k ∉ dom L).
      { rewrite HdomL. intros Hin. apply (elem_of_list_to_set (C := gset string)) in Hin.
        exact (Hdisj k Hk Hin). }
      apply not_elem_of_dom in HkL. now rewrite HkL. }
    destruct (IH ((place (Fin 0) (Fin s) <$> L) ∪ positions) (V ++ rootId :: ids) positions')
      as (Hkeep & Harr' & Hdom'); try assumption.
    + now apply temp_finite.
    + rewrite dom_union_L, dom_fmap_L, HdomL, Hdom, list_to_set_app_L. set_solver.
    + now apply closed_app.
    + intros p node px py Hp Hnode Hpos i c Hc. apply elem_of_app in Hp as [Hp|Hp].
      * rewrite (Hold p Hp) in Hpos.
        assert (HcV : c ∈ V).
        { apply (Hclosed p node c Hp Hnode). now apply list_elem_of_lookup_2 in Hc. }
        rewrite (Hold c HcV). exact (Harr p node px py Hp Hnode Hpos i c Hc).
      * exact (arranged_place tree L (rootId :: ids) s positions Harr1 Hclosed1 HdomL
                 p node px py Hp Hnode Hpos i c Hc).
    + rewrite <- app_assoc in Harr', Hdom'. split; [|now split].
      intros k Hk. rewrite Hkeep by (apply elem_of_app; now left). now apply Hold.
Qed.

(** X26. The shape of the layout of a forest. When the ids listed for
    the roots are pairwise distinct (every node is reached from one
    root, along one path), the first root is at the origin, and every
    child is one column, [horizontalSpacing] (280), to the right of its
    parent, the [i]-th of [n] children [(i - (n - 1) / 2)] times
    [verticalSpacing] (200) below its parent's height. *)
Theorem forest_layout (stack : nat) (tree : LearningTree.t)
    (positions : gmap string Position) :
  calculateTreeLayout stack tree = Some positions ->
  NoDup (all_ids stack tree (LearningTree.rootIds tree)) ->
  (forall root0, head (LearningTree.rootIds tree) = Some root0 ->
     exists px py, positions !! root0 = Some {| x := Fin px; y := Fin py |}
                   /\ (px == 0)%Q /\ (py == 0)%Q)
  /\ forall p node px py,
       LearningTree.nodes tree !! p = Some node ->
       positions !! p = Some {| x := Fin px; y := Fin py |} ->
       forall i c, TreeNode.childIds node !! i = Some c ->
         exists cx cy,
           positions !! c = Some {| x := Fin cx; y := Fin cy |}
           /\ (cx == px + horizontalSpacing)%Q
           /\ (cy == py + (inject_Z (Z.of_nat i)
                           - (inject_Z (Z.of_nat (length (TreeNode.childIds node))) - 1)
                             / (2 # 1))
                          * verticalSpacing)%Q.
Proof.
  unfold calculateTreeLayout. destruct (LearningTree.rootIds tree) as [|root0 rest].
  - intros [= <-] _. split; [discriminate|]. intros p node px py _ Hp.
    now rewrite lookup_empty in Hp.
  - rewrite traverseTree_local.
    pose proof (local_layout_ids tree stack root0 0 0 0 1 ∅ []) as Hshape.
    destruct (local_layout stack tree root0 0 0 0 1 ∅) as [L|] eqn:HL; [|discriminate].
    destruct (traverse_ids stack tree root0 []) as [ids0|] eqn:Hids; [|contradiction].
    destruct Hshape as (ids & -> & HdomL). simpl in HdomL. cbn [app] in Hids.
    assert (HdomL' : dom L = list_to_set (root0 :: ids)) by (rewrite HdomL; set_solver).
    simpl. unfold getNodesInTree. rewrite Hids. simpl.
    intros Hplace Hnd.
    pose proof Hnd as Hsplit.
    change (NoDup ((root0 :: ids) ++ all_ids stack tree rest)) in Hsplit.
    apply NoDup_app in Hsplit as (Hnd0 & _ & _).
    destruct (local_layout_tree tree stack root0 0 0 0 1 ∅ L [] ids HL Hids Hnd0)
      as (Hroot & _ & Hclosed0 & Harr0).
    destruct (place_roots_forest stack tree rest
                ((place (Fin 0) (Fin 0) <$> L) ∪ ∅) (root0 :: ids) positions)
      as (Hkeep & Harr & Hdom); try assumption.
    + apply temp_finite, map_Forall_empty.
    + now rewrite dom_union_L, dom_fmap_L, dom_empty_L, (right_id_L ∅ (∪)).
    + now apply arranged_place.
    + split.
      * intros r [= <-]. eexists. eexists. split.
        -- rewrite Hkeep by now left.
           erewrite lookup_union_Some_l; [reflexivity|].
           rewrite lookup_fmap, Hroot. reflexivity.
        -- split; vm_compute; reflexivity.
      * intros p node px py Hnode Hp i c Hc.
        assert (Hin : p ∈ (root0 :: ids) ++ all_ids stack tree rest).
        { apply (elem_of_list_to_set (C := gset string)). rewrite <- Hdom.
          apply elem_of_dom. eauto. }
        exact (Harr p node px py Hin Hnode Hp i c Hc).
Qed.

Lemma forest_layout_witness :
  calculateTreeLayout 3 family = Some family_layout
  /\ NoDup (all_ids 3 family (LearningTree.rootIds family))
  /\ exists px py, family_layout !! "r"%string = Some {| x := Fin px; y := Fin py |}
                   /\ (px == 0)%Q /\ (py == 0)%Q.
Proof.
  assert (E : calculateTreeLayout 3 family = Some family_layout) by (vm_compute; reflexivity).
  assert (Hnd : NoDup (all_ids 3 family (LearningTree.rootIds family))).
  { vm_compute. repeat constructor; set_solver. }
  split; [exact E|]. split; [exact Hnd|].
  destruct (forest_layout 3 family family_layout E Hnd) as [Hroot _].
  exact (Hroot "r"%string eq_refl).
Defined.

End LayoutFacts.
